(** * J-REIT finder: the scoring engine of [j_reit_finder/stock_selector.py]

    A shallow embedding of [ScoringWeights] and [JREITSelector] together with
    the fragment of pandas the selector calls.

    - Python [float] and pandas [float64] are IEEE binary64: they are Rocq's
      primitive floats, whose operations the kernel evaluates exactly as the
      hardware does ([nan], [infinity], signed zeros, rounding to nearest).
      The columns the selector computes with are taken as [float64]; a count
      held as [int64] has the same differences and quotients as long as it is
      below [2^53].
    - A [DataFrame] is a mutable object: frames live in a store and are
      addressed by reference, [df[col] = s] updates the store in place and
      [df.copy()] allocates.  A [Series] read from a frame is a value; every
      series the selector assigns shares the index of the frame it came from,
      so assignment is by position.
    - [sort_values] goes through pandas' [nargsort], which calls numpy's
      [argsort]; the sorting algorithm ([kind]) is an interface, [SortKind],
      and the selector is verified for every algorithm that returns an
      ascending permutation.  Two algorithms are given: a stable insertion
      sort, and numpy's quicksort, which is what [sort_values] runs when no
      [kind] is passed.

    Plan of the file: the model of pandas and the selector; the theory
    (comparison of binary64 values, the sorting algorithms, running the
    selector in the store, [nargsort], binary64 subtraction and division as
    rounding of exact values); the claims C1, C2, C4 to C10; further
    properties of the selector (X1 to X18, X20), among which the bounds of
    the NAV-ratio score that C3 rests on, then C3; the asset types of
    [j_reit_finder/data.py] (X19). *)

From Stdlib Require Import String ZArith List Bool Lia Floats Permutation Sorted.
Import ListNotations.

Set Warnings "-inexact-float".

(** ** Exceptions and results *)

Inductive exn : Type :=
| KeyError (key : string)      (* a column that is not in the frame *)
| TypeError                    (* arithmetic on a column of strings *)
| ValueError                   (* length of values does not match length of index *)
| InvalidRef.                  (* a reference to no object of the store *)

Inductive result (A : Type) : Type :=
| Ok (a : A)
| Raise (e : exn).
Arguments Ok {A} a.
Arguments Raise {A} e.

(** ** Series of float64 *)

Module Series.

Definition t := list float.

  (** [s - c], [s / c], [c - s], [s * c] with a scalar [c], [abs(s)], and
      [s1 + s2] for two series over the same index. *)
Definition sub_scalar (s : t) (c : float) : t := map (fun x => (x - c)%float) s.
Definition div_scalar (s : t) (c : float) : t := map (fun x => (x / c)%float) s.
Definition rsub_scalar (c : float) (s : t) : t := map (fun x => (c - x)%float) s.
Definition mul_scalar (s : t) (c : float) : t := map (fun x => (x * c)%float) s.
Definition abs (s : t) : t := map PrimFloat.abs s.

Fixpoint add (s1 s2 : t) : t :=
    match s1, s2 with
    | x :: s1', y :: s2' => (x + y)%float :: add s1' s2'
    | _, _ => []
    end.

  (** [Series.min()] and [Series.max()] skip missing values ([skipna=True]) and
      return [nan] when nothing is left.  The reduction keeps what it has only
      when that is strictly smaller (larger) than the next value: of two
      values that compare equal, which [+0.0] and [-0.0] do, the later one is
      returned. *)
Definition dropna (s : t) : t := filter (fun x => negb (is_nan x)) s.

Definition fmin (a b : float) : float := if (a <? b)%float then a else b.
Definition fmax (a b : float) : float := if (b <? a)%float then a else b.

Definition min (s : t) : float :=
    match dropna s with
    | [] => nan
    | x :: xs => fold_left fmin xs x
    end.

Definition max (s : t) : float :=
    match dropna s with
    | [] => nan
    | x :: xs => fold_left fmax xs x
    end.

End Series.

(** ** numpy's [argsort], by sorting algorithm

    [argsort v] returns the positions of [v] in ascending order of value.
    Whatever the algorithm ([kind] is 'quicksort', 'mergesort', 'heapsort' or
    'stable'), the result is a permutation of [0 .. len v - 1] and, on values
    without [nan], it is ascending.  Only some kinds keep the input order of
    equal values; [select_stocks] passes no [kind], so pandas uses its default,
    'quicksort'. *)

Definition value_le (v : list float) (i j : nat) : Prop :=
  PrimFloat.leb (nth i v nan) (nth j v nan) = true.

Definition ascending_at (v : list float) (r : list nat) : Prop :=
  Sorted (value_le v) r.

Definition no_nan (v : list float) : bool :=
  forallb (fun x => negb (is_nan x)) v.

Class SortKind : Type := {
  argsort : list float -> list nat;
  argsort_perm : forall v, Permutation (argsort v) (seq 0 (length v));
  argsort_sorted : forall v, no_nan v = true -> ascending_at v (argsort v)
}.



(** ** DataFrames *)

Inductive column : Type :=
| NumCol (v : Series.t)        (* float64 *)
| ObjCol (v : list string).    (* object: names, categories *)

Definition column_length (c : column) : nat :=
  match c with NumCol v => length v | ObjCol v => length v end.

Record DataFrame : Type := {
  index : list Z;                       (* row labels *)
  columns : list (string * column)      (* in column order *)
}.

Module Frame.

Definition take {A} (d : A) (l : list A) (indexer : list nat) : list A :=
    map (fun i => nth i l d) indexer.

Definition take_column (c : column) (indexer : list nat) : column :=
    match c with
    | NumCol v => NumCol (take nan v indexer)
    | ObjCol v => ObjCol (take EmptyString v indexer)
    end.

  (** [df.take(indexer)]: the rows at the given positions, in that order. *)
Definition take_rows (df : DataFrame) (indexer : list nat) : DataFrame :=
    {| index := take 0%Z (index df) indexer;
       columns := map (fun kc => (fst kc, take_column (snd kc) indexer)) (columns df) |}.

Fixpoint lookup (cols : list (string * column)) (key : string) : option column :=
    match cols with
    | [] => None
    | (k, c) :: rest => if String.eqb k key then Some c else lookup rest key
    end.

  (** [df[key]] *)
Definition getitem (df : DataFrame) (key : string) : result column :=
    match lookup (columns df) key with
    | Some c => Ok c
    | None => Raise (KeyError key)
    end.

  (** [df[key]] used as a number series.  Arithmetic on a column of strings
      raises [TypeError]; on a column of strings without rows it gives the
      series without rows. *)
Definition getnum (df : DataFrame) (key : string) : result Series.t :=
    match getitem df key with
    | Ok (NumCol v) => Ok v
    | Ok (ObjCol []) => Ok []
    | Ok (ObjCol (_ :: _)) => Raise TypeError
    | Raise e => Raise e
    end.

Fixpoint assign (cols : list (string * column)) (key : string) (c : column)
    : list (string * column) :=
    match cols with
    | [] => [(key, c)]
    | (k, c') :: rest =>
        if String.eqb k key then (k, c) :: rest else (k, c') :: assign rest key c
    end.

  (** [df[key] = c]: an existing column is replaced where it stands, a new one
      is appended. *)
Definition setitem (df : DataFrame) (key : string) (c : column) : result DataFrame :=
    if Nat.eqb (column_length c) (length (index df))
    then Ok {| index := index df; columns := assign (columns df) key c |}
    else Raise ValueError.

  (** pandas' [nargsort(items, kind, ascending, na_position='last')]. *)
  Section Nargsort.
    Context {K : SortKind}.

Definition select {A} (mask : list bool) (l : list A) : list A :=
      map snd (filter fst (combine mask l)).

Definition nargsort (items : list float) (ascending : bool) : list nat :=
      let idx := seq 0 (length items) in
      let mask := map is_nan items in
      let non_nans := select (map negb mask) items in
      let non_nan_idx := select (map negb mask) idx in
      let nan_idx := select mask idx in
      let non_nans := if ascending then non_nans else rev non_nans in
      let non_nan_idx := if ascending then non_nan_idx else rev non_nan_idx in
      let indexer := take 0 non_nan_idx (argsort non_nans) in
      let indexer := if ascending then indexer else rev indexer in
      indexer ++ nan_idx.

    (** [df.sort_values(by, ascending=ascending)] on one numeric column. *)
Definition sort_values (df : DataFrame) (by_ : string) (ascending : bool)
      : result DataFrame :=
      match getnum df by_ with
      | Ok k => Ok (take_rows df (nargsort k ascending))
      | Raise e => Raise e
      end.
  End Nargsort.

  (** [df.head(n)] is [df.iloc[:n]]: a negative [n] counts from the end. *)
Definition slice_stop (len : nat) (n : Z) : nat :=
    if (0 <=? n)%Z then Nat.min (Z.to_nat n) len
    else Z.to_nat (Z.of_nat len + n).

Definition head (df : DataFrame) (n : Z) : DataFrame :=
    take_rows df (seq 0 (slice_stop (length (index df)) n)).

End Frame.

(** ** The store and its monad

    The store holds the frames that exist and the selector object [self],
    whose only attribute is [weights].  A computation reads and updates the
    store and may raise. *)

Record ScoringWeights : Type := {
  distribution_yield : float;
  nav_ratio : float;
  portfolio_quality : float;
  financial_health : float;
  market_position : float
}.

Definition default_weights : ScoringWeights :=
  {| distribution_yield := 0.25;
     nav_ratio := 0.20;
     portfolio_quality := 0.15;
     financial_health := 0.20;
     market_position := 0.20 |}.

Record JREITSelector : Type := { weights : ScoringWeights }.

Definition ref := nat.

Record store : Type := {
  frames : list DataFrame;
  self : JREITSelector
}.

Definition M (A : Type) : Type := store -> result (A * store).

Definition ret {A} (a : A) : M A := fun st => Ok (a, st).

Definition bind {A B} (m : M A) (k : A -> M B) : M B :=
  fun st => match m st with
            | Ok (a, st') => k a st'
            | Raise e => Raise e
            end.

Definition lift {A} (r : result A) : M A :=
  fun st => match r with
            | Ok a => Ok (a, st)
            | Raise e => Raise e
            end.

Notation "x <- m ;; k" := (bind m (fun x => k))
  (at level 61, m at next level, right associativity).
Notation "m ;;; k" := (bind m (fun _ => k))
  (at level 61, right associativity).

Fixpoint for_each {A} (l : list A) (body : A -> M unit) : M unit :=
  match l with
  | [] => ret tt
  | x :: l' => body x ;;; for_each l' body
  end.

Module Store.

Definition deref (r : ref) : M DataFrame :=
    fun st => match nth_error (frames st) r with
              | Some df => Ok (df, st)
              | None => Raise InvalidRef
              end.

Definition alloc (df : DataFrame) : M ref :=
    fun st => Ok (length (frames st),
                  {| frames := frames st ++ [df]; self := self st |}).

Fixpoint replace_nth {A} (n : nat) (l : list A) (x : A) : list A :=
    match l, n with
    | [], _ => []
    | _ :: l', O => x :: l'
    | y :: l', S n' => y :: replace_nth n' l' x
    end.

Definition update (r : ref) (df : DataFrame) : M unit :=
    fun st => Ok (tt, {| frames := replace_nth r (frames st) df; self := self st |}).

Definition self_weights : M ScoringWeights :=
    fun st => Ok (weights (self st), st).

  (** [pd.DataFrame(index=df.index)] *)
Definition new_frame (df : ref) : M ref :=
    d <- deref df ;;
    alloc {| index := index d; columns := [] |}.

  (** [df.copy()] *)
Definition copy (df : ref) : M ref :=
    d <- deref df ;; alloc d.

  (** [df[key]] for a numeric column *)
Definition getitem (df : ref) (key : string) : M Series.t :=
    d <- deref df ;; lift (Frame.getnum d key).

  (** [df[key] = s] *)
Definition setitem (df : ref) (key : string) (s : Series.t) : M unit :=
    d <- deref df ;;
    d' <- lift (Frame.setitem d key (NumCol s)) ;;
    update df d'.

  (** [df.columns] *)
Definition column_names (df : ref) : M (list string) :=
    d <- deref df ;; ret (map fst (columns d)).

  (** [df.sort_values(by, ascending=...)]: a new frame. *)
Definition sort_values {K : SortKind} (df : ref) (by_ : string) (ascending : bool) : M ref :=
    d <- deref df ;;
    d' <- lift (Frame.sort_values d by_ ascending) ;;
    alloc d'.

  (** [df.head(n)]: a new frame. *)
Definition head (df : ref) (n : Z) : M ref :=
    d <- deref df ;; alloc (Frame.head d n).

End Store.

(** ** [stock_selector.py] *)

Module Col.
Definition distribution_yield : string := "分配金利回り".
Definition nav_ratio : string := "NAV倍率".
Definition average_age : string := "平均築年数".
Definition buildings : string := "棟数".
Definition ltv : string := "有利子負債比率".
Definition roe : string := "自己資本利益率（ROE）".
Definition market_cap : string := "時価総額(円)".
Definition asset_size : string := "資産規模(円)".

Definition distribution_yield_score : string := "分配金利回りスコア".
Definition nav_ratio_score : string := "NAV倍率スコア".
Definition portfolio_quality_score : string := "ポートフォリオ質スコア".
Definition financial_health_score : string := "財務健全性スコア".
Definition market_position_score : string := "市場ポジションスコア".
Definition total_score : string := "総合スコア".
End Col.

Section Selector.
  Context {K : SortKind}.

Definition normalize_column (df : ref) (column : string) (ascending : bool) : M Series.t :=
    a <- Store.getitem df column ;;
    b <- Store.getitem df column ;;
    c <- Store.getitem df column ;;
    d <- Store.getitem df column ;;
    ret (Series.div_scalar (Series.sub_scalar a (Series.min b))
                           (Series.max c - Series.min d)%float).

Definition calculate_distribution_yield_score (df : ref) : M Series.t :=
    normalize_column df Col.distribution_yield false.

Definition calculate_nav_ratio_score (df : ref) : M Series.t :=
    nav_ratio <- Store.getitem df Col.nav_ratio ;;
    let ideal_ratio := 1%float in
    ret (Series.rsub_scalar 1
           (Series.div_scalar (Series.abs (Series.sub_scalar nav_ratio ideal_ratio))
                              (Series.max nav_ratio))).

Definition calculate_portfolio_quality_score (df : ref) : M Series.t :=
    n <- normalize_column df Col.average_age true ;;
    let age_score := Series.rsub_scalar 1 n in
    building_score <- normalize_column df Col.buildings true ;;
    ret (Series.div_scalar (Series.add age_score building_score) 2).

Definition calculate_financial_health_score (df : ref) : M Series.t :=
    n <- normalize_column df Col.ltv true ;;
    let ltv_score := Series.rsub_scalar 1 n in
    roe_score <- normalize_column df Col.roe true ;;
    ret (Series.div_scalar (Series.add ltv_score roe_score) 2).

Definition calculate_market_position_score (df : ref) : M Series.t :=
    market_cap_score <- normalize_column df Col.market_cap true ;;
    asset_size_score <- normalize_column df Col.asset_size true ;;
    ret (Series.div_scalar (Series.add market_cap_score asset_size_score) 2).

Definition select_stocks (df : ref) (top_n : Z) : M ref :=
    scores <- Store.new_frame df ;;
    s <- calculate_distribution_yield_score df ;;
    Store.setitem scores Col.distribution_yield_score s ;;;
    s <- calculate_nav_ratio_score df ;;
    Store.setitem scores Col.nav_ratio_score s ;;;
    s <- calculate_portfolio_quality_score df ;;
    Store.setitem scores Col.portfolio_quality_score s ;;;
    s <- calculate_financial_health_score df ;;
    Store.setitem scores Col.financial_health_score s ;;;
    s <- calculate_market_position_score df ;;
    Store.setitem scores Col.market_position_score s ;;;
    (* the composite score *)
    s1 <- Store.getitem scores Col.distribution_yield_score ;;
    w <- Store.self_weights ;; let w1 := distribution_yield w in
    s2 <- Store.getitem scores Col.nav_ratio_score ;;
    w <- Store.self_weights ;; let w2 := nav_ratio w in
    s3 <- Store.getitem scores Col.portfolio_quality_score ;;
    w <- Store.self_weights ;; let w3 := portfolio_quality w in
    s4 <- Store.getitem scores Col.financial_health_score ;;
    w <- Store.self_weights ;; let w4 := financial_health w in
    s5 <- Store.getitem scores Col.market_position_score ;;
    w <- Store.self_weights ;; let w5 := market_position w in
    Store.setitem scores Col.total_score
      (Series.add (Series.add (Series.add (Series.add
         (Series.mul_scalar s1 w1) (Series.mul_scalar s2 w2))
         (Series.mul_scalar s3 w3)) (Series.mul_scalar s4 w4))
         (Series.mul_scalar s5 w5)) ;;;
    (* joined to a copy of the input frame *)
    result <- Store.copy df ;;
    s <- Store.getitem scores Col.total_score ;;
    Store.setitem result Col.total_score s ;;;
    cols <- Store.column_names scores ;;
    for_each cols (fun col =>
      if negb (String.eqb col Col.total_score)
      then s <- Store.getitem scores col ;; Store.setitem result col s
      else ret tt) ;;;
    (* sorted by composite score, best first *)
    sorted <- Store.sort_values result Col.total_score false ;;
    Store.head sorted top_n.

End Selector.

(** * Theory *)

(** ** Comparison of binary64 values

    The primitive comparisons are specified by [SFcompare] on [spec_float]:
    a total preorder away from [nan]. *)

Module F64.

Lemma SFcompare_refl x : x <> S754_nan -> SFcompare x x = Some Eq.
  Proof.
    destruct x as [s|s| |s m e]; intros H; try congruence; try (destruct s; reflexivity).
    simpl. rewrite Z.compare_refl.
    change (Pos.compare_cont Eq m m) with (Pos.compare m m).
    rewrite Pos.compare_refl. destruct s; reflexivity.
  Qed.

Lemma is_nan_spec x : is_nan x = true <-> Prim2SF x = S754_nan.
  Proof.
    unfold is_nan. rewrite eqb_spec. unfold SFeqb. split.
    - intros H. destruct (Prim2SF x) eqn:E; try reflexivity;
        rewrite SFcompare_refl in H by congruence; discriminate.
    - intros ->. reflexivity.
  Qed.

Lemma is_nan_false x : is_nan x = false <-> Prim2SF x <> S754_nan.
  Proof.
    rewrite <- is_nan_spec. destruct (is_nan x); split; congruence.
  Qed.

Lemma SFcompare_antisym x y :
    SFcompare y x = option_map CompOpp (SFcompare x y).
  Proof.
    destruct x as [sx|sx| |sx mx ex], y as [sy|sy| |sy my ey]; simpl;
      try reflexivity; try (destruct sx; reflexivity); try (destruct sy; reflexivity);
      try (destruct sx, sy; reflexivity).
    change (Pos.compare_cont Eq my mx) with (Pos.compare my mx).
    change (Pos.compare_cont Eq mx my) with (Pos.compare mx my).
    rewrite (Z.compare_antisym ex ey), (Pos.compare_antisym mx my).
    destruct sx, sy; simpl; try reflexivity;
      destruct (ex ?= ey)%Z; simpl; try reflexivity;
      destruct (mx ?= my)%positive; reflexivity.
  Qed.

Lemma SFcompare_some x y :
    x <> S754_nan -> y <> S754_nan -> exists c, SFcompare x y = Some c.
  Proof.
    destruct x, y; intros; try congruence; simpl; eauto.
  Qed.

Lemma SFleb_trans x y z : SFleb x y = true -> SFleb y z = true -> SFleb x z = true.
  Proof.
    unfold SFleb.
    destruct x as [sx|sx| |sx mx ex], y as [sy|sy| |sy my ey], z as [sz|sz| |sz mz ez];
      simpl; try discriminate; try reflexivity;
      try (destruct sx; simpl; try discriminate; try reflexivity);
      try (destruct sy; simpl; try discriminate; try reflexivity);
      try (destruct sz; simpl; try discriminate; try reflexivity).
    all: change (Pos.compare_cont Eq mx my) with (Pos.compare mx my);
      change (Pos.compare_cont Eq my mz) with (Pos.compare my mz);
      change (Pos.compare_cont Eq mx mz) with (Pos.compare mx mz).
    all: destruct (Z.compare_spec ex ey), (Z.compare_spec ey ez), (Z.compare_spec ex ez);
      try lia; try discriminate; try reflexivity; subst.
    all: destruct (Pos.compare_spec mx my), (Pos.compare_spec my mz), (Pos.compare_spec mx mz);
      simpl; try lia; try discriminate; try reflexivity.
  Qed.

  (** The same facts on the primitive operations. *)

Lemma leb_trans x y z :
    (x <=? y)%float = true -> (y <=? z)%float = true -> (x <=? z)%float = true.
  Proof. rewrite !leb_spec. apply SFleb_trans. Qed.

Lemma leb_refl x : is_nan x = false -> (x <=? x)%float = true.
  Proof.
    intros H. apply is_nan_false in H. rewrite leb_spec. unfold SFleb.
    now rewrite SFcompare_refl.
  Qed.

Lemma leb_total x y :
    is_nan x = false -> is_nan y = false ->
    (x <=? y)%float = false -> (y <=? x)%float = true.
  Proof.
    intros Hx Hy. apply is_nan_false in Hx, Hy. rewrite !leb_spec. unfold SFleb.
    rewrite (SFcompare_antisym (Prim2SF x) (Prim2SF y)).
    destruct (SFcompare_some _ _ Hx Hy) as [c ->]. destruct c; simpl; congruence.
  Qed.

Lemma ltb_leb x y : (x <? y)%float = true -> (x <=? y)%float = true.
  Proof.
    rewrite ltb_spec, leb_spec. unfold SFltb, SFleb.
    destruct (SFcompare _ _) as [[]|]; congruence.
  Qed.

Lemma ltb_false_leb x y :
    is_nan x = false -> is_nan y = false ->
    (x <? y)%float = false -> (y <=? x)%float = true.
  Proof.
    intros Hx Hy. apply is_nan_false in Hx, Hy. rewrite ltb_spec, leb_spec.
    unfold SFltb, SFleb.
    rewrite (SFcompare_antisym (Prim2SF x) (Prim2SF y)).
    destruct (SFcompare_some _ _ Hx Hy) as [c ->]. destruct c; simpl; congruence.
  Qed.

Lemma eqb_leb x y : (x =? y)%float = true -> (x <=? y)%float = true.
  Proof.
    rewrite eqb_spec, leb_spec. unfold SFeqb, SFleb.
    destruct (SFcompare _ _) as [[]|]; congruence.
  Qed.


Lemma leb_antisym x y :
    (x <=? y)%float = true -> (y <=? x)%float = true -> (x =? y)%float = true.
  Proof.
    rewrite !leb_spec, eqb_spec. unfold SFleb, SFeqb.
    rewrite (SFcompare_antisym (Prim2SF x) (Prim2SF y)).
    destruct (SFcompare _ _) as [[]|]; simpl; congruence.
  Qed.

Lemma leb_not_nan x y :
    (x <=? y)%float = true -> is_nan x = false /\ is_nan y = false.
  Proof.
    rewrite leb_spec, !is_nan_false. unfold SFleb.
    destruct (Prim2SF x), (Prim2SF y); simpl; try discriminate; split; congruence.
  Qed.


End F64.

(** ** A stable sorting algorithm

    Insertion of the positions, last first, into an ascending list.  With the
    test [<=] a position goes before the equal values already there, which come
    later in the input: the sort keeps the input order of ties ([strict] is
    the other test, [<]).  It stands for a stable [kind]. *)

Section InsertionArgsort.
  Variable strict : bool.
  Variable v : list float.

Definition goes_before (i j : nat) : bool :=
    if strict then PrimFloat.ltb (nth i v nan) (nth j v nan)
    else PrimFloat.leb (nth i v nan) (nth j v nan).

Fixpoint insert (i : nat) (r : list nat) : list nat :=
    match r with
    | [] => [i]
    | j :: r' => if goes_before i j then i :: j :: r' else j :: insert i r'
    end.

Definition insertion_argsort : list nat :=
    fold_right insert [] (seq 0 (length v)).
End InsertionArgsort.

Section InsertionArgsortFacts.
  Variable strict : bool.
  Variable v : list float.

Lemma insert_perm i r : Permutation (insert strict v i r) (i :: r).
  Proof.
    induction r as [|j r IH]; simpl.
    - reflexivity.
    - destruct (goes_before strict v i j).
      + reflexivity.
      + rewrite IH. apply perm_swap.
  Qed.

Lemma fold_insert_perm l : Permutation (fold_right (insert strict v) [] l) l.
  Proof.
    induction l as [|i l IH]; simpl.
    - reflexivity.
    - rewrite insert_perm. now constructor.
  Qed.

Lemma insertion_argsort_perm :
    Permutation (insertion_argsort strict v) (seq 0 (length v)).
  Proof. apply fold_insert_perm. Qed.

Definition defined_at (i : nat) : Prop := is_nan (nth i v nan) = false.

Lemma goes_before_le i j : goes_before strict v i j = true -> value_le v i j.
  Proof.
    unfold goes_before, value_le. destruct strict; auto using F64.ltb_leb.
  Qed.

Lemma goes_after_le i j :
    defined_at i -> defined_at j -> goes_before strict v i j = false -> value_le v j i.
  Proof.
    unfold goes_before, value_le, defined_at. destruct strict; intros.
    - now apply F64.ltb_false_leb.
    - now apply F64.leb_total.
  Qed.

Lemma insert_sorted i r :
    defined_at i -> Forall defined_at r ->
    Sorted (value_le v) r -> Sorted (value_le v) (insert strict v i r).
  Proof.
    intros Hi. induction r as [|j r IH]; intros Hr Hs; simpl.
    - repeat constructor.
    - inversion Hr as [|? ? Hj Hr']; subst. inversion Hs as [|? ? Hs' Hhd]; subst.
      destruct (goes_before strict v i j) eqn:E.
      + constructor; [assumption|]. constructor. now apply goes_before_le.
      + constructor; [now apply IH|].
        destruct r as [|k r]; simpl.
        * constructor. now apply goes_after_le.
        * destruct (goes_before strict v i k).
          -- constructor. now apply goes_after_le.
          -- inversion Hhd; subst. now constructor.
  Qed.

Lemma fold_insert_sorted l :
    Forall defined_at l -> Sorted (value_le v) (fold_right (insert strict v) [] l).
  Proof.
    induction l as [|i l IH]; intros H; simpl.
    - constructor.
    - inversion H; subst. apply insert_sorted; auto.
      eapply Permutation_Forall; [symmetry; apply fold_insert_perm|]. assumption.
  Qed.

Lemma no_nan_defined_at i : no_nan v = true -> i < length v -> defined_at i.
  Proof.
    unfold no_nan, defined_at. rewrite forallb_forall. intros H Hi.
    specialize (H (nth i v nan) (nth_In _ _ Hi)).
    now apply negb_true_iff in H.
  Qed.

Lemma insertion_argsort_sorted :
    no_nan v = true -> ascending_at v (insertion_argsort strict v).
  Proof.
    intros H. apply fold_insert_sorted. apply Forall_forall. intros i Hi.
    apply in_seq in Hi. apply no_nan_defined_at; [assumption|lia].
  Qed.
End InsertionArgsortFacts.

(** The test [<=]: ties keep their input order. *)
Section StableInsertion.
  Variable v : list float.


End StableInsertion.

#[export] Instance stable_kind : SortKind := {|
  argsort := insertion_argsort false;
  argsort_perm := insertion_argsort_perm false;
  argsort_sorted := insertion_argsort_sorted false
|}.


(** ** numpy's quicksort

    [npy_aquicksort] for [double] ([npysort/quicksort.cpp]): an introsort on
    the array of positions [tosort], by the values [v].  Median of three and
    a partition for a range of more than 16 positions, the larger part pushed
    on a stack; insertion sort for a range of at most 17 positions; heapsort
    for a range reached after more than [2 * floor(log2 num)] partitions.
    The pointers [pl], [pr], [pi], [pj] are offsets into [tosort]; a loop of
    the C code is a recursive function with a number of steps that the
    length of the array bounds. *)

Module Numpy.

Section Sort.
Variable v : list float.



Fixpoint set (a : list nat) (i : nat) (x : nat) : list nat :=
  match a, i with
  | [], _ => []
  | _ :: a', O => x :: a'
  | y :: a', S i' => y :: set a' i' x
  end.




















End Sort.
End Numpy.

(** *** A kind from an algorithm whose result is checked

    [numpy_quicksort] is [Numpy.aquicksort]: the result of the algorithm is
    checked to be a permutation of the positions, ascending when no value is
    [nan], which gives the two laws of a kind without a proof of the
    introsort.  Wherever the algorithm sorts, the kind is the algorithm. *)












(** ** Entity tables

    A frame is well formed when its columns are named apart and hold one value
    per row; an entity table has, besides, the eight numeric columns the
    selector reads. *)

Definition n_rows (d : DataFrame) : nat := length (index d).

Fixpoint distinct (l : list string) : bool :=
  match l with
  | [] => true
  | k :: l' => negb (existsb (String.eqb k) l') && distinct l'
  end.

Definition well_formed (d : DataFrame) : bool :=
  distinct (map fst (columns d)) &&
  forallb (fun kc => Nat.eqb (column_length (snd kc)) (n_rows d)) (columns d).

Definition has_numeric (d : DataFrame) (key : string) : bool :=
  match Frame.lookup (columns d) key with
  | Some (NumCol v) => Nat.eqb (length v) (n_rows d)
  | _ => false
  end.

Definition required_columns : list string :=
  [Col.distribution_yield; Col.nav_ratio; Col.average_age; Col.buildings;
   Col.ltv; Col.roe; Col.market_cap; Col.asset_size].

Definition entity_table (d : DataFrame) : bool :=
  well_formed d && forallb (has_numeric d) required_columns.

(** The values of a numeric column, for statements. *)
Definition num (d : DataFrame) (key : string) : Series.t :=
  match Frame.getnum d key with
  | Ok v => v
  | Raise _ => []
  end.

(** What the calculators return, as functions of the frame read. *)
Definition normalized (s : Series.t) : Series.t :=
  Series.div_scalar (Series.sub_scalar s (Series.min s)) (Series.max s - Series.min s)%float.

Definition nav_scores (s : Series.t) : Series.t :=
  Series.rsub_scalar 1 (Series.div_scalar (Series.abs (Series.sub_scalar s 1)) (Series.max s)).

Definition lower_better_higher_better (s1 s2 : Series.t) : Series.t :=
  Series.div_scalar (Series.add (Series.rsub_scalar 1 (normalized s1)) (normalized s2)) 2.

Definition both_higher_better (s1 s2 : Series.t) : Series.t :=
  Series.div_scalar (Series.add (normalized s1) (normalized s2)) 2.

Definition weighted_sum (w : ScoringWeights) (s1 s2 s3 s4 s5 : Series.t) : Series.t :=
  Series.add (Series.add (Series.add (Series.add
    (Series.mul_scalar s1 (distribution_yield w)) (Series.mul_scalar s2 (nav_ratio w)))
    (Series.mul_scalar s3 (portfolio_quality w))) (Series.mul_scalar s4 (financial_health w)))
    (Series.mul_scalar s5 (market_position w)).

Definition yield_scores (d : DataFrame) : Series.t :=
  normalized (num d Col.distribution_yield).
Definition nav_ratio_scores (d : DataFrame) : Series.t :=
  nav_scores (num d Col.nav_ratio).
Definition quality_scores (d : DataFrame) : Series.t :=
  lower_better_higher_better (num d Col.average_age) (num d Col.buildings).
Definition health_scores (d : DataFrame) : Series.t :=
  lower_better_higher_better (num d Col.ltv) (num d Col.roe).
Definition position_scores (d : DataFrame) : Series.t :=
  both_higher_better (num d Col.market_cap) (num d Col.asset_size).

Definition composite_scores (w : ScoringWeights) (d : DataFrame) : Series.t :=
  weighted_sum w (yield_scores d) (nav_ratio_scores d) (quality_scores d)
               (health_scores d) (position_scores d).

Definition with_column (d : DataFrame) (key : string) (s : Series.t) : DataFrame :=
  {| index := index d; columns := Frame.assign (columns d) key (NumCol s) |}.

(** The frame [scores] and the frame [result] once every score is attached. *)
Definition scores_frame (w : ScoringWeights) (d : DataFrame) : DataFrame :=
  {| index := index d;
     columns := [(Col.distribution_yield_score, NumCol (yield_scores d));
                 (Col.nav_ratio_score, NumCol (nav_ratio_scores d));
                 (Col.portfolio_quality_score, NumCol (quality_scores d));
                 (Col.financial_health_score, NumCol (health_scores d));
                 (Col.market_position_score, NumCol (position_scores d));
                 (Col.total_score, NumCol (composite_scores w d))] |}.

Definition scored (w : ScoringWeights) (d : DataFrame) : DataFrame :=
  with_column (with_column (with_column (with_column (with_column (with_column d
    Col.total_score (composite_scores w d))
    Col.distribution_yield_score (yield_scores d))
    Col.nav_ratio_score (nav_ratio_scores d))
    Col.portfolio_quality_score (quality_scores d))
    Col.financial_health_score (health_scores d))
    Col.market_position_score (position_scores d).

Section Outcome.
  Context {K : SortKind}.

  (** The input positions of the rows returned, in output order. *)
Definition ranking (w : ScoringWeights) (d : DataFrame) : list nat :=
    Frame.nargsort (composite_scores w d) false.

Definition selection (w : ScoringWeights) (d : DataFrame) (top_n : Z) : list nat :=
    firstn (Frame.slice_stop (n_rows d) top_n) (ranking w d).

Definition sorted_frame (w : ScoringWeights) (d : DataFrame) : DataFrame :=
    Frame.take_rows (scored w d) (ranking w d).
End Outcome.

(** ** Lists, series and frames *)

Lemma take_length {A} (d : A) l indexer : length (Frame.take d l indexer) = length indexer.
Proof. apply length_map. Qed.

Lemma take_seq {A} (d : A) l k :
  k <= length l -> Frame.take d l (seq 0 k) = firstn k l.
Proof.
  revert l. induction k as [|k IH]; intros l Hk; [reflexivity|].
  destruct l as [|x l]; simpl in Hk; [lia|].
  unfold Frame.take in *. simpl. f_equal.
  rewrite <- seq_shift, map_map. apply IH. lia.
Qed.

Lemma take_firstn {A} (d : A) l indexer k :
  firstn k (Frame.take d l indexer) = Frame.take d l (firstn k indexer).
Proof. unfold Frame.take. now rewrite firstn_map. Qed.

Lemma take_take {A} (d : A) l indexer k :
  k <= length indexer ->
  Frame.take d (Frame.take d l indexer) (seq 0 k) = Frame.take d l (firstn k indexer).
Proof.
  intros Hk. rewrite take_seq by (now rewrite take_length). apply take_firstn.
Qed.

Lemma take_column_take c indexer k :
  k <= length indexer ->
  Frame.take_column (Frame.take_column c indexer) (seq 0 k)
  = Frame.take_column c (firstn k indexer).
Proof.
  intros Hk. destruct c; simpl; f_equal; now apply take_take.
Qed.

Lemma take_rows_take_rows d indexer k :
  k <= length indexer ->
  Frame.take_rows (Frame.take_rows d indexer) (seq 0 k)
  = Frame.take_rows d (firstn k indexer).
Proof.
  intros Hk. unfold Frame.take_rows. simpl. f_equal.
  - now apply take_take.
  - rewrite map_map. apply map_ext. intros [key c]. simpl.
    now rewrite take_column_take.
Qed.

Module SeriesFacts.

Lemma add_length s1 s2 : length (Series.add s1 s2) = Nat.min (length s1) (length s2).
  Proof.
    revert s2. induction s1 as [|x s1 IH]; intros [|y s2]; simpl; auto.
  Qed.

Lemma normalized_length s : length (normalized s) = length s.
  Proof. unfold normalized, Series.div_scalar, Series.sub_scalar. now rewrite !length_map. Qed.

Lemma nav_scores_length s : length (nav_scores s) = length s.
  Proof.
    unfold nav_scores, Series.rsub_scalar, Series.div_scalar, Series.abs, Series.sub_scalar.
    now rewrite !length_map.
  Qed.

Lemma lower_higher_length s1 s2 :
    length (lower_better_higher_better s1 s2) = Nat.min (length s1) (length s2).
  Proof.
    unfold lower_better_higher_better, Series.div_scalar, Series.rsub_scalar.
    now rewrite length_map, add_length, length_map, !normalized_length.
  Qed.

Lemma both_higher_length s1 s2 :
    length (both_higher_better s1 s2) = Nat.min (length s1) (length s2).
  Proof.
    unfold both_higher_better, Series.div_scalar.
    now rewrite length_map, add_length, !normalized_length.
  Qed.

Lemma weighted_sum_length w s1 s2 s3 s4 s5 n :
    length s1 = n -> length s2 = n -> length s3 = n -> length s4 = n -> length s5 = n ->
    length (weighted_sum w s1 s2 s3 s4 s5) = n.
  Proof.
    intros. unfold weighted_sum, Series.mul_scalar.
    rewrite !add_length, !length_map. lia.
  Qed.

Lemma nth_add s1 s2 i :
    i < length s1 -> i < length s2 ->
    nth i (Series.add s1 s2) nan = (nth i s1 nan + nth i s2 nan)%float.
  Proof.
    revert s2 i. induction s1 as [|x s1 IH]; intros [|y s2] [|i]; simpl; intros;
      try lia; auto. apply IH; lia.
  Qed.

Lemma nth_map_scalar (f : float -> float) s i :
    i < length s -> nth i (map f s) nan = f (nth i s nan).
  Proof. intros H. rewrite (nth_indep _ nan (f nan)) by now rewrite length_map. apply map_nth. Qed.

End SeriesFacts.

Module FrameFacts.

Lemma lookup_assign cols key c key' :
    Frame.lookup (Frame.assign cols key c) key'
    = if String.eqb key key' then Some c else Frame.lookup cols key'.
  Proof.
    induction cols as [|[k c'] cols IH]; simpl.
    - reflexivity.
    - destruct (String.eqb_spec k key) as [->|Hk]; simpl.
      + destruct (String.eqb key key'); reflexivity.
      + rewrite IH. destruct (String.eqb_spec k key') as [->|Hk'].
        * destruct (String.eqb_spec key key'); [congruence|reflexivity].
        * reflexivity.
  Qed.

Lemma getnum_with_column d key s key' :
    Frame.getnum (with_column d key s) key'
    = if String.eqb key key' then Ok s else Frame.getnum d key'.
  Proof.
    unfold Frame.getnum, Frame.getitem, with_column. simpl.
    rewrite lookup_assign. destruct (String.eqb key key'); reflexivity.
  Qed.

Lemma lookup_take_rows cols indexer key :
    Frame.lookup (map (fun kc => (fst kc, Frame.take_column (snd kc) indexer)) cols) key
    = option_map (fun c => Frame.take_column c indexer) (Frame.lookup cols key).
  Proof.
    induction cols as [|[k c] cols IH]; simpl; [reflexivity|].
    destruct (String.eqb k key); [reflexivity|apply IH].
  Qed.

Lemma num_take_rows d indexer key :
    num (Frame.take_rows d indexer) key = Frame.take nan (num d key) indexer
    \/ (num (Frame.take_rows d indexer) key = [] /\ num d key = []).
  Proof.
    unfold num, Frame.getnum, Frame.getitem, Frame.take_rows. simpl.
    rewrite lookup_take_rows.
    destruct (Frame.lookup (columns d) key) as [[v|v]|]; simpl; auto.
    right. split; [destruct (Frame.take EmptyString v indexer)|destruct v]; reflexivity.
  Qed.

Lemma has_numeric_getnum d key :
    has_numeric d key = true ->
    Frame.getnum d key = Ok (num d key) /\ length (num d key) = n_rows d.
  Proof.
    unfold has_numeric, num, Frame.getnum, Frame.getitem.
    destruct (Frame.lookup (columns d) key) as [[v|v]|]; try discriminate.
    intros H. apply Nat.eqb_eq in H. auto.
  Qed.

Lemma entity_numeric d key :
    entity_table d = true -> In key required_columns ->
    Frame.getnum d key = Ok (num d key) /\ length (num d key) = n_rows d.
  Proof.
    unfold entity_table. intros H Hin. apply andb_true_iff in H as [_ H].
    rewrite forallb_forall in H. apply has_numeric_getnum. auto.
  Qed.

End FrameFacts.

(** ** Running the selector *)

Lemma bind_ok {A B} {m : M A} (k : A -> M B) {st a st'} :
  m st = Ok (a, st') -> bind m k st = k a st'.
Proof. unfold bind. now intros ->. Qed.

Lemma bind_assoc {A B C} (m : M A) (f : A -> M B) (g : B -> M C) st :
  bind (bind m f) g st = bind m (fun x => bind (f x) g) st.
Proof. unfold bind. destruct (m st) as [[a st']|e]; reflexivity. Qed.

Module Run.
Section Run.
  Context {K : SortKind}.
  Variable fs : list DataFrame.
  Variable sf : JREITSelector.

  (** The store once the frames [l] have been allocated after [fs]. *)
Definition ext (l : list DataFrame) : store := {| frames := fs ++ l; self := sf |}.

Lemma nth_error_old l r d : nth_error fs r = Some d -> nth_error (fs ++ l) r = Some d.
  Proof.
    intros H. rewrite nth_error_app1; [assumption|].
    apply nth_error_Some. congruence.
  Qed.

Lemma nth_error_new l k : nth_error (fs ++ l) (length fs + k) = nth_error l k.
  Proof. rewrite nth_error_app2 by lia. f_equal. lia. Qed.

Lemma replace_nth_new l k (x : DataFrame) :
    Store.replace_nth (length fs + k) (fs ++ l) x = fs ++ Store.replace_nth k l x.
  Proof.
    induction fs as [|y fs' IH]; simpl; [reflexivity|]. now rewrite IH.
  Qed.

Lemma deref_at l r d :
    nth_error (fs ++ l) r = Some d -> Store.deref r (ext l) = Ok (d, ext l).
  Proof. unfold Store.deref, ext. simpl. now intros ->. Qed.

Lemma alloc_at l d :
    Store.alloc d (ext l) = Ok (length fs + length l, ext (l ++ [d])).
  Proof. unfold Store.alloc, ext. simpl. now rewrite length_app, app_assoc. Qed.

Lemma getitem_at l r d key v :
    nth_error (fs ++ l) r = Some d -> Frame.getnum d key = Ok v ->
    Store.getitem r key (ext l) = Ok (v, ext l).
  Proof.
    intros Hr Hv. unfold Store.getitem.
    rewrite (bind_ok _ (deref_at _ _ _ Hr)). unfold lift. now rewrite Hv.
  Qed.

Lemma new_frame_at l r d :
    nth_error (fs ++ l) r = Some d ->
    Store.new_frame r (ext l)
    = Ok (length fs + length l, ext (l ++ [{| index := index d; columns := [] |}])).
  Proof.
    intros Hr. unfold Store.new_frame. rewrite (bind_ok _ (deref_at _ _ _ Hr)).
    apply alloc_at.
  Qed.

Lemma copy_at l r d :
    nth_error (fs ++ l) r = Some d ->
    Store.copy r (ext l) = Ok (length fs + length l, ext (l ++ [d])).
  Proof.
    intros Hr. unfold Store.copy. rewrite (bind_ok _ (deref_at _ _ _ Hr)).
    apply alloc_at.
  Qed.

Lemma setitem_at l k d key s :
    nth_error l k = Some d -> length s = n_rows d ->
    Store.setitem (length fs + k) key s (ext l)
    = Ok (tt, ext (Store.replace_nth k l (with_column d key s))).
  Proof.
    intros Hk Hs. unfold Store.setitem.
    rewrite (bind_ok _ (deref_at _ _ _ (eq_trans (nth_error_new l k) Hk))).
    unfold Frame.setitem, lift, bind, Store.update, ext. simpl.
    fold (n_rows d). rewrite Hs, Nat.eqb_refl. simpl.
    now rewrite replace_nth_new.
  Qed.

Lemma column_names_at l r d :
    nth_error (fs ++ l) r = Some d ->
    Store.column_names r (ext l) = Ok (map fst (columns d), ext l).
  Proof.
    intros Hr. unfold Store.column_names. now rewrite (bind_ok _ (deref_at _ _ _ Hr)).
  Qed.

Lemma sort_values_at l r d key v asc :
    nth_error (fs ++ l) r = Some d -> Frame.getnum d key = Ok v ->
    Store.sort_values r key asc (ext l)
    = Ok (length fs + length l, ext (l ++ [Frame.take_rows d (Frame.nargsort v asc)])).
  Proof.
    intros Hr Hv. unfold Store.sort_values. rewrite (bind_ok _ (deref_at _ _ _ Hr)).
    unfold Frame.sort_values. rewrite Hv. unfold lift, bind.
    apply alloc_at.
  Qed.

Lemma head_at l r d n :
    nth_error (fs ++ l) r = Some d ->
    Store.head r n (ext l) = Ok (length fs + length l, ext (l ++ [Frame.head d n])).
  Proof.
    intros Hr. unfold Store.head. rewrite (bind_ok _ (deref_at _ _ _ Hr)).
    apply alloc_at.
  Qed.

Lemma self_weights_at l : Store.self_weights (ext l) = Ok (weights sf, ext l).
  Proof. reflexivity. Qed.

  (** The calculators read the frame and leave the store as it is. *)

Lemma normalize_column_at l r d key asc v :
    nth_error (fs ++ l) r = Some d -> Frame.getnum d key = Ok v ->
    normalize_column r key asc (ext l) = Ok (normalized v, ext l).
  Proof.
    intros Hr Hv. unfold normalize_column.
    rewrite !(bind_ok _ (getitem_at _ _ _ _ _ Hr Hv)). reflexivity.
  Qed.

  Section Calculators.
    Variables (l : list DataFrame) (r : ref) (d : DataFrame).
    Hypothesis Hr : nth_error (fs ++ l) r = Some d.
    Hypothesis Hd : entity_table d = true.

Ltac required := apply FrameFacts.entity_numeric; [exact Hd | simpl; tauto].

Lemma distribution_yield_at :
      calculate_distribution_yield_score r (ext l) = Ok (yield_scores d, ext l).
    Proof.
      unfold calculate_distribution_yield_score.
      apply normalize_column_at with (d := d); [exact Hr | required].
    Qed.

Lemma nav_ratio_at :
      calculate_nav_ratio_score r (ext l) = Ok (nav_ratio_scores d, ext l).
    Proof.
      unfold calculate_nav_ratio_score.
      rewrite (bind_ok _ (getitem_at _ _ _ Col.nav_ratio _ Hr
                 (proj1 (FrameFacts.entity_numeric d Col.nav_ratio Hd ltac:(simpl; tauto))))).
      reflexivity.
    Qed.

Lemma normalize_required key asc :
      In key required_columns ->
      normalize_column r key asc (ext l) = Ok (normalized (num d key), ext l).
    Proof.
      intros Hin. apply normalize_column_at with (d := d); [exact Hr|].
      now apply FrameFacts.entity_numeric.
    Qed.

Lemma portfolio_quality_at :
      calculate_portfolio_quality_score r (ext l) = Ok (quality_scores d, ext l).
    Proof.
      unfold calculate_portfolio_quality_score.
      rewrite (bind_ok _ (normalize_required Col.average_age _ ltac:(simpl; tauto))).
      rewrite (bind_ok _ (normalize_required Col.buildings _ ltac:(simpl; tauto))).
      reflexivity.
    Qed.

Lemma financial_health_at :
      calculate_financial_health_score r (ext l) = Ok (health_scores d, ext l).
    Proof.
      unfold calculate_financial_health_score.
      rewrite (bind_ok _ (normalize_required Col.ltv _ ltac:(simpl; tauto))).
      rewrite (bind_ok _ (normalize_required Col.roe _ ltac:(simpl; tauto))).
      reflexivity.
    Qed.

Lemma market_position_at :
      calculate_market_position_score r (ext l) = Ok (position_scores d, ext l).
    Proof.
      unfold calculate_market_position_score.
      rewrite (bind_ok _ (normalize_required Col.market_cap _ ltac:(simpl; tauto))).
      rewrite (bind_ok _ (normalize_required Col.asset_size _ ltac:(simpl; tauto))).
      reflexivity.
    Qed.
  End Calculators.

  (** Lengths of the scores of an entity table. *)
  Section Lengths.
    Variable d : DataFrame.
    Hypothesis Hd : entity_table d = true.

Lemma required_length key : In key required_columns -> length (num d key) = n_rows d.
    Proof. intros H. now apply FrameFacts.entity_numeric. Qed.

Ltac len := rewrite ?SeriesFacts.normalized_length, ?SeriesFacts.nav_scores_length,
        ?SeriesFacts.lower_higher_length, ?SeriesFacts.both_higher_length,
        ?required_length by (simpl; tauto); try apply Nat.min_id; try reflexivity.

Lemma yield_scores_length : length (yield_scores d) = n_rows d.
    Proof. unfold yield_scores. len. Qed.
Lemma nav_ratio_scores_length : length (nav_ratio_scores d) = n_rows d.
    Proof. unfold nav_ratio_scores. len. Qed.
Lemma quality_scores_length : length (quality_scores d) = n_rows d.
    Proof. unfold quality_scores. len. Qed.
Lemma health_scores_length : length (health_scores d) = n_rows d.
    Proof. unfold health_scores. len. Qed.
Lemma position_scores_length : length (position_scores d) = n_rows d.
    Proof. unfold position_scores. len. Qed.
Lemma composite_scores_length w : length (composite_scores w d) = n_rows d.
    Proof.
      apply SeriesFacts.weighted_sum_length;
        auto using yield_scores_length, nav_ratio_scores_length, quality_scores_length,
          health_scores_length, position_scores_length.
    Qed.
  End Lengths.

  Tactic Notation "step" uconstr(H) :=
    rewrite (bind_ok _ H); cbn [length app Store.replace_nth Nat.add].

Theorem select_stocks_at r d top_n :
    nth_error fs r = Some d -> entity_table d = true ->
    select_stocks r top_n {| frames := fs; self := sf |}
    = Ok (length fs + 3,
          ext [scores_frame (weights sf) d; scored (weights sf) d;
               sorted_frame (weights sf) d;
               Frame.head (sorted_frame (weights sf) d) top_n]).
  Proof.
    intros Hr Hd.
    assert (E : {| frames := fs; self := sf |} = ext []) by (unfold ext; now rewrite app_nil_r).
    rewrite E. clear E.
    pose proof (yield_scores_length d Hd) as L1.
    pose proof (nav_ratio_scores_length d Hd) as L2.
    pose proof (quality_scores_length d Hd) as L3.
    pose proof (health_scores_length d Hd) as L4.
    pose proof (position_scores_length d Hd) as L5.
    pose proof (composite_scores_length d Hd (weights sf)) as L6.
    unfold select_stocks.
    set (w := weights sf) in *.
    set (e0 := {| index := index d; columns := [] |}).
    set (e1 := with_column e0 Col.distribution_yield_score (yield_scores d)).
    set (e2 := with_column e1 Col.nav_ratio_score (nav_ratio_scores d)).
    set (e3 := with_column e2 Col.portfolio_quality_score (quality_scores d)).
    set (e4 := with_column e3 Col.financial_health_score (health_scores d)).
    set (e5 := with_column e4 Col.market_position_score (position_scores d)).
    step (new_frame_at [] r d (nth_error_old [] r d Hr)). fold e0.
    step (distribution_yield_at [e0] r d (nth_error_old _ r d Hr) Hd).
    step (setitem_at [e0] 0 e0 Col.distribution_yield_score _ eq_refl L1). fold e1.
    step (nav_ratio_at [e1] r d (nth_error_old _ r d Hr) Hd).
    step (setitem_at [e1] 0 e1 Col.nav_ratio_score _ eq_refl L2). fold e2.
    step (portfolio_quality_at [e2] r d (nth_error_old _ r d Hr) Hd).
    step (setitem_at [e2] 0 e2 Col.portfolio_quality_score _ eq_refl L3). fold e3.
    step (financial_health_at [e3] r d (nth_error_old _ r d Hr) Hd).
    step (setitem_at [e3] 0 e3 Col.financial_health_score _ eq_refl L4). fold e4.
    step (market_position_at [e4] r d (nth_error_old _ r d Hr) Hd).
    step (setitem_at [e4] 0 e4 Col.market_position_score _ eq_refl L5). fold e5.
    step (getitem_at [e5] (length fs + 0) e5 Col.distribution_yield_score (yield_scores d)
            (nth_error_new [e5] 0) eq_refl).
    step (self_weights_at [e5]).
    step (getitem_at [e5] (length fs + 0) e5 Col.nav_ratio_score (nav_ratio_scores d)
            (nth_error_new [e5] 0) eq_refl).
    step (self_weights_at [e5]).
    step (getitem_at [e5] (length fs + 0) e5 Col.portfolio_quality_score (quality_scores d)
            (nth_error_new [e5] 0) eq_refl).
    step (self_weights_at [e5]).
    step (getitem_at [e5] (length fs + 0) e5 Col.financial_health_score (health_scores d)
            (nth_error_new [e5] 0) eq_refl).
    step (self_weights_at [e5]).
    step (getitem_at [e5] (length fs + 0) e5 Col.market_position_score (position_scores d)
            (nth_error_new [e5] 0) eq_refl).
    step (self_weights_at [e5]).
    fold w.
    fold (weighted_sum w (yield_scores d) (nav_ratio_scores d) (quality_scores d)
            (health_scores d) (position_scores d)).
    fold (composite_scores w d).
    step (setitem_at [e5] 0 e5 Col.total_score _ eq_refl L6).
    change (with_column e5 Col.total_score (composite_scores w d)) with (scores_frame w d).
    set (sc := scores_frame w d).
    step (copy_at [sc] r d (nth_error_old _ r d Hr)).
    step (getitem_at [sc; d] (length fs + 0) sc Col.total_score (composite_scores w d)
            (nth_error_new [sc; d] 0) eq_refl).
    step (setitem_at [sc; d] 1 d Col.total_score _ eq_refl L6).
    step (column_names_at [sc; _] (length fs + 0) sc (nth_error_new [sc; _] 0)).
    unfold sc at 1. unfold scores_frame at 1. cbn [map fst columns for_each].
    set (r0 := with_column d Col.total_score (composite_scores w d)).
    set (r1 := with_column r0 Col.distribution_yield_score (yield_scores d)).
    set (r2 := with_column r1 Col.nav_ratio_score (nav_ratio_scores d)).
    set (r3 := with_column r2 Col.portfolio_quality_score (quality_scores d)).
    set (r4 := with_column r3 Col.financial_health_score (health_scores d)).
    match goal with
    | |- bind ?loop _ _ = _ =>
        assert (Hloop : loop (ext [sc; r0]) = Ok (tt, ext [sc; scored w d]))
    end.
    { change (String.eqb Col.distribution_yield_score Col.total_score) with false.
      change (String.eqb Col.nav_ratio_score Col.total_score) with false.
      change (String.eqb Col.portfolio_quality_score Col.total_score) with false.
      change (String.eqb Col.financial_health_score Col.total_score) with false.
      change (String.eqb Col.market_position_score Col.total_score) with false.
      change (String.eqb Col.total_score Col.total_score) with true.
      cbn [negb].
      rewrite bind_assoc.
      step (getitem_at [sc; r0] (length fs + 0) sc Col.distribution_yield_score _
              (nth_error_new _ 0) eq_refl).
      step (setitem_at [sc; r0] 1 r0 Col.distribution_yield_score _ eq_refl L1). fold r1.
      rewrite bind_assoc.
      step (getitem_at [sc; r1] (length fs + 0) sc Col.nav_ratio_score _
              (nth_error_new _ 0) eq_refl).
      step (setitem_at [sc; r1] 1 r1 Col.nav_ratio_score _ eq_refl L2). fold r2.
      rewrite bind_assoc.
      step (getitem_at [sc; r2] (length fs + 0) sc Col.portfolio_quality_score _
              (nth_error_new _ 0) eq_refl).
      step (setitem_at [sc; r2] 1 r2 Col.portfolio_quality_score _ eq_refl L3). fold r3.
      rewrite bind_assoc.
      step (getitem_at [sc; r3] (length fs + 0) sc Col.financial_health_score _
              (nth_error_new _ 0) eq_refl).
      step (setitem_at [sc; r3] 1 r3 Col.financial_health_score _ eq_refl L4). fold r4.
      rewrite bind_assoc.
      step (getitem_at [sc; r4] (length fs + 0) sc Col.market_position_score _
              (nth_error_new _ 0) eq_refl).
      step (setitem_at [sc; r4] 1 r4 Col.market_position_score _ eq_refl L5).
      reflexivity. }
    step Hloop.
    assert (Hget : Frame.getnum (scored w d) Col.total_score = Ok (composite_scores w d)).
    { unfold scored. rewrite !FrameFacts.getnum_with_column. reflexivity. }
    step (sort_values_at [sc; scored w d] (length fs + 1) (scored w d) Col.total_score _ false
            (nth_error_new _ 1) Hget).
    fold (ranking w d). fold (sorted_frame w d).
    apply (head_at [sc; scored w d; sorted_frame w d] (length fs + 2) _ top_n
             (nth_error_new _ 2)).
  Qed.

End Run.
End Run.

(** ** Ordered pairs of a list *)

Section Pairs.
Context {A : Type}.

Lemma pairs_app (R : A -> A -> Prop) l1 l2 :
  ForallOrdPairs R l1 -> ForallOrdPairs R l2 ->
  (forall x y, In x l1 -> In y l2 -> R x y) ->
  ForallOrdPairs R (l1 ++ l2).
Proof.
  induction l1 as [|a l1 IH]; intros H1 H2 H; simpl; [assumption|].
  inversion H1 as [|? ? Ha H1']; subst. constructor.
  - apply Forall_app. split; [assumption|].
    apply Forall_forall. intros y Hy. apply H; simpl; auto.
  - apply IH; auto. intros x y Hx Hy. apply H; simpl; auto.
Qed.

Lemma pairs_rev (R : A -> A -> Prop) l :
  ForallOrdPairs R l -> ForallOrdPairs (fun x y => R y x) (rev l).
Proof.
  induction 1 as [|a l Ha Hl IH]; simpl; [constructor|].
  apply pairs_app; [assumption|repeat constructor|].
  intros x y Hx [<-|[]]. apply in_rev in Hx.
  rewrite Forall_forall in Ha. auto.
Qed.

Lemma pairs_impl_in (R R' : A -> A -> Prop) l :
  (forall x y, In x l -> In y l -> R x y -> R' x y) ->
  ForallOrdPairs R l -> ForallOrdPairs R' l.
Proof.
  intros H Hl. induction Hl as [|a l Ha Hl IH]; constructor.
  - apply Forall_forall. intros y Hy. rewrite Forall_forall in Ha.
    apply H; simpl; auto.
  - apply IH. intros x y Hx Hy. apply H; simpl; auto.
Qed.

Lemma pairs_firstn (R : A -> A -> Prop) k l :
  ForallOrdPairs R l -> ForallOrdPairs R (firstn k l).
Proof.
  intros Hl. revert k. induction Hl as [|a l Ha Hl IH]; intros [|k]; simpl;
    try constructor; auto.
  apply Forall_forall. intros y Hy. rewrite Forall_forall in Ha.
  apply Ha. revert Hy. clear. revert k. induction l as [|b l IH]; intros [|k]; simpl; try tauto.
  intros [->|H]; eauto.
Qed.

Lemma pairs_nth (R : A -> A -> Prop) d l :
  ForallOrdPairs R l ->
  forall i j, i < j -> j < length l -> R (nth i l d) (nth j l d).
Proof.
  induction 1 as [|a l Ha Hl IH]; intros i j Hij Hj; simpl in *; [lia|].
  destruct j as [|j]; [lia|]. destruct i as [|i].
  - rewrite Forall_forall in Ha. apply Ha, nth_In. lia.
  - apply IH; lia.
Qed.

Lemma pairs_of_sorted (R : A -> A -> Prop) l :
  (forall x y z, R x y -> R y z -> R x z) ->
  Sorted R l -> ForallOrdPairs R l.
Proof.
  intros Htrans Hs. apply Sorted_StronglySorted in Hs; [|exact Htrans].
  induction Hs; constructor; assumption.
Qed.
End Pairs.

Lemma pairs_map {A B} (R : B -> B -> Prop) (f : A -> B) l :
  ForallOrdPairs (fun x y => R (f x) (f y)) l -> ForallOrdPairs R (map f l).
Proof.
  induction 1 as [|a l Ha Hl IH]; simpl; constructor; [|assumption].
  apply Forall_map. assumption.
Qed.



(** ** [nargsort], descending *)

Definition non_nan_positions (items : list float) : list nat :=
  filter (fun i => negb (is_nan (nth i items nan))) (seq 0 (length items)).

Definition nan_positions (items : list float) : list nat :=
  filter (fun i => is_nan (nth i items nan)) (seq 0 (length items)).

Lemma select_map {A} (p : A -> bool) l : Frame.select (map p l) l = filter p l.
Proof.
  unfold Frame.select. induction l as [|x l IH]; simpl; [reflexivity|].
  destruct (p x); simpl; now rewrite IH.
Qed.

Lemma select_map_seq (p : float -> bool) items s :
  Frame.select (map p items) (seq s (length items))
  = filter (fun i => p (nth (i - s) items nan)) (seq s (length items)).
Proof.
  unfold Frame.select. revert s. induction items as [|x l IH]; intros s; [reflexivity|].
  cbn [length seq map combine filter fst].
  rewrite Nat.sub_diag. cbn [nth].
  assert (E : filter (fun i => p (nth (i - s) (x :: l) nan)) (seq (S s) (length l))
            = filter (fun i => p (nth (i - S s) l nan)) (seq (S s) (length l))).
  { apply filter_ext_in. intros i Hi. apply in_seq in Hi.
    replace (i - s) with (S (i - S s)) by lia. reflexivity. }
  cbn [nth] in E. rewrite E, <- IH. destruct (p x); reflexivity.
Qed.

Lemma nargsort_descending {K : SortKind} items :
  Frame.nargsort items false
  = rev (Frame.take 0 (rev (non_nan_positions items)) (argsort (rev (Series.dropna items))))
    ++ nan_positions items.
Proof.
  unfold Frame.nargsort, non_nan_positions, nan_positions, Series.dropna. cbv zeta.
  rewrite map_map, select_map, !select_map_seq.
  f_equal; [do 3 f_equal|]; apply filter_ext; intros i; now rewrite Nat.sub_0_r.
Qed.

Lemma map_nth_filter_seq (p : float -> bool) items s :
  map (fun i => nth (i - s) items nan)
      (filter (fun i => p (nth (i - s) items nan)) (seq s (length items)))
  = filter p items.
Proof.
  rewrite <- select_map_seq. revert s.
  induction items as [|x l IH]; intros s; [reflexivity|].
  unfold Frame.select in *. simpl. specialize (IH (S s)).
  destruct (p x); simpl; rewrite ?Nat.sub_diag; [f_equal|];
    rewrite <- IH; apply map_ext_in; intros i Hi;
    apply in_map_iff in Hi as [[b j] [<- Hj]]; apply filter_In in Hj as [Hj _];
    apply in_combine_r in Hj; apply in_seq in Hj; simpl;
    replace (j - s) with (S (j - S s)) by lia; reflexivity.
Qed.

Lemma values_at_non_nan_positions items :
  map (fun i => nth i items nan) (non_nan_positions items) = Series.dropna items.
Proof.
  unfold non_nan_positions, Series.dropna.
  rewrite <- (map_nth_filter_seq (fun x => negb (is_nan x)) items 0).
  rewrite (filter_ext (fun i => negb (is_nan (nth (i - 0) items nan)))
                      (fun i => negb (is_nan (nth i items nan))))
    by (intros i; now rewrite Nat.sub_0_r).
  apply map_ext. intros i. now rewrite Nat.sub_0_r.
Qed.

Lemma dropna_no_nan items : no_nan (Series.dropna items) = true.
Proof.
  unfold no_nan, Series.dropna. apply forallb_forall. intros x Hx.
  now apply filter_In in Hx as [_ Hx].
Qed.

Lemma positions_perm items :
  Permutation (non_nan_positions items ++ nan_positions items) (seq 0 (length items)).
Proof.
  unfold non_nan_positions, nan_positions.
  induction (seq 0 (length items)) as [|i l IH]; simpl; [reflexivity|].
  destruct (is_nan (nth i items nan)); simpl.
  - rewrite <- Permutation_middle. now constructor.
  - now constructor.
Qed.

Section Ranking.
Context {K : SortKind}.
Variable items : list float.

Let vs := rev (Series.dropna items).
Let ps := rev (non_nan_positions items).
Let ascending_positions := Frame.take 0 ps (argsort vs).

Lemma ps_length : length ps = length vs.
Proof.
  unfold ps, vs. rewrite !length_rev, <- values_at_non_nan_positions. now rewrite length_map.
Qed.

Lemma value_at_ps k : k < length vs -> nth (nth k ps 0) items nan = nth k vs nan.
Proof.
  intros Hk. unfold vs. rewrite <- values_at_non_nan_positions, <- map_rev. fold ps.
  rewrite (nth_indep (map (fun i => nth i items nan) ps) nan (nth 0 items nan))
    by (rewrite length_map, ps_length; exact Hk).
  now rewrite (map_nth (fun i => nth i items nan)).
Qed.

Lemma argsort_in k : In k (argsort vs) -> k < length vs.
Proof.
  intros H. apply (Permutation_in _ (argsort_perm vs)) in H. apply in_seq in H. lia.
Qed.

Lemma ascending_positions_perm : Permutation ascending_positions (non_nan_positions items).
Proof.
  unfold ascending_positions, Frame.take.
  rewrite (Permutation_map _ (argsort_perm vs)).
  rewrite <- ps_length. fold (Frame.take 0 ps (seq 0 (length ps))).
  rewrite take_seq by lia. rewrite firstn_all. unfold ps. symmetry. apply Permutation_rev.
Qed.

Lemma nargsort_perm : Permutation (Frame.nargsort items false) (seq 0 (length items)).
Proof.
  rewrite nargsort_descending. fold vs ps ascending_positions.
  rewrite <- Permutation_rev, ascending_positions_perm. apply positions_perm.
Qed.

Lemma nargsort_length : length (Frame.nargsort items false) = length items.
Proof. rewrite (Permutation_length nargsort_perm). apply length_seq. Qed.

Lemma nargsort_in p : In p (Frame.nargsort items false) -> p < length items.
Proof.
  intros H. apply (Permutation_in _ nargsort_perm) in H. apply in_seq in H. lia.
Qed.

Lemma nargsort_nodup : NoDup (Frame.nargsort items false).
Proof.
  apply (Permutation_NoDup (Permutation_sym nargsort_perm)). apply seq_NoDup.
Qed.

Lemma vs_no_nan : no_nan vs = true.
Proof.
  unfold no_nan, vs. apply forallb_forall. intros x Hx. apply in_rev in Hx.
  pose proof (dropna_no_nan items) as H. unfold no_nan in H.
  rewrite forallb_forall in H. auto.
Qed.

Lemma nan_positions_nan p : In p (nan_positions items) -> is_nan (nth p items nan) = true.
Proof. unfold nan_positions. intros H. now apply filter_In in H. Qed.

Lemma ascending_positions_ascend : ForallOrdPairs (value_le items) ascending_positions.
Proof.
  unfold ascending_positions, Frame.take. apply pairs_map.
  apply pairs_impl_in with (R := value_le vs).
  - intros x y Hx Hy. unfold value_le.
    now rewrite !value_at_ps by (now apply argsort_in).
  - apply pairs_of_sorted; [|apply argsort_sorted, vs_no_nan].
    unfold value_le. intros x y z. apply F64.leb_trans.
Qed.


End Ranking.

(** [y] may come right after [x] in a descending ranking that puts missing
    values last. *)
Definition may_follow (x y : float) : Prop :=
  (is_nan x = true -> is_nan y = true) /\
  (is_nan y = false -> PrimFloat.leb y x = true).

Lemma nargsort_descends {K : SortKind} items :
  ForallOrdPairs (fun p q => may_follow (nth p items nan) (nth q items nan))
                 (Frame.nargsort items false).
Proof.
  rewrite nargsort_descending. apply pairs_app.
  - apply pairs_impl_in with (R := fun p q => value_le items q p).
    + intros p q _ _ H. unfold value_le in H. destruct (F64.leb_not_nan _ _ H) as [Hq Hp].
      split; intros; congruence.
    + apply pairs_rev, ascending_positions_ascend.
  - apply pairs_impl_in with (R := fun _ _ => True).
    + intros p q _ Hq _. apply nan_positions_nan in Hq. split; intros; congruence.
    + induction (nan_positions items); constructor; auto.
      apply Forall_forall. auto.
  - intros p q _ Hq. apply nan_positions_nan in Hq. split; intros; congruence.
Qed.


(** ** Degenerate normalization: [0/0] *)

Definition zero_or_nan (x : spec_float) : Prop :=
  x = S754_nan \/ exists s, x = S754_zero s.

Lemma SFcompare_finite_eq s1 m1 e1 s2 m2 e2 :
  SFcompare (S754_finite s1 m1 e1) (S754_finite s2 m2 e2) = Some Eq ->
  s1 = s2 /\ m1 = m2 /\ e1 = e2.
Proof.
  simpl. change (Pos.compare_cont Eq m1 m2) with (Pos.compare m1 m2).
  destruct s1, s2; try discriminate;
    destruct (Z.compare_spec e1 e2); try discriminate;
    destruct (Pos.compare_spec m1 m2); try discriminate; auto.
Qed.

Lemma SFsub_equal x y :
  SFcompare x y = Some Eq -> zero_or_nan (SF64sub x y).
Proof.
  unfold zero_or_nan, SF64sub. intros H.
  destruct x as [sx|sx| |sx mx ex], y as [sy|sy| |sy my ey];
    try discriminate H;
    try (simpl in H;
         match type of H with Some (if ?b then _ else _) = _ => destruct b; discriminate H end).
  - destruct sx, sy; simpl; eauto.
  - destruct sx, sy; simpl in *; try discriminate H; eauto.
  - apply SFcompare_finite_eq in H as (-> & -> & ->).
    right. exists false. unfold SFsub. cbv zeta. now rewrite Z.sub_diag.
Qed.

Lemma SFdiv_zero_or_nan x y : zero_or_nan x -> zero_or_nan y -> SF64div x y = S754_nan.
Proof.
  intros [->|[sx ->]] [->|[sy ->]]; reflexivity.
Qed.

Lemma SFdiv_nan_l y : SF64div S754_nan y = S754_nan.
Proof. reflexivity. Qed.

Lemma SFsub_nan_l y : SF64sub S754_nan y = S754_nan.
Proof. reflexivity. Qed.

Lemma eqb_compare x y : (x =? y)%float = true -> SFcompare (Prim2SF x) (Prim2SF y) = Some Eq.
Proof.
  rewrite eqb_spec. unfold SFeqb. destruct (SFcompare _ _) as [[]|]; congruence.
Qed.

(** A value equal to the minimum, over a range of width zero. *)
Lemma degenerate_quotient_nan x lo hi :
  (hi =? lo)%float = true -> (x =? lo)%float = true ->
  is_nan ((x - lo) / (hi - lo)) = true.
Proof.
  intros Hhl Hxl. apply F64.is_nan_spec.
  rewrite div_spec, !sub_spec.
  apply SFdiv_zero_or_nan; apply SFsub_equal; now apply eqb_compare.
Qed.

(** A missing value stays missing. *)
Lemma nan_quotient_nan x lo d : is_nan x = true -> is_nan ((x - lo) / d) = true.
Proof.
  intros Hx. apply F64.is_nan_spec in Hx. apply F64.is_nan_spec.
  now rewrite div_spec, sub_spec, Hx.
Qed.

(** ** Minimum and maximum of a series *)

Section MinMax.

Definition present (x : float) : Prop := is_nan x = false.

Lemma fmin_cases a b : Series.fmin a b = a \/ Series.fmin a b = b.
Proof. unfold Series.fmin. destruct (a <? b)%float; auto. Qed.

Lemma fmax_cases a b : Series.fmax a b = a \/ Series.fmax a b = b.
Proof. unfold Series.fmax. destruct (b <? a)%float; auto. Qed.

Lemma fmin_le a b :
  present a -> present b ->
  (Series.fmin a b <=? a)%float = true /\ (Series.fmin a b <=? b)%float = true.
Proof.
  unfold Series.fmin, present. intros Ha Hb. destruct (a <? b)%float eqn:E.
  - split; [now apply F64.leb_refl|now apply F64.ltb_leb].
  - split; [now apply F64.ltb_false_leb|now apply F64.leb_refl].
Qed.

Lemma fmax_ge a b :
  present a -> present b ->
  (a <=? Series.fmax a b)%float = true /\ (b <=? Series.fmax a b)%float = true.
Proof.
  unfold Series.fmax, present. intros Ha Hb. destruct (b <? a)%float eqn:E.
  - split; [now apply F64.leb_refl|now apply F64.ltb_leb].
  - split; [now apply F64.ltb_false_leb|now apply F64.leb_refl].
Qed.

Lemma fold_fmin_in xs a : In (fold_left Series.fmin xs a) (a :: xs).
Proof.
  revert a. induction xs as [|x xs IH]; intros a; simpl; [auto|].
  destruct (IH (Series.fmin a x)) as [H|H]; [|simpl; tauto].
  destruct (fmin_cases a x) as [E|E]; rewrite E in *; simpl; tauto.
Qed.

Lemma fold_fmax_in xs a : In (fold_left Series.fmax xs a) (a :: xs).
Proof.
  revert a. induction xs as [|x xs IH]; intros a; simpl; [auto|].
  destruct (IH (Series.fmax a x)) as [H|H]; [|simpl; tauto].
  destruct (fmax_cases a x) as [E|E]; rewrite E in *; simpl; tauto.
Qed.

Lemma fold_fmin_le xs a :
  Forall present (a :: xs) ->
  Forall (fun y => (fold_left Series.fmin xs a <=? y)%float = true) (a :: xs).
Proof.
  revert a. induction xs as [|x xs IH]; intros a H; simpl.
  - inversion H; subst. repeat constructor. now apply F64.leb_refl.
  - inversion H as [|? ? Ha H']; subst. inversion H' as [|? ? Hx Hxs]; subst.
    destruct (fmin_le a x Ha Hx) as [L1 L2].
    assert (Hm : present (Series.fmin a x))
      by (destruct (fmin_cases a x) as [-> | ->]; assumption).
    specialize (IH (Series.fmin a x) (Forall_cons _ Hm Hxs)).
    inversion IH as [|? ? Hhd Htl]; subst.
    constructor; [eapply F64.leb_trans; eassumption|].
    constructor; [eapply F64.leb_trans; eassumption|assumption].
Qed.

Lemma fold_fmax_ge xs a :
  Forall present (a :: xs) ->
  Forall (fun y => (y <=? fold_left Series.fmax xs a)%float = true) (a :: xs).
Proof.
  revert a. induction xs as [|x xs IH]; intros a H; simpl.
  - inversion H; subst. repeat constructor. now apply F64.leb_refl.
  - inversion H as [|? ? Ha H']; subst. inversion H' as [|? ? Hx Hxs]; subst.
    destruct (fmax_ge a x Ha Hx) as [L1 L2].
    assert (Hm : present (Series.fmax a x))
      by (destruct (fmax_cases a x) as [-> | ->]; assumption).
    specialize (IH (Series.fmax a x) (Forall_cons _ Hm Hxs)).
    inversion IH as [|? ? Hhd Htl]; subst.
    constructor; [eapply F64.leb_trans; eassumption|].
    constructor; [eapply F64.leb_trans; eassumption|assumption].
Qed.

Lemma dropna_present s : Forall present (Series.dropna s).
Proof.
  apply Forall_forall. intros x Hx. apply filter_In in Hx as [_ Hx].
  now apply negb_true_iff in Hx.
Qed.

Lemma in_dropna s x : In x s -> present x -> In x (Series.dropna s).
Proof.
  intros Hin Hx. apply filter_In. split; [assumption|]. unfold present in Hx. now rewrite Hx.
Qed.

(** Every value that is present lies between the minimum and the maximum. *)
Lemma min_le s x : In x s -> present x -> (Series.min s <=? x)%float = true.
Proof.
  intros Hin Hx. pose proof (in_dropna s x Hin Hx) as Hd.
  pose proof (dropna_present s) as Hp. unfold Series.min.
  destruct (Series.dropna s) as [|a xs]; [destruct Hd|].
  pose proof (fold_fmin_le xs a Hp) as H. rewrite Forall_forall in H. auto.
Qed.

Lemma le_max s x : In x s -> present x -> (x <=? Series.max s)%float = true.
Proof.
  intros Hin Hx. pose proof (in_dropna s x Hin Hx) as Hd.
  pose proof (dropna_present s) as Hp. unfold Series.max.
  destruct (Series.dropna s) as [|a xs]; [destruct Hd|].
  pose proof (fold_fmax_ge xs a Hp) as H. rewrite Forall_forall in H. auto.
Qed.

Lemma min_in s x : In x s -> present x -> In (Series.min s) s /\ present (Series.min s).
Proof.
  intros Hin Hx. pose proof (in_dropna s x Hin Hx) as Hd.
  pose proof (dropna_present s) as Hp. unfold Series.min.
  destruct (Series.dropna s) as [|a xs] eqn:E; [destruct Hd|].
  pose proof (fold_fmin_in xs a) as H. rewrite <- E in H.
  split; [now apply filter_In in H|].
  rewrite <- E in Hp. rewrite Forall_forall in Hp. auto.
Qed.

Lemma max_in s x : In x s -> present x -> In (Series.max s) s /\ present (Series.max s).
Proof.
  intros Hin Hx. pose proof (in_dropna s x Hin Hx) as Hd.
  pose proof (dropna_present s) as Hp. unfold Series.max.
  destruct (Series.dropna s) as [|a xs] eqn:E; [destruct Hd|].
  pose proof (fold_fmax_in xs a) as H. rewrite <- E in H.
  split; [now apply filter_In in H|].
  rewrite <- E in Hp. rewrite Forall_forall in Hp. auto.
Qed.

End MinMax.

Lemma degenerate_normalized s :
  (Series.max s =? Series.min s)%float = true ->
  Forall (fun y => is_nan y = true) (normalized s).
Proof.
  intros Hd. unfold normalized, Series.div_scalar, Series.sub_scalar.
  rewrite map_map. apply Forall_map, Forall_forall. intros x Hx.
  destruct (is_nan x) eqn:E; [now apply nan_quotient_nan|].
  apply degenerate_quotient_nan; [assumption|].
  apply F64.leb_antisym; [|now apply min_le].
  apply F64.leb_trans with (y := Series.max s); [now apply le_max|now apply F64.eqb_leb].
Qed.

(** ** What [select_stocks] returns *)

Lemma in_firstn {A} k (l : list A) x : In x (firstn k l) -> In x l.
Proof. intros H. rewrite <- (firstn_skipn k l). apply in_or_app. now left. Qed.

Lemma slice_stop_le len n : Frame.slice_stop len n <= len.
Proof. unfold Frame.slice_stop. destruct (0 <=? n)%Z eqn:E; lia. Qed.

Lemma nth_take i v sel : i < length sel -> nth i (Frame.take nan v sel) nan = nth (nth i sel 0) v nan.
Proof.
  intros Hi. unfold Frame.take.
  rewrite (nth_indep _ nan (nth 0 v nan)) by (now rewrite length_map).
  now rewrite (map_nth (fun k => nth k v nan)).
Qed.

Lemma getnum_take_rows_ok d sel key v :
  Frame.lookup (columns d) key = Some (NumCol v) ->
  Frame.getnum (Frame.take_rows d sel) key = Ok (Frame.take nan v sel).
Proof.
  intros H. unfold Frame.getnum, Frame.getitem, Frame.take_rows. simpl.
  now rewrite FrameFacts.lookup_take_rows, H.
Qed.

Lemma num_take_rows_ok d sel key v :
  Frame.lookup (columns d) key = Some (NumCol v) ->
  num (Frame.take_rows d sel) key = Frame.take nan v sel.
Proof. intros H. unfold num. now rewrite (getnum_take_rows_ok d sel key v H). Qed.

Section Scored.
Variables (w : ScoringWeights) (d : DataFrame).

Ltac column :=
  unfold scored, with_column; cbn [columns]; rewrite !FrameFacts.lookup_assign; reflexivity.

Lemma scored_total :
  Frame.lookup (columns (scored w d)) Col.total_score = Some (NumCol (composite_scores w d)).
Proof. column. Qed.
Lemma scored_yield :
  Frame.lookup (columns (scored w d)) Col.distribution_yield_score
  = Some (NumCol (yield_scores d)).
Proof. column. Qed.
Lemma scored_nav :
  Frame.lookup (columns (scored w d)) Col.nav_ratio_score = Some (NumCol (nav_ratio_scores d)).
Proof. column. Qed.
Lemma scored_quality :
  Frame.lookup (columns (scored w d)) Col.portfolio_quality_score
  = Some (NumCol (quality_scores d)).
Proof. column. Qed.
Lemma scored_health :
  Frame.lookup (columns (scored w d)) Col.financial_health_score
  = Some (NumCol (health_scores d)).
Proof. column. Qed.
Lemma scored_position :
  Frame.lookup (columns (scored w d)) Col.market_position_score
  = Some (NumCol (position_scores d)).
Proof. column. Qed.

Lemma scored_rows : n_rows (scored w d) = n_rows d.
Proof. reflexivity. Qed.

Hypothesis Hd : entity_table d = true.

Lemma composite_at p :
  p < n_rows d ->
  nth p (composite_scores w d) nan
  = (nth p (yield_scores d) nan * distribution_yield w
     + nth p (nav_ratio_scores d) nan * nav_ratio w
     + nth p (quality_scores d) nan * portfolio_quality w
     + nth p (health_scores d) nan * financial_health w
     + nth p (position_scores d) nan * market_position w)%float.
Proof.
  intros Hp.
  pose proof (Run.yield_scores_length d Hd) as L1.
  pose proof (Run.nav_ratio_scores_length d Hd) as L2.
  pose proof (Run.quality_scores_length d Hd) as L3.
  pose proof (Run.health_scores_length d Hd) as L4.
  pose proof (Run.position_scores_length d Hd) as L5.
  unfold composite_scores, weighted_sum, Series.mul_scalar.
  rewrite !SeriesFacts.nth_add, !SeriesFacts.nth_map_scalar
    by (rewrite ?SeriesFacts.add_length, ?length_map; lia).
  reflexivity.
Qed.
End Scored.

Section Returns.
Context {K : SortKind}.
Variables (w : ScoringWeights) (d : DataFrame).
Hypothesis Hd : entity_table d = true.

Lemma ranking_length : length (ranking w d) = n_rows d.
Proof.
  unfold ranking. rewrite nargsort_length. now apply Run.composite_scores_length.
Qed.

Lemma selection_length n : length (selection w d n) = Frame.slice_stop (n_rows d) n.
Proof.
  unfold selection. rewrite length_firstn, ranking_length.
  pose proof (slice_stop_le (n_rows d) n). lia.
Qed.

Lemma selection_in n p : In p (selection w d n) -> p < n_rows d.
Proof.
  unfold selection, ranking. intros H. apply in_firstn in H.
  rewrite <- (Run.composite_scores_length d Hd w). now apply nargsort_in in H.
Qed.

Lemma selection_nth_lt n i : i < length (selection w d n) -> nth i (selection w d n) 0 < n_rows d.
Proof. intros Hi. apply (selection_in n), nth_In, Hi. Qed.

Lemma head_sorted_frame n :
  Frame.head (sorted_frame w d) n = Frame.take_rows (scored w d) (selection w d n).
Proof.
  unfold Frame.head, sorted_frame, selection.
  replace (length (index (Frame.take_rows (scored w d) (ranking w d)))) with (n_rows d)
    by (simpl; now rewrite take_length, ranking_length).
  apply take_rows_take_rows. rewrite ranking_length. apply slice_stop_le.
Qed.

Lemma output_rows n : n_rows (Frame.take_rows (scored w d) (selection w d n)) = length (selection w d n).
Proof. unfold n_rows. simpl. apply take_length. Qed.
End Returns.

(** The frames allocated by one call, in order: [scores], [result], the sorted
    frame and the frame returned. *)
Definition allocated {K : SortKind} (w : ScoringWeights) (d : DataFrame) (top_n : Z)
  : list DataFrame :=
  [scores_frame w d; scored w d; sorted_frame w d;
   Frame.take_rows (scored w d) (selection w d top_n)].

Theorem select_stocks_returns {K : SortKind} st df d top_n :
  nth_error (frames st) df = Some d -> entity_table d = true ->
  select_stocks df top_n st
  = Ok (length (frames st) + 3,
        {| frames := frames st ++ allocated (weights (self st)) d top_n; self := self st |}).
Proof.
  intros Hr Hd. destruct st as [fs sf]. simpl in *.
  rewrite (Run.select_stocks_at fs sf df d top_n Hr Hd).
  unfold Run.ext, allocated. now rewrite head_sorted_frame.
Qed.

Lemma returned_frame {K : SortKind} st d top_n :
  nth_error (frames st ++ allocated (weights (self st)) d top_n) (length (frames st) + 3)
  = Some (Frame.take_rows (scored (weights (self st)) d) (selection (weights (self st)) d top_n)).
Proof. now rewrite Run.nth_error_new. Qed.

(** ** The value of a binary64 number, in units of [2^-1074] *)

Module Binary64.
Local Open Scope Z_scope.

Definition pow2 (k : Z) : Z := 2 ^ k.

Lemma pow2_pos k : 0 <= k -> 0 < pow2 k.
Proof. intros. unfold pow2. now apply Z.pow_pos_nonneg. Qed.

Lemma pow2_add a b : 0 <= a -> 0 <= b -> pow2 (a + b) = pow2 a * pow2 b.
Proof. intros. unfold pow2. now apply Z.pow_add_r. Qed.

Lemma pow2_succ a : 0 <= a -> pow2 (a + 1) = 2 * pow2 a.
Proof. intros. rewrite pow2_add by lia. change (pow2 1) with 2. lia. Qed.

Lemma pow2_le a b : 0 <= a <= b -> pow2 a <= pow2 b.
Proof. intros. unfold pow2. apply Z.pow_le_mono_r; lia. Qed.

Lemma pow2_lt a b : 0 <= a < b -> pow2 a < pow2 b.
Proof. intros. unfold pow2. apply Z.pow_lt_mono_r; lia. Qed.

Lemma pow2_lt_inv a b : 0 <= a -> 0 <= b -> pow2 a < pow2 b -> a < b.
Proof.
  intros Ha Hb H. destruct (Z_lt_le_dec a b) as [|Hle]; [assumption|].
  pose proof (pow2_le b a). lia.
Qed.

(** Number of binary digits. *)
Definition digits (n : Z) : Z := Zdigits2 n.

Lemma digits_pos_spec p :
  pow2 (Zpos (digits2_pos p) - 1) <= Zpos p < pow2 (Zpos (digits2_pos p)).
Proof.
  induction p as [p IH|p IH|]; simpl digits2_pos.
  - rewrite Pos2Z.inj_succ. unfold Z.succ.
    replace (Zpos (digits2_pos p) + 1 - 1) with (Zpos (digits2_pos p) - 1 + 1) by lia.
    assert (0 <= Zpos (digits2_pos p) - 1) by lia.
    rewrite !pow2_succ by lia. rewrite Pos2Z.inj_xI. lia.
  - rewrite Pos2Z.inj_succ. unfold Z.succ.
    replace (Zpos (digits2_pos p) + 1 - 1) with (Zpos (digits2_pos p) - 1 + 1) by lia.
    assert (0 <= Zpos (digits2_pos p) - 1) by lia.
    rewrite !pow2_succ by lia. rewrite Pos2Z.inj_xO. lia.
  - unfold pow2. simpl. lia.
Qed.

Lemma digits_spec n : 0 < n -> 1 <= digits n /\ pow2 (digits n - 1) <= n < pow2 (digits n).
Proof.
  destruct n as [|p|p]; try lia. intros _. unfold digits. simpl.
  split; [lia|apply digits_pos_spec].
Qed.

Lemma digits_unique n d : 1 <= d -> pow2 (d - 1) <= n < pow2 d -> digits n = d.
Proof.
  intros Hd Hn. assert (0 < n) by (pose proof (pow2_pos (d - 1)); lia).
  destruct (digits_spec n) as [H1 H2]; [assumption|].
  assert (digits n - 1 < d) by (apply pow2_lt_inv; lia).
  assert (d - 1 < digits n) by (apply pow2_lt_inv; lia).
  lia.
Qed.

Lemma digits_0 : digits 0 = 0.
Proof. reflexivity. Qed.

Lemma digits_nonneg n : 0 <= digits n.
Proof. destruct n; unfold digits; simpl; lia. Qed.

Lemma digits_mul_pow2 n k : 0 < n -> 0 <= k -> digits (n * pow2 k) = digits n + k.
Proof.
  intros Hn Hk. destruct (digits_spec n Hn) as [H1 [H2 H3]].
  pose proof (pow2_pos k Hk).
  apply digits_unique; [lia|].
  replace (digits n + k - 1) with (digits n - 1 + k) by lia.
  rewrite !pow2_add by lia. split; nia.
Qed.

Lemma digits_le a b : 0 < a <= b -> digits a <= digits b.
Proof.
  intros H. destruct (digits_spec a) as [Ha1 [Ha2 Ha3]]; [lia|].
  destruct (digits_spec b) as [Hb1 [Hb2 Hb3]]; [lia|].
  assert (digits a - 1 < digits b) by (apply pow2_lt_inv; lia). lia.
Qed.

(** The format: 53 digits, exponents from -1074. *)
Lemma fexp_eq z : fexp prec emax z = Z.max (z - 53) (-1074).
Proof. reflexivity. Qed.

Lemma bounded_spec m e :
  bounded prec emax m e = true <->
  -1074 <= e <= 971 /\ digits (Zpos m) <= 53 /\ (e = -1074 \/ digits (Zpos m) = 53).
Proof.
  unfold bounded, canonical_mantissa. rewrite andb_true_iff, Z.eqb_eq, Z.leb_le, fexp_eq.
  change (emax - prec) with 971. unfold digits. simpl Zdigits2. lia.
Qed.

(** Finite numbers and zeros, and their value as a multiple of [2^-1074]. *)
Definition is_number (x : spec_float) : bool :=
  match x with S754_zero _ | S754_finite _ _ _ => true | _ => false end.

Definition ival (x : spec_float) : Z :=
  match x with
  | S754_finite s m e => cond_Zopp s (Zpos m * pow2 (e + 1074))
  | _ => 0
  end.

Lemma ival_finite_pos (m : positive) e : -1074 <= e -> 0 < Zpos m * pow2 (e + 1074).
Proof. intros. pose proof (pow2_pos (e + 1074)). nia. Qed.

Lemma canonical_compare m1 e1 m2 e2 :
  bounded prec emax m1 e1 = true -> bounded prec emax m2 e2 = true ->
  match e1 ?= e2 with
  | Lt => Lt
  | Gt => Gt
  | Eq => Pos.compare_cont Eq m1 m2
  end = (Zpos m1 * pow2 (e1 + 1074) ?= Zpos m2 * pow2 (e2 + 1074)).
Proof.
  intros H1 H2. apply bounded_spec in H1 as (He1 & Hd1 & Hc1), H2 as (He2 & Hd2 & Hc2).
  change (Pos.compare_cont Eq m1 m2) with (Zpos m1 ?= Zpos m2).
  destruct (digits_spec (Zpos m1)) as [Ha1 [Ha2 Ha3]]; [lia|].
  destruct (digits_spec (Zpos m2)) as [Hb1 [Hb2 Hb3]]; [lia|].
  pose proof (pow2_pos (e1 + 1074)). pose proof (pow2_pos (e2 + 1074)).
  symmetry. destruct (Z.compare_spec e1 e2) as [->|Hlt|Hgt].
  - destruct (Z.compare_spec (Zpos m1) (Zpos m2)) as [E|E|E];
      [rewrite E; apply Z.compare_refl|apply Z.compare_lt_iff; nia|apply Z.compare_gt_iff; nia].
  - apply Z.compare_lt_iff.
    assert (Hd : digits (Zpos m2) = 53) by lia. rewrite Hd in *.
    assert (pow2 (digits (Zpos m1)) <= pow2 53) by (apply pow2_le; lia).
    assert (pow2 (e1 + 1074 + 1) <= pow2 (e2 + 1074)) by (apply pow2_le; lia).
    rewrite pow2_succ in * by lia.
    change (pow2 53) with (2 * pow2 52) in *. change (53 - 1) with 52 in *.
    assert (0 < pow2 52) by (apply pow2_pos; lia). nia.
  - apply Z.compare_gt_iff.
    assert (Hd : digits (Zpos m1) = 53) by lia. rewrite Hd in *.
    assert (pow2 (digits (Zpos m2)) <= pow2 53) by (apply pow2_le; lia).
    assert (pow2 (e2 + 1074 + 1) <= pow2 (e1 + 1074)) by (apply pow2_le; lia).
    rewrite pow2_succ in * by lia.
    change (pow2 53) with (2 * pow2 52) in *. change (53 - 1) with 52 in *.
    assert (0 < pow2 52) by (apply pow2_pos; lia). nia.
Qed.

Lemma SFcompare_ival x y :
  valid_binary x = true -> valid_binary y = true ->
  is_number x = true -> is_number y = true ->
  SFcompare x y = Some (ival x ?= ival y).
Proof.
  destruct x as [sx|sx| |sx mx ex], y as [sy|sy| |sy my ey]; try discriminate;
    intros Vx Vy _ _; simpl in Vx, Vy.
  - reflexivity.
  - apply bounded_spec in Vy as (He & _). pose proof (ival_finite_pos my ey).
    unfold SFcompare, ival. destruct sy; unfold cond_Zopp; f_equal; symmetry;
      [apply Z.compare_gt_iff|apply Z.compare_lt_iff]; lia.
  - apply bounded_spec in Vx as (He & _). pose proof (ival_finite_pos mx ex).
    unfold SFcompare, ival. destruct sx; unfold cond_Zopp; f_equal; symmetry;
      [apply Z.compare_lt_iff|apply Z.compare_gt_iff]; lia.
  - pose proof (canonical_compare mx ex my ey Vx Vy) as C.
    pose proof (canonical_compare my ey mx ex Vy Vx) as C'.
    apply bounded_spec in Vx as (Hex & _), Vy as (Hey & _).
    pose proof (ival_finite_pos mx ex). pose proof (ival_finite_pos my ey).
    unfold SFcompare, ival. destruct sx, sy; unfold cond_Zopp; f_equal.
    + rewrite Z.compare_opp. rewrite <- C'. clear C C'.
      rewrite (Z.compare_antisym ey ex).
      change (Pos.compare_cont Eq my mx) with (Pos.compare my mx).
      change (Pos.compare_cont Eq mx my) with (Pos.compare mx my).
      rewrite (Pos.compare_antisym mx my).
      destruct (ey ?= ex); reflexivity.
    + symmetry. apply Z.compare_lt_iff. lia.
    + symmetry. apply Z.compare_gt_iff. lia.
    + exact C.
Qed.


(** *** Shifting right and rounding to nearest, ties to even *)

Lemma iter_pos_nat {A} (f : A -> A) p x : iter_pos f p x = Nat.iter (Pos.to_nat p) f x.
Proof.
  revert x. induction p as [p IH|p IH|]; intros x; simpl iter_pos.
  - rewrite !IH, Pos2Nat.inj_xI. rewrite <- Nat.iter_add.
    replace (S (2 * Pos.to_nat p)) with (S (Pos.to_nat p + Pos.to_nat p)) by lia.
    now rewrite Nat.iter_succ_r.
  - rewrite !IH, Pos2Nat.inj_xO. rewrite <- Nat.iter_add.
    f_equal. lia.
  - reflexivity.
Qed.

Lemma odd_mod2 a : Z.odd a = negb (a mod 2 =? 0).
Proof. rewrite Zmod_odd. now destruct (Z.odd a). Qed.

Lemma shr_1_spec rec :
  0 <= shr_m rec ->
  shr_1 rec = {| shr_m := shr_m rec / 2; shr_r := Z.odd (shr_m rec);
                 shr_s := shr_r rec || shr_s rec |}.
Proof.
  destruct rec as [m r s]. simpl. intros Hm. rewrite <- Z.div2_div.
  destruct m as [|[p|p|]|p]; try lia; reflexivity.
Qed.

Lemma iter_shr_m n rec :
  0 <= shr_m rec -> shr_m (Nat.iter n shr_1 rec) = shr_m rec / pow2 (Z.of_nat n).
Proof.
  intros Hm. induction n as [|n IH].
  - simpl. now rewrite Z.div_1_r.
  - rewrite Nat2Z.inj_succ. unfold Z.succ. rewrite pow2_add by lia. change (pow2 1) with 2.
    simpl Nat.iter. rewrite shr_1_spec; rewrite IH.
    + simpl. pose proof (pow2_pos (Z.of_nat n)). rewrite Z.div_div by lia. reflexivity.
    + apply Z.div_pos; [assumption|apply pow2_pos; lia].
Qed.

Definition exact (M : Z) : shr_record := {| shr_m := M; shr_r := false; shr_s := false |}.

Lemma iter_shr_exact n M :
  0 <= M ->
  Nat.iter (S n) shr_1 (exact M)
  = {| shr_m := M / pow2 (Z.of_nat n + 1);
       shr_r := Z.odd (M / pow2 (Z.of_nat n));
       shr_s := negb (M mod pow2 (Z.of_nat n) =? 0) |}.
Proof.
  intros HM. induction n as [|n IH].
  - change (Nat.iter 1 shr_1 (exact M)) with (shr_1 (exact M)).
    rewrite shr_1_spec by assumption. cbn [exact shr_m shr_r shr_s orb Z.of_nat Z.add].
    change (pow2 0) with 1. change (pow2 1) with 2.
    now rewrite Z.div_1_r, Z.mod_1_r.
  - change (Nat.iter (S (S n)) shr_1 (exact M)) with (shr_1 (Nat.iter (S n) shr_1 (exact M))).
    rewrite IH. pose proof (pow2_pos (Z.of_nat n)).
    rewrite shr_1_spec; simpl shr_m; simpl shr_r; simpl shr_s.
    2:{ apply Z.div_pos; [assumption|apply pow2_pos; lia]. }
    rewrite Nat2Z.inj_succ. unfold Z.succ.
    f_equal.
    + rewrite (pow2_add (Z.of_nat n + 1) 1) by lia. change (pow2 1) with 2.
      pose proof (pow2_pos (Z.of_nat n + 1)). rewrite Z.div_div by lia. reflexivity.
    + rewrite (pow2_add (Z.of_nat n) 1) by lia. change (pow2 1) with 2.
      rewrite Z.rem_mul_r by lia. rewrite odd_mod2.
      pose proof (Z.mod_pos_bound M (pow2 (Z.of_nat n))).
      pose proof (Z.mod_pos_bound (M / pow2 (Z.of_nat n)) 2).
      destruct (Z.eqb_spec (M / pow2 (Z.of_nat n) mod 2) 0),
               (Z.eqb_spec (M mod pow2 (Z.of_nat n)) 0); simpl;
        symmetry; try (apply negb_true_iff, Z.eqb_neq; nia).
      apply negb_false_iff, Z.eqb_eq. nia.
Qed.

(** [M / 2^j] rounded to nearest, ties to even. *)
Definition rne (M j : Z) : Z :=
  let q := M / pow2 j in
  let rho2 := 2 * (M mod pow2 j) in
  if rho2 <? pow2 j then q
  else if pow2 j <? rho2 then q + 1
  else if Z.even q then q else q + 1.

Lemma rne_0 M : rne M 0 = M.
Proof.
  unfold rne. change (pow2 0) with 1. rewrite Z.div_1_r, Z.mod_1_r. reflexivity.
Qed.

Lemma round_iter_shr n M :
  0 <= M ->
  round_nearest_even (shr_m (Nat.iter (S n) shr_1 (exact M)))
                     (loc_of_shr_record (Nat.iter (S n) shr_1 (exact M)))
  = rne M (Z.of_nat (S n)).
Proof.
  intros HM. rewrite iter_shr_exact by assumption.
  rewrite Nat2Z.inj_succ. unfold Z.succ. unfold rne.
  set (j := Z.of_nat n). assert (Hj : 0 <= j) by lia.
  pose proof (pow2_pos j Hj) as Hp.
  rewrite (pow2_add j 1) by lia. change (pow2 1) with 2.
  rewrite (Z.rem_mul_r M (pow2 j) 2) by lia.
  rewrite odd_mod2.
  pose proof (Z.mod_pos_bound M (pow2 j)).
  pose proof (Z.mod_pos_bound (M / pow2 j) 2).
  set (b := (M / pow2 j) mod 2) in *. set (rho := M mod pow2 j) in *.
  cbv zeta. simpl shr_m. unfold loc_of_shr_record.
  destruct (Z.eqb_spec b 0) as [Hb|Hb], (Z.eqb_spec rho 0) as [Hr|Hr]; simpl negb;
    unfold round_nearest_even.
  - destruct (Z.ltb_spec (2 * (rho + pow2 j * b)) (pow2 j * 2)); [reflexivity|nia].
  - destruct (Z.ltb_spec (2 * (rho + pow2 j * b)) (pow2 j * 2)); [reflexivity|nia].
  - destruct (Z.ltb_spec (2 * (rho + pow2 j * b)) (pow2 j * 2)); [nia|].
    destruct (Z.ltb_spec (pow2 j * 2) (2 * (rho + pow2 j * b))); [nia|reflexivity].
  - destruct (Z.ltb_spec (2 * (rho + pow2 j * b)) (pow2 j * 2)); [nia|].
    destruct (Z.ltb_spec (pow2 j * 2) (2 * (rho + pow2 j * b))); [reflexivity|nia].
Qed.

(** [shr] from an exact record: the new exponent, and the rounded mantissa. *)
Lemma shr_exact_spec M e sh :
  0 <= M ->
  snd (shr (exact M) e sh) = e + Z.max sh 0 /\
  shr_m (fst (shr (exact M) e sh)) = M / pow2 (Z.max sh 0) /\
  round_nearest_even (shr_m (fst (shr (exact M) e sh)))
                     (loc_of_shr_record (fst (shr (exact M) e sh)))
  = rne M (Z.max sh 0).
Proof.
  intros HM. destruct sh as [|p|p]; simpl shr; simpl fst; simpl snd.
  - change (Z.max 0 0) with 0. rewrite rne_0. change (pow2 0) with 1.
    rewrite Z.div_1_r. split; [lia|split; reflexivity].
  - replace (Z.max (Zpos p) 0) with (Zpos p) by lia. rewrite iter_pos_nat.
    destruct (Pos2Nat.is_succ p) as [n Hn]. rewrite Hn.
    assert (E : Zpos p = Z.of_nat (S n)) by lia.
    split; [reflexivity|]. split.
    + rewrite iter_shr_m by (simpl; assumption). now rewrite E.
    + rewrite round_iter_shr by assumption. now rewrite E.
  - change (Z.max (Zneg p) 0) with 0. rewrite rne_0. change (pow2 0) with 1.
    rewrite Z.div_1_r. split; [lia|split; reflexivity].
Qed.


(** *** Rounding an integer multiple of [2^-1074] to the format *)

Definition kof (N : Z) : Z := Z.max (digits N - 53) 0.

Definition rnd (N : Z) : Z := rne N (kof N) * pow2 (kof N).

Lemma rne_bounds M j : 0 <= M -> 0 <= j -> M / pow2 j <= rne M j <= M / pow2 j + 1.
Proof.
  intros. unfold rne. cbv zeta.
  destruct (_ <? _); [lia|]. destruct (_ <? _); [lia|]. destruct (Z.even _); lia.
Qed.

Lemma rne_scale M j c : 0 <= M -> 0 <= j -> 0 <= c -> rne (M * pow2 c) (j + c) = rne M j.
Proof.
  intros HM Hj Hc. unfold rne. cbv zeta.
  pose proof (pow2_pos j Hj). pose proof (pow2_pos c Hc).
  rewrite pow2_add by lia.
  rewrite Z.div_mul_cancel_r by lia.
  rewrite Zmult_mod_distr_r.
  pose proof (Z.mod_pos_bound M (pow2 j)).
  destruct (Z.ltb_spec (2 * (M mod pow2 j)) (pow2 j)),
           (Z.ltb_spec (2 * (M mod pow2 j * pow2 c)) (pow2 j * pow2 c)); try nia; try reflexivity.
  destruct (Z.ltb_spec (pow2 j) (2 * (M mod pow2 j))),
           (Z.ltb_spec (pow2 j * pow2 c) (2 * (M mod pow2 j * pow2 c))); try nia; reflexivity.
Qed.

Lemma rne_exact M j : 0 <= j -> rne (M * pow2 j) j = M.
Proof.
  intros Hj. unfold rne. cbv zeta. pose proof (pow2_pos j Hj).
  rewrite Z.div_mul by lia. rewrite Z.mod_mul by lia.
  destruct (Z.ltb_spec (2 * 0) (pow2 j)); [reflexivity|lia].
Qed.

Lemma digits_div_pow2 M j :
  0 < M -> 0 <= j < digits M -> digits (M / pow2 j) = digits M - j.
Proof.
  intros HM Hj. destruct (digits_spec M HM) as [H1 [H2 H3]].
  pose proof (pow2_pos j). apply digits_unique; [lia|].
  assert (E2 : pow2 (digits M - 1) = pow2 (digits M - j - 1) * pow2 j)
    by (rewrite <- pow2_add by lia; f_equal; lia).
  assert (E3 : pow2 (digits M) = pow2 (digits M - j) * pow2 j)
    by (rewrite <- pow2_add by lia; f_equal; lia).
  rewrite E2 in H2. rewrite E3 in H3. split.
  - apply Z.div_le_lower_bound; lia.
  - apply Z.div_lt_upper_bound; lia.
Qed.

Lemma shr_fexp_exact M e :
  shr_fexp prec emax M e loc_Exact
  = shr (exact M) e (fexp prec emax (digits M + e) - e).
Proof. reflexivity. Qed.

Lemma binary_round_aux_unfold sx mx ex lx :
  binary_round_aux prec emax sx mx ex lx
  = let p1 := shr_fexp prec emax mx ex lx in
    let m1 := round_nearest_even (shr_m (fst p1)) (loc_of_shr_record (fst p1)) in
    let p2 := shr_fexp prec emax m1 (snd p1) loc_Exact in
    match shr_m (fst p2) with
    | Z0 => S754_zero sx
    | Zpos m => if snd p2 <=? emax - prec then S754_finite sx m (snd p2)
                else S754_infinity sx
    | Zneg _ => S754_nan
    end.
Proof.
  unfold binary_round_aux. destruct (shr_fexp prec emax mx ex lx) as [r1 e1]. cbv zeta.
  simpl fst. simpl snd. destruct (shr_fexp prec emax _ e1 loc_Exact) as [r2 e2]. reflexivity.
Qed.

(** The result of rounding: an infinity on overflow, else the number of value
    [v]. *)
Definition rounds_to (r : spec_float) (s : bool) (v : Z) : Prop :=
  (r = S754_infinity s /\ pow2 2098 <= v) \/
  (exists m e, r = S754_finite s m e /\ -1074 <= e /\ Zpos m * pow2 (e + 1074) = v).

Lemma normalize_mantissa s m1 E :
  -1074 <= E -> pow2 52 <= m1 <= pow2 53 ->
  rounds_to (match shr_m (fst (shr_fexp prec emax m1 E loc_Exact)) with
             | Z0 => S754_zero s
             | Zpos m => if snd (shr_fexp prec emax m1 E loc_Exact) <=? emax - prec
                         then S754_finite s m (snd (shr_fexp prec emax m1 E loc_Exact))
                         else S754_infinity s
             | Zneg _ => S754_nan
             end) s (m1 * pow2 (E + 1074)).
Proof.
  intros HE Hm. change (emax - prec) with 971.
  assert (P52 : 0 < pow2 52) by (apply pow2_pos; lia).
  assert (P53 : pow2 53 = 2 * pow2 52) by reflexivity.
  pose proof (pow2_pos (E + 1074)) as PE.
  rewrite shr_fexp_exact, fexp_eq.
  destruct (Z.eq_dec m1 (pow2 53)) as [->|Hne].
  - replace (digits (pow2 53)) with 54 by reflexivity.
    replace (Z.max (54 + E - 53) (-1074) - E) with 1 by lia.
    destruct (shr_exact_spec (pow2 53) E 1) as (He & Hq & _); [lia|].
    rewrite He, Hq. change (Z.max 1 0) with 1.
    change (pow2 53 / pow2 1) with (Zpos (4503599627370496)).
    destruct (Z.leb_spec (E + 1) 971).
    + right. eexists _, _. split; [reflexivity|]. split; [lia|].
      replace (E + 1 + 1074) with (E + 1074 + 1) by lia. rewrite pow2_succ by lia.
      change (pow2 53) with (2 * 4503599627370496). lia.
    + left. split; [reflexivity|].
      assert (pow2 (2098 - 53) <= pow2 (E + 1074)) by (apply pow2_le; lia).
      change (pow2 2098) with (pow2 53 * pow2 (2098 - 53)). nia.
  - assert (Hd : digits m1 = 53) by (apply digits_unique; [lia|change (53 - 1) with 52; lia]).
    rewrite Hd. replace (Z.max (53 + E - 53) (-1074) - E) with 0 by lia.
    simpl shr. simpl fst. simpl snd. unfold exact. simpl shr_m.
    destruct m1 as [|p|p]; try lia.
    destruct (Z.leb_spec E 971).
    + right. eexists _, _. split; [reflexivity|]. split; [lia|reflexivity].
    + left. split; [reflexivity|].
      assert (pow2 (2098 - 52) <= pow2 (E + 1074)) by (apply pow2_le; lia).
      change (pow2 2098) with (pow2 52 * pow2 (2098 - 52)). nia.
Qed.


Lemma canonical_mantissa_round s M E :
  0 < M -> fexp prec emax (digits M + E) = E ->
  rounds_to (match shr_m (fst (shr_fexp prec emax M E loc_Exact)) with
             | Z0 => S754_zero s
             | Zpos m => if snd (shr_fexp prec emax M E loc_Exact) <=? emax - prec
                         then S754_finite s m (snd (shr_fexp prec emax M E loc_Exact))
                         else S754_infinity s
             | Zneg _ => S754_nan
             end) s (M * pow2 (E + 1074)).
Proof.
  intros HM HE. change (emax - prec) with 971.
  rewrite shr_fexp_exact, HE, Z.sub_diag. rewrite fexp_eq in HE.
  simpl shr. simpl fst. simpl snd. unfold exact. simpl shr_m.
  destruct M as [|p|p]; try lia.
  destruct (Z.leb_spec E 971).
  - right. eexists _, _. split; [reflexivity|]. split; [lia|reflexivity].
  - left. split; [reflexivity|].
    assert (Hd : digits (Zpos p) = 53) by lia.
    destruct (digits_spec (Zpos p)) as [_ [H2 _]]; [lia|]. rewrite Hd in H2.
    change (53 - 1) with 52 in H2.
    assert (pow2 (2098 - 52) <= pow2 (E + 1074)) by (apply pow2_le; lia).
    assert (0 < pow2 (2098 - 52)) by (apply pow2_pos; lia).
    change (pow2 2098) with (pow2 52 * pow2 (2098 - 52)). nia.
Qed.

Lemma kof_scaled M e :
  0 < M -> -1074 <= e ->
  kof (M * pow2 (e + 1074)) = fexp prec emax (digits M + e) + 1074.
Proof.
  intros HM He. unfold kof. rewrite digits_mul_pow2, fexp_eq by lia. lia.
Qed.

Lemma round_aux_exact s M e :
  0 < M -> -1074 <= e -> e <= fexp prec emax (digits M + e) ->
  rounds_to (binary_round_aux prec emax s M e loc_Exact) s (rnd (M * pow2 (e + 1074))).
Proof.
  intros HM He Hsh. rewrite binary_round_aux_unfold. cbv zeta.
  rewrite (shr_fexp_exact M e).
  pose proof (fexp_eq (digits M + e)) as HF.
  remember (fexp prec emax (digits M + e)) as F eqn:EF.
  remember (F - e) as sh eqn:Esh.
  assert (Hsh0 : 0 <= sh) by lia.
  destruct (shr_exact_spec M e sh) as (He' & Hq & Hr); [lia|].
  rewrite Hr, He'. replace (Z.max sh 0) with sh in * by lia.
  unfold rnd. rewrite kof_scaled by lia. rewrite <- EF.
  replace (F + 1074) with (sh + (e + 1074)) by lia.
  rewrite rne_scale by lia.
  replace (sh + (e + 1074)) with (e + sh + 1074) by lia.
  destruct (Z.eq_dec sh 0) as [E0|Hpos].
  - rewrite E0, rne_0, Z.add_0_r.
    apply canonical_mantissa_round; [assumption|]. rewrite <- EF. lia.
  - assert (Hdq : digits (M / pow2 sh) = 53).
    { rewrite digits_div_pow2; [|assumption|]; lia. }
    assert (0 < M / pow2 sh).
    { destruct (Z_lt_le_dec 0 (M / pow2 sh)) as [|Hle]; [assumption|].
      assert (H0 : M / pow2 sh = 0)
        by (pose proof (Z.div_pos M (pow2 sh) ltac:(lia) (pow2_pos sh Hsh0)); lia).
      rewrite H0 in Hdq. discriminate Hdq. }
    destruct (digits_spec (M / pow2 sh)) as [_ [H2 H3]]; [assumption|].
    rewrite Hdq in H2, H3. change (53 - 1) with 52 in H2.
    pose proof (rne_bounds M sh ltac:(lia) Hsh0).
    apply normalize_mantissa; lia.
Qed.

Lemma shl_align_value mx ex ez :
  ez <= ex ->
  Zpos (fst (shl_align mx ex ez)) = Zpos mx * pow2 (ex - ez) /\
  snd (shl_align mx ex ez) = ez.
Proof.
  intros H. unfold shl_align. destruct (ez - ex) as [|p|p] eqn:E; try lia.
  - cbn [fst snd]. replace (ex - ez) with 0 by lia. change (pow2 0) with 1. lia.
  - cbn [fst snd]. split; [|reflexivity].
    change (Pos.iter xO mx p) with (shift_pos p mx).
    rewrite shift_pos_correct. replace (ex - ez) with (Zpos p) by lia.
    unfold pow2. change (2 ^ Zpos p) with (Z.pow_pos 2 p). lia.
Qed.

Lemma binary_round_spec s mx ex :
  -1074 <= ex ->
  rounds_to (binary_round prec emax s mx ex) s (rnd (Zpos mx * pow2 (ex + 1074))).
Proof.
  intros He. unfold binary_round.
  change (Zpos (digits2_pos mx)) with (digits (Zpos mx)).
  pose proof (fexp_eq (digits (Zpos mx) + ex)) as HF.
  remember (fexp prec emax (digits (Zpos mx) + ex)) as E eqn:EE.
  destruct (Z_lt_le_dec E ex) as [Hlt|Hle].
  - destruct (shl_align_value mx ex E) as [Hv He']; [lia|].
    destruct (shl_align mx ex E) as [mz ez]. cbn [fst snd] in Hv, He'. subst ez.
    assert (HE : -1074 <= E) by lia.
    assert (Hval : Zpos mz * pow2 (E + 1074) = Zpos mx * pow2 (ex + 1074)).
    { rewrite Hv. replace (ex + 1074) with (ex - E + (E + 1074)) by lia.
      rewrite (pow2_add (ex - E)) by lia. ring. }
    rewrite <- Hval. apply round_aux_exact; [lia|assumption|].
    rewrite Hv, digits_mul_pow2 by lia.
    replace (digits (Zpos mx) + (ex - E) + E) with (digits (Zpos mx) + ex) by lia.
    rewrite <- EE. lia.
  - assert (Hs : shl_align mx ex E = (mx, ex)).
    { unfold shl_align. destruct (E - ex) eqn:D; try reflexivity. lia. }
    rewrite Hs. apply round_aux_exact; [lia|assumption|]. rewrite <- EE. exact Hle.
Qed.

Lemma rnd_canonical m e :
  bounded prec emax m e = true ->
  rnd (Zpos m * pow2 (e + 1074)) = Zpos m * pow2 (e + 1074).
Proof.
  intros H. apply bounded_spec in H as (He & Hd & Hc).
  unfold rnd. rewrite kof_scaled, fexp_eq by lia.
  assert (E : Z.max (digits (Zpos m) + e - 53) (-1074) = e) by lia. rewrite E.
  now rewrite rne_exact by lia.
Qed.


(** *** Rounding is monotone *)

Lemma rne_mono a b k : 0 <= a <= b -> 0 <= k -> rne a k <= rne b k.
Proof.
  intros Hab Hk. pose proof (pow2_pos k Hk) as Hp.
  assert (Hq : a / pow2 k <= b / pow2 k) by (apply Z.div_le_mono; lia).
  pose proof (rne_bounds a k ltac:(lia) Hk) as Ba.
  pose proof (rne_bounds b k ltac:(lia) Hk) as Bb.
  destruct (Z.eq_dec (a / pow2 k) (b / pow2 k)) as [E|Hne]; [|lia].
  pose proof (Z.div_mod a (pow2 k) ltac:(lia)) as Da.
  pose proof (Z.div_mod b (pow2 k) ltac:(lia)) as Db.
  assert (Hr : a mod pow2 k <= b mod pow2 k) by (rewrite E in Da; lia).
  clear Ba Bb. unfold rne. cbv zeta. rewrite E.
  destruct (Z.ltb_spec (2 * (a mod pow2 k)) (pow2 k)),
           (Z.ltb_spec (2 * (b mod pow2 k)) (pow2 k)); try lia.
  - destruct (Z.ltb_spec (pow2 k) (2 * (b mod pow2 k))); [lia|].
    destruct (Z.even (b / pow2 k)); lia.
  - destruct (Z.ltb_spec (pow2 k) (2 * (a mod pow2 k))),
             (Z.ltb_spec (pow2 k) (2 * (b mod pow2 k))); try lia.
    destruct (Z.even (b / pow2 k)); lia.
Qed.

Lemma rnd_upper a : 0 < a -> rnd a <= pow2 (53 + kof a).
Proof.
  intros Ha. unfold rnd. set (k := kof a).
  assert (Hk : 0 <= k) by (unfold k, kof; lia).
  pose proof (pow2_pos k Hk) as Hp.
  destruct (digits_spec a Ha) as [_ [_ H3]].
  pose proof (digits_nonneg a).
  assert (pow2 (digits a) <= pow2 (53 + k)) by (apply pow2_le; unfold k, kof; lia).
  rewrite (pow2_add 53 k) in * by lia.
  assert (a / pow2 k < pow2 53) by (apply Z.div_lt_upper_bound; lia).
  pose proof (rne_bounds a k ltac:(lia) Hk). nia.
Qed.

Lemma rnd_lower a : 0 < a -> 0 < kof a -> pow2 (52 + kof a) <= rnd a.
Proof.
  intros Ha Hk0. unfold rnd. set (k := kof a) in *.
  assert (Hk : 0 <= k) by lia.
  pose proof (pow2_pos k Hk) as Hp.
  destruct (digits_spec a Ha) as [_ [H2 _]].
  assert (E : digits a - 1 = 52 + k) by (unfold k, kof in *; lia).
  rewrite E in H2. rewrite (pow2_add 52 k) in * by lia.
  assert (pow2 52 <= a / pow2 k) by (apply Z.div_le_lower_bound; lia).
  pose proof (rne_bounds a k ltac:(lia) Hk). nia.
Qed.

Lemma rnd_mono a b : 0 < a <= b -> rnd a <= rnd b.
Proof.
  intros Hab. pose proof (digits_le a b Hab) as Hd.
  assert (Hk : 0 <= kof a <= kof b) by (unfold kof; lia).
  destruct (Z.eq_dec (kof a) (kof b)) as [E|Hne].
  - unfold rnd. rewrite E. pose proof (pow2_pos (kof b)).
    apply Z.mul_le_mono_nonneg_r; [lia|]. apply rne_mono; lia.
  - pose proof (rnd_upper a ltac:(lia)). pose proof (rnd_lower b ltac:(lia) ltac:(lia)).
    assert (pow2 (53 + kof a) <= pow2 (52 + kof b)) by (apply pow2_le; lia). lia.
Qed.

Lemma rnd_pos a : 0 < a -> 0 < rnd a.
Proof.
  intros Ha. unfold rnd. set (k := kof a).
  assert (Hk : 0 <= k) by (unfold k, kof; lia).
  pose proof (pow2_pos k Hk) as Hp.
  pose proof (rne_bounds a k ltac:(lia) Hk) as B.
  destruct (Z_lt_le_dec 0 (kof a)) as [Hpos|H0].
  - pose proof (rnd_lower a Ha Hpos). unfold rnd in *. fold k in H.
    pose proof (pow2_pos (52 + k)). lia.
  - assert (E : k = 0) by (unfold k; lia). rewrite E in *. rewrite rne_0.
    change (pow2 0) with 1. lia.
Qed.


(** *** Subtraction *)

Lemma cond_Zopp_mul s a c : cond_Zopp s a * c = cond_Zopp s (a * c).
Proof. destruct s; simpl; lia. Qed.

Lemma SFsub_rounds x y :
  valid_binary x = true -> valid_binary y = true ->
  is_number x = true -> is_number y = true ->
  ival y <= ival x ->
  (ival x = ival y /\ exists s, SF64sub x y = S754_zero s) \/
  (ival y < ival x /\ rounds_to (SF64sub x y) false (rnd (ival x - ival y))).
Proof.
  unfold SF64sub.
  destruct x as [sx|sx| |sx mx ex], y as [sy|sy| |sy my ey]; try discriminate;
    intros Vx Vy _ _ Hle; simpl in Vx, Vy.
  - left. split; [reflexivity|]. destruct sx, sy; simpl; eauto.
  - right. pose proof (proj1 (bounded_spec my ey) Vy) as (He & _).
    pose proof (ival_finite_pos my ey ltac:(lia)) as Hp.
    destruct sy; unfold ival, cond_Zopp in *; [|lia].
    split; [lia|]. right. exists my, ey. split; [reflexivity|]. split; [lia|].
    rewrite Z.sub_0_l, Z.opp_involutive. symmetry. now apply rnd_canonical.
  - right. pose proof (proj1 (bounded_spec mx ex) Vx) as (He & _).
    pose proof (ival_finite_pos mx ex ltac:(lia)) as Hp.
    destruct sx; unfold ival, cond_Zopp in *; [lia|].
    split; [lia|]. right. exists mx, ex. split; [reflexivity|]. split; [lia|].
    rewrite Z.sub_0_r. symmetry. now apply rnd_canonical.
  - pose proof (proj1 (bounded_spec mx ex) Vx) as (Hex & _).
    pose proof (proj1 (bounded_spec my ey) Vy) as (Hey & _).
    unfold SFsub. cbv zeta.
    destruct (shl_align_value mx ex (Z.min ex ey)) as [Hx _]; [lia|].
    destruct (shl_align_value my ey (Z.min ex ey)) as [Hy _]; [lia|].
    rewrite Hx, Hy. set (ez := Z.min ex ey) in *.
    set (M := cond_Zopp sx (Zpos mx * pow2 (ex - ez)) - cond_Zopp sy (Zpos my * pow2 (ey - ez))).
    assert (HM : M * pow2 (ez + 1074)
                 = ival (S754_finite sx mx ex) - ival (S754_finite sy my ey)).
    { unfold M, ival. rewrite Z.mul_sub_distr_r, !cond_Zopp_mul, <- !Z.mul_assoc.
      rewrite <- !pow2_add by (unfold ez; lia).
      replace (ex - ez + (ez + 1074)) with (ex + 1074) by lia.
      replace (ey - ez + (ez + 1074)) with (ey + 1074) by lia. reflexivity. }
    pose proof (pow2_pos (ez + 1074) ltac:(unfold ez; lia)) as Hp.
    destruct M as [|p|p].
    + left. split; [lia|]. exists false. reflexivity.
    + right. split; [nia|]. rewrite <- HM. simpl binary_normalize.
      apply binary_round_spec. unfold ez. lia.
    + exfalso. nia.
Qed.

Lemma finite_value_bound m e :
  bounded prec emax m e = true -> Zpos m * pow2 (e + 1074) < pow2 2098.
Proof.
  intros H. apply bounded_spec in H as (He & Hd & _).
  destruct (digits_spec (Zpos m)) as [_ [_ H3]]; [lia|].
  pose proof (digits_nonneg (Zpos m)).
  assert (pow2 (digits (Zpos m)) <= pow2 53) by (apply pow2_le; lia).
  assert (pow2 (e + 1074) <= pow2 (2098 - 53)) by (apply pow2_le; lia).
  pose proof (pow2_pos (e + 1074)). 
  change (pow2 2098) with (pow2 53 * pow2 (2098 - 53)).
  assert (0 < pow2 53) by (apply pow2_pos; lia). nia.
Qed.

Lemma rounds_to_number r s v :
  valid_binary r = true -> is_number r = true -> rounds_to r s v ->
  ival r = cond_Zopp s v /\ v < pow2 2098.
Proof.
  intros Vr Nr [[-> _]|(m & e & -> & He & Hv)]; [discriminate|].
  simpl in Vr. pose proof (finite_value_bound m e Vr). unfold ival. rewrite Hv.
  split; [reflexivity|lia].
Qed.

Lemma rounds_to_not_nan r s v : rounds_to r s v -> r <> S754_nan.
Proof. intros [[-> _]|(m & e & -> & _)]; discriminate. Qed.

(** *** On primitive floats *)

Lemma is_finite_number x : is_finite x = true -> is_number (Prim2SF x) = true.
Proof.
  unfold is_finite, is_infinity, is_nan. rewrite !eqb_spec, abs_spec.
  destruct (Prim2SF x) as [s|s| |s m e]; try reflexivity; intros H.
  - exfalso. revert H. change (Prim2SF infinity) with (S754_infinity false).
    simpl. rewrite orb_true_r. discriminate.
  - discriminate H.
Qed.

Definition number (x : float) : Prop := is_number (Prim2SF x) = true.

Lemma leb_ival x y :
  number x -> number y ->
  (x <=? y)%float = true <-> ival (Prim2SF x) <= ival (Prim2SF y).
Proof.
  intros Hx Hy. rewrite leb_spec. unfold SFleb.
  rewrite SFcompare_ival by (auto using Prim2SF_valid).
  destruct (Z.compare_spec (ival (Prim2SF x)) (ival (Prim2SF y))); split; intros; try lia;
    try reflexivity; discriminate.
Qed.

Lemma ltb_ival x y :
  number x -> number y ->
  (x <? y)%float = true <-> ival (Prim2SF x) < ival (Prim2SF y).
Proof.
  intros Hx Hy. rewrite ltb_spec. unfold SFltb.
  rewrite SFcompare_ival by (auto using Prim2SF_valid).
  destruct (Z.compare_spec (ival (Prim2SF x)) (ival (Prim2SF y))); split; intros; try lia;
    try reflexivity; discriminate.
Qed.

Lemma eqb_ival x y :
  number x -> number y ->
  (x =? y)%float = true <-> ival (Prim2SF x) = ival (Prim2SF y).
Proof.
  intros Hx Hy. rewrite eqb_spec. unfold SFeqb.
  rewrite SFcompare_ival by (auto using Prim2SF_valid).
  destruct (Z.compare_spec (ival (Prim2SF x)) (ival (Prim2SF y))); split; intros; try lia;
    try reflexivity; discriminate.
Qed.

(** The difference of two numbers, the larger first, when it is finite. *)
Lemma sub_ival x y :
  number x -> number y -> number (x - y)%float ->
  ival (Prim2SF y) <= ival (Prim2SF x) ->
  ival (Prim2SF (x - y)) = (if ival (Prim2SF x) =? ival (Prim2SF y) then 0
                            else rnd (ival (Prim2SF x) - ival (Prim2SF y))).
Proof.
  intros Hx Hy Hd Hle. unfold number in *. pose proof (Prim2SF_valid (x - y)) as Vd.
  rewrite sub_spec in *.
  destruct (SFsub_rounds (Prim2SF x) (Prim2SF y)) as [[E [s Hs]]|[Hlt Hr]];
    auto using Prim2SF_valid.
  - rewrite E, Z.eqb_refl, Hs. reflexivity.
  - destruct (Z.eqb_spec (ival (Prim2SF x)) (ival (Prim2SF y))); [lia|].
    now destruct (rounds_to_number _ _ _ Vd Hd Hr) as [-> _].
Qed.

(** If the larger difference is finite, so is the smaller. *)
Lemma sub_number x y z :
  number x -> number y -> number z -> number (y - z)%float ->
  ival (Prim2SF z) <= ival (Prim2SF x) <= ival (Prim2SF y) ->
  number (x - z)%float.
Proof.
  intros Hx Hy Hz Hd Hle. unfold number in *.
  pose proof (Prim2SF_valid (y - z)) as Vd. rewrite sub_spec in *.
  destruct (SFsub_rounds (Prim2SF x) (Prim2SF z)) as [[E [s Hs]]|[Hlt Hr]];
    auto using Prim2SF_valid; try lia.
  - now rewrite Hs.
  - destruct (SFsub_rounds (Prim2SF y) (Prim2SF z)) as [[E' _]|[Hlt' Hr']];
      auto using Prim2SF_valid; try lia.
    destruct (rounds_to_number _ _ _ Vd Hd Hr') as [_ Hb].
    pose proof (rnd_mono (ival (Prim2SF x) - ival (Prim2SF z))
                         (ival (Prim2SF y) - ival (Prim2SF z)) ltac:(lia)).
    destruct Hr as [[_ Hinf]|(m & e & -> & _)]; [lia|reflexivity].
Qed.


(** *** Division of a number by a larger one *)

Lemma shr_m_spec rec e sh :
  0 <= shr_m rec ->
  shr_m (fst (shr rec e sh)) = shr_m rec / pow2 (Z.max sh 0) /\
  snd (shr rec e sh) = e + Z.max sh 0.
Proof.
  intros Hm. destruct sh as [|p|p]; cbn [shr fst snd].
  - change (Z.max 0 0) with 0. change (pow2 0) with 1. rewrite Z.div_1_r. lia.
  - replace (Z.max (Zpos p) 0) with (Zpos p) by lia. rewrite iter_pos_nat.
    rewrite iter_shr_m by assumption. rewrite positive_nat_Z. split; reflexivity.
  - change (Z.max (Zneg p) 0) with 0. change (pow2 0) with 1. rewrite Z.div_1_r. lia.
Qed.

Lemma round_nearest_even_bounds m l : m <= round_nearest_even m l <= m + 1.
Proof. destruct l as [|[]]; simpl; try lia. destruct (Z.even m); lia. Qed.

Lemma shr_record_of_loc_m m l : shr_m (shr_record_of_loc m l) = m.
Proof. destruct l as [|[]]; reflexivity. Qed.

Lemma digits_below q a : 0 <= q < pow2 a -> 0 <= a -> digits q <= a.
Proof.
  intros Hq Ha. destruct (Z.eq_dec q 0) as [->|Hne]; [rewrite digits_0; lia|].
  destruct (digits_spec q) as [H1 [H2 _]]; [lia|].
  assert (digits q - 1 < a) by (apply pow2_lt_inv; lia). lia.
Qed.

(** A value below one, truncated to [q * 2^e], rounds to a number not above
    one. *)
Definition at_most_one (r : spec_float) : Prop :=
  (exists s, r = S754_zero s) \/
  (exists m e, r = S754_finite false m e /\ e <= 0 /\ Zpos m <= pow2 (- e)).

Lemma round_aux_below_one q e l :
  0 <= q -> e <= 0 -> q < pow2 (- e) ->
  at_most_one (binary_round_aux prec emax false q e l).
Proof.
  intros Hq He Hlt. rewrite binary_round_aux_unfold. cbv zeta.
  change (shr_fexp prec emax q e l)
    with (shr (shr_record_of_loc q l) e (fexp prec emax (digits q + e) - e)).
  pose proof (fexp_eq (digits q + e)) as HF1.
  remember (fexp prec emax (digits q + e)) as F1 eqn:EF1.
  pose proof (digits_below q (- e) ltac:(lia) ltac:(lia)) as Hdq.
  destruct (shr_m_spec (shr_record_of_loc q l) e (F1 - e)) as [Hm1 He1];
    [rewrite shr_record_of_loc_m; lia|].
  rewrite shr_record_of_loc_m in Hm1.
  set (j1 := Z.max (F1 - e) 0) in *.
  set (rec1 := fst (shr (shr_record_of_loc q l) e (F1 - e))) in *.
  rewrite He1.
  set (e1 := e + j1). assert (He1' : e1 <= 0) by (unfold e1, j1; lia).
  pose proof (round_nearest_even_bounds (shr_m rec1) (loc_of_shr_record rec1)) as B1.
  set (m1 := round_nearest_even (shr_m rec1) (loc_of_shr_record rec1)) in *.
  assert (Hj1 : 0 <= j1) by (unfold j1; lia).
  pose proof (pow2_pos j1 Hj1) as Pj1.
  assert (Hm1' : 0 <= shr_m rec1 < pow2 (- e1)).
  { rewrite Hm1. split; [apply Z.div_pos; lia|].
    apply Z.div_lt_upper_bound; [lia|].
    rewrite <- pow2_add by (unfold e1; lia).
    replace (j1 + - e1) with (- e) by (unfold e1; lia). assumption. }
  assert (Hm1b : 0 <= m1 <= pow2 (- e1)) by lia.
  rewrite shr_fexp_exact.
  pose proof (fexp_eq (digits m1 + e1)) as HF2.
  remember (fexp prec emax (digits m1 + e1)) as F2 eqn:EF2.
  assert (Hdm : digits m1 <= - e1 + 1).
  { apply digits_below; [|lia]. rewrite pow2_succ by lia.
    pose proof (pow2_pos (- e1)). lia. }
  destruct (shr_m_spec (exact m1) e1 (F2 - e1)) as [Hm2 He2]; [simpl; lia|].
  simpl shr_m in Hm2 at 2. rewrite He2, Hm2.
  set (j2 := Z.max (F2 - e1) 0) in *.
  assert (Hj2 : 0 <= j2) by (unfold j2; lia).
  pose proof (pow2_pos j2 Hj2) as Pj2.
  assert (He2' : e1 + j2 <= 0) by (unfold j2; lia).
  assert (Hm2' : 0 <= m1 / pow2 j2 <= pow2 (- (e1 + j2))).
  { split; [apply Z.div_pos; lia|].
    apply Z.div_le_upper_bound; [lia|].
    rewrite <- pow2_add by lia.
    replace (j2 + - (e1 + j2)) with (- e1) by lia. lia. }
  destruct (m1 / pow2 j2) as [|p|p] eqn:Em.
  - left. eauto.
  - right. change (emax - prec) with 971.
    destruct (Z.leb_spec (e1 + j2) 971); [|lia].
    exists p, (e1 + j2). split; [reflexivity|]. split; lia.
  - lia.
Qed.

Lemma div_core_below_one mn en md ed :
  en <= ed -> Zpos mn * pow2 (ed - en) > 0 ->
  Zpos mn < Zpos md * pow2 (ed - en) ->
  let '(q, e, l) := SFdiv_core_binary prec emax (Zpos mn) en (Zpos md) ed in
  0 <= q /\ e <= 0 /\ q < pow2 (- e).
Proof.
  intros Hle _ Hlt. unfold SFdiv_core_binary.
  set (F := fexp prec emax (Zdigits2 (Zpos mn) + en - (Zdigits2 (Zpos md) + ed))).
  set (e' := Z.min F (en - ed)).
  assert (He' : e' <= en - ed) by (unfold e'; lia).
  set (sh := en - ed - e'). assert (Hsh : 0 <= sh) by (unfold sh; lia).
  assert (Hm' : match sh with
                | Zpos _ => Z.shiftl (Zpos mn) sh
                | Z0 => Zpos mn
                | Zneg _ => 0
                end = Zpos mn * pow2 sh).
  { destruct sh as [|p|p] eqn:E; try lia.
    - change (pow2 0) with 1. lia.
    - rewrite Z.shiftl_mul_pow2 by lia. reflexivity. }
  rewrite Hm'.
  pose proof (pow2_pos sh Hsh) as Psh.
  pose proof (Z.div_eucl_eq (Zpos mn * pow2 sh) (Zpos md) ltac:(lia)) as Hdiv.
  pose proof (Z.mod_pos_bound (Zpos mn * pow2 sh) (Zpos md) ltac:(lia)) as Hmod.
  unfold Z.modulo in Hmod.
  destruct (Z.div_eucl (Zpos mn * pow2 sh) (Zpos md)) as [q r].
  assert (Hp : pow2 (- e') = pow2 (ed - en) * pow2 sh).
  { rewrite <- pow2_add by lia. f_equal. unfold sh. lia. }
  split; [nia|]. split; [lia|]. rewrite Hp. nia.
Qed.

Lemma SFdiv_below_one mn en md ed :
  bounded prec emax mn en = true -> bounded prec emax md ed = true ->
  Zpos mn * pow2 (en + 1074) < Zpos md * pow2 (ed + 1074) ->
  at_most_one (SF64div (S754_finite false mn en) (S754_finite false md ed)).
Proof.
  intros Vn Vd Hlt. unfold SF64div, SFdiv.
  pose proof (canonical_compare mn en md ed Vn Vd) as C.
  apply bounded_spec in Vn as (Hen & _), Vd as (Hed & _).
  assert (Hle : en <= ed).
  { destruct (Z.compare_spec en ed); try lia.
    symmetry in C. apply Z.compare_gt_iff in C. lia. }
  assert (Hv : Zpos mn < Zpos md * pow2 (ed - en)).
  { replace (ed + 1074) with (ed - en + (en + 1074)) in Hlt by lia.
    rewrite (pow2_add (ed - en) (en + 1074)) in Hlt by lia.
    pose proof (pow2_pos (en + 1074)). nia. }
  pose proof (div_core_below_one mn en md ed Hle) as H.
  destruct (SFdiv_core_binary prec emax (Zpos mn) en (Zpos md) ed) as [[q e] l].
  destruct H as (Hq & He & Hqe); [pose proof (pow2_pos (ed - en)); nia|assumption|].
  simpl xorb. now apply round_aux_below_one.
Qed.

Lemma SFdiv_self m e :
  SF64div (S754_finite false m e) (S754_finite false m e) = Prim2SF 1.
Proof.
  unfold SF64div, SFdiv, SFdiv_core_binary.
  rewrite !Z.sub_diag. change (fexp prec emax 0) with (-53).
  change (Z.min (-53) 0) with (-53). change (0 - -53) with 53.
  rewrite Z.shiftl_mul_pow2 by lia.
  assert (Hq : (Zpos m * 2 ^ 53) / Zpos m = 2 ^ 53)
    by (rewrite Z.mul_comm; apply Z.div_mul; lia).
  assert (Hr : (Zpos m * 2 ^ 53) mod Zpos m = 0)
    by (rewrite Z.mul_comm; apply Z.mod_mul; lia).
  unfold Z.div, Z.modulo in Hq, Hr.
  destruct (Z.div_eucl (Zpos m * 2 ^ 53) (Zpos m)) as [q r]. subst q r.
  assert (Hl : new_location (Zpos m) 0 = loc_Exact)
    by (unfold new_location; destruct (Z.even (Zpos m)); reflexivity).
  rewrite Hl. reflexivity.
Qed.

Lemma at_most_one_ival r :
  valid_binary r = true -> at_most_one r ->
  is_number r = true /\ 0 <= ival r <= pow2 1074.
Proof.
  intros Vr [[s ->]|(m & e & -> & He & Hm)].
  - split; [reflexivity|]. simpl. pose proof (pow2_pos 1074). lia.
  - split; [reflexivity|]. simpl in Vr. apply bounded_spec in Vr as (He' & _).
    unfold ival, cond_Zopp. pose proof (pow2_pos (e + 1074)).
    assert (Hp : pow2 1074 = pow2 (- e) * pow2 (e + 1074)).
    { rewrite <- pow2_add by lia. f_equal. lia. }
    rewrite Hp. split; [lia|]. apply Z.mul_le_mono_nonneg_r; lia.
Qed.

Lemma ival_one : ival (Prim2SF 1) = pow2 1074.
Proof. reflexivity. Qed.

Lemma ival_zero : ival (Prim2SF 0) = 0.
Proof. reflexivity. Qed.

Lemma number_one : number 1.
Proof. reflexivity. Qed.

Lemma number_zero : number 0.
Proof. reflexivity. Qed.

(** A number with a positive value is finite with sign [+]. *)
Lemma positive_number x :
  is_number x = true -> 0 < ival x -> exists m e, x = S754_finite false m e.
Proof.
  destruct x as [s|s| |s m e]; try discriminate; intros _ H; unfold ival in H; try lia.
  destruct s; [|eauto]. exfalso. unfold cond_Zopp in H.
  assert (0 <= pow2 (e + 1074)) by (unfold pow2; apply Z.pow_nonneg; lia). nia.
Qed.

Lemma zero_number x : is_number x = true -> valid_binary x = true -> ival x = 0 ->
  exists s, x = S754_zero s.
Proof.
  destruct x as [s|s| |s m e]; try discriminate; intros _ V H; [eauto|].
  simpl in V. apply bounded_spec in V as (He & _).
  pose proof (ival_finite_pos m e ltac:(lia)). unfold ival, cond_Zopp in H.
  destruct s; lia.
Qed.

Lemma div_unit n d :
  number n -> number d ->
  0 <= ival (Prim2SF n) <= ival (Prim2SF d) -> 0 < ival (Prim2SF d) ->
  number (n / d)%float /\
  0 <= ival (Prim2SF (n / d)) <= pow2 1074 /\
  (ival (Prim2SF n) = 0 -> ival (Prim2SF (n / d)) = 0) /\
  (ival (Prim2SF n) = ival (Prim2SF d) -> ival (Prim2SF (n / d)) = pow2 1074).
Proof.
  intros Hn Hd Hle Hpos. unfold number in *.
  pose proof (Prim2SF_valid n) as Vn. pose proof (Prim2SF_valid d) as Vd.
  pose proof (Prim2SF_valid (n / d)) as Vq. rewrite div_spec in *.
  destruct (positive_number _ Hd Hpos) as (md & ed & Ed). rewrite Ed in *.
  destruct (Z.eq_dec (ival (Prim2SF n)) 0) as [E0|Hn0].
  - destruct (zero_number _ Hn Vn E0) as [s Es]. rewrite Es in *.
    change (SF64div (S754_zero s) (S754_finite false md ed)) with (S754_zero (xorb s false)).
    change (ival (S754_zero (xorb s false))) with 0. change (ival (S754_zero s)) with 0.
    pose proof (pow2_pos 1074).
    split; [reflexivity|]. split; [lia|]. split; [reflexivity|]. intros. lia.
  - destruct (positive_number _ Hn ltac:(lia)) as (mn & en & En). rewrite En in *.
    destruct (Z.eq_dec (ival (S754_finite false mn en)) (ival (S754_finite false md ed)))
      as [E|Hne].
    + assert (C : SFcompare (S754_finite false mn en) (S754_finite false md ed) = Some Eq).
      { rewrite SFcompare_ival by (assumption || reflexivity). rewrite E.
        now rewrite Z.compare_refl. }
      apply SFcompare_finite_eq in C as (_ & -> & ->).
      rewrite SFdiv_self. pose proof (pow2_pos 1074).
      rewrite ival_one. split; [reflexivity|]. split; [lia|]. split; [intros; lia|reflexivity].
    + simpl in Vn, Vd.
      pose proof (SFdiv_below_one mn en md ed Vn Vd) as H.
      destruct (at_most_one_ival _ Vq (H ltac:(unfold ival, cond_Zopp in *; lia))) as [Hq Hb].
      split; [assumption|]. split; [assumption|]. split; intros; lia.
Qed.

End Binary64.

(** ** Normalization of a column of finite values *)

Lemma is_finite_present x : is_finite x = true -> present x.
Proof.
  unfold is_finite, present. intros H. apply negb_true_iff, orb_false_iff in H. tauto.
Qed.

Section NormalizedValues.
Variable s : Series.t.
Hypothesis Hfin : Forall (fun x => is_finite x = true) s.
Hypothesis Hlt : PrimFloat.ltb (Series.min s) (Series.max s) = true.
Hypothesis Hrange : is_finite (Series.max s - Series.min s) = true.
Variable x : float.
Hypothesis Hx : In x s.

Let lo := Series.min s.
Let hi := Series.max s.

Lemma column_number y : In y s -> Binary64.number y.
Proof.
  intros Hy. apply Binary64.is_finite_number. rewrite Forall_forall in Hfin. auto.
Qed.

Lemma column_present y : In y s -> present y.
Proof. intros Hy. apply is_finite_present. rewrite Forall_forall in Hfin. auto. Qed.

Lemma lo_number : Binary64.number lo.
Proof. apply column_number. apply (min_in s x Hx (column_present x Hx)). Qed.

Lemma hi_number : Binary64.number hi.
Proof. apply column_number. apply (max_in s x Hx (column_present x Hx)). Qed.

Lemma range_number : Binary64.number (hi - lo).
Proof. now apply Binary64.is_finite_number. Qed.

Lemma x_between :
  (Binary64.ival (Prim2SF lo) <= Binary64.ival (Prim2SF x) <= Binary64.ival (Prim2SF hi))%Z.
Proof.
  pose proof (column_number x Hx) as Nx. pose proof (column_present x Hx) as Px.
  split.
  - apply (Binary64.leb_ival lo x lo_number Nx). now apply min_le.
  - apply (Binary64.leb_ival x hi Nx hi_number). now apply le_max.
Qed.

Lemma lo_below_hi : (Binary64.ival (Prim2SF lo) < Binary64.ival (Prim2SF hi))%Z.
Proof. apply (Binary64.ltb_ival lo hi lo_number hi_number). exact Hlt. Qed.

Lemma range_value :
  Binary64.ival (Prim2SF (hi - lo))
  = Binary64.rnd (Binary64.ival (Prim2SF hi) - Binary64.ival (Prim2SF lo)).
Proof.
  pose proof lo_below_hi.
  rewrite (Binary64.sub_ival hi lo hi_number lo_number range_number) by lia.
  destruct (Z.eqb_spec (Binary64.ival (Prim2SF hi)) (Binary64.ival (Prim2SF lo))); [lia|].
  reflexivity.
Qed.

Lemma numerator_number : Binary64.number (x - lo).
Proof.
  apply (Binary64.sub_number x hi lo (column_number x Hx) hi_number lo_number range_number).
  exact x_between.
Qed.

Lemma numerator_value :
  Binary64.ival (Prim2SF (x - lo))
  = if (Binary64.ival (Prim2SF x) =? Binary64.ival (Prim2SF lo))%Z then 0%Z
    else Binary64.rnd (Binary64.ival (Prim2SF x) - Binary64.ival (Prim2SF lo)).
Proof.
  apply (Binary64.sub_ival x lo (column_number x Hx) lo_number numerator_number).
  apply x_between.
Qed.

Lemma numerator_bounds :
  (0 <= Binary64.ival (Prim2SF (x - lo)) <= Binary64.ival (Prim2SF (hi - lo)))%Z /\
  (0 < Binary64.ival (Prim2SF (hi - lo)))%Z.
Proof.
  pose proof x_between as Hb. pose proof lo_below_hi as Hl.
  rewrite numerator_value, range_value.
  pose proof (Binary64.rnd_pos
    (Binary64.ival (Prim2SF hi) - Binary64.ival (Prim2SF lo)) ltac:(lia)) as Hp.
  destruct (Z.eqb_spec (Binary64.ival (Prim2SF x)) (Binary64.ival (Prim2SF lo))).
  - lia.
  - pose proof (Binary64.rnd_pos
      (Binary64.ival (Prim2SF x) - Binary64.ival (Prim2SF lo)) ltac:(lia)).
    pose proof (Binary64.rnd_mono
      (Binary64.ival (Prim2SF x) - Binary64.ival (Prim2SF lo))
      (Binary64.ival (Prim2SF hi) - Binary64.ival (Prim2SF lo)) ltac:(lia)).
    lia.
Qed.

(** The normalized value of [x]: in [[0, 1]], 1 at the maximum, 0 at the
    minimum. *)
Lemma normalized_value :
  let y := ((x - lo) / (hi - lo))%float in
  PrimFloat.leb 0 y = true /\ PrimFloat.leb y 1 = true /\
  (PrimFloat.eqb x hi = true -> PrimFloat.eqb y 1 = true) /\
  (PrimFloat.eqb x lo = true -> PrimFloat.eqb y 0 = true).
Proof.
  intros y. destruct numerator_bounds as [Hn Hd].
  destruct (Binary64.div_unit (x - lo) (hi - lo) numerator_number range_number Hn Hd)
    as (Ny & Hy & Hzero & Hone).
  fold y in Ny, Hy, Hzero, Hone.
  split; [|split; [|split]].
  - apply (Binary64.leb_ival 0 y Binary64.number_zero Ny). rewrite Binary64.ival_zero. lia.
  - apply (Binary64.leb_ival y 1 Ny Binary64.number_one). rewrite Binary64.ival_one. lia.
  - intros E. apply (Binary64.eqb_ival x hi (column_number x Hx) hi_number) in E.
    apply (Binary64.eqb_ival y 1 Ny Binary64.number_one). rewrite Binary64.ival_one.
    apply Hone. rewrite numerator_value, range_value, E.
    pose proof lo_below_hi.
    destruct (Z.eqb_spec (Binary64.ival (Prim2SF hi)) (Binary64.ival (Prim2SF lo))); [lia|].
    reflexivity.
  - intros E. apply (Binary64.eqb_ival x lo (column_number x Hx) lo_number) in E.
    apply (Binary64.eqb_ival y 0 Ny Binary64.number_zero). rewrite Binary64.ival_zero.
    apply Hzero. rewrite numerator_value, E. now rewrite Z.eqb_refl.
Qed.
End NormalizedValues.

(** Two values apart put the minimum below the maximum. *)
Lemma distinct_values_range s a b :
  Forall (fun x => is_finite x = true) s ->
  In a s -> In b s -> PrimFloat.eqb a b = false ->
  PrimFloat.ltb (Series.min s) (Series.max s) = true.
Proof.
  intros Hfin Ha Hb Hab.
  assert (Pa : present a) by (apply is_finite_present; rewrite Forall_forall in Hfin; auto).
  assert (Pb : present b) by (apply is_finite_present; rewrite Forall_forall in Hfin; auto).
  destruct (min_in s a Ha Pa) as [_ Plo]. destruct (max_in s a Ha Pa) as [_ Phi].
  destruct (PrimFloat.ltb (Series.min s) (Series.max s)) eqn:E; [reflexivity|].
  exfalso. apply (F64.ltb_false_leb _ _ Plo Phi) in E.
  pose proof (min_le s a Ha Pa). pose proof (le_max s a Ha Pa).
  pose proof (min_le s b Hb Pb). pose proof (le_max s b Hb Pb).
  assert (PrimFloat.eqb a b = true); [|congruence].
  apply F64.leb_antisym.
  - apply F64.leb_trans with (y := Series.max s); [assumption|].
    apply F64.leb_trans with (y := Series.min s); assumption.
  - apply F64.leb_trans with (y := Series.max s); [assumption|].
    apply F64.leb_trans with (y := Series.min s); assumption.
Qed.

(** * The claims *)

(** [select_stocks df top_n], run in [st], returns a reference to the frame
    [out] and leaves the store [st']. *)
Definition selects {K : SortKind} (st : store) (df : ref) (top_n : Z)
  (st' : store) (out : DataFrame) : Prop :=
  exists r, select_stocks df top_n st = Ok (r, st') /\ nth_error (frames st') r = Some out.

Lemma selects_entity_table {K : SortKind} st df d top_n :
  nth_error (frames st) df = Some d -> entity_table d = true ->
  selects st df top_n
    {| frames := frames st ++ allocated (weights (self st)) d top_n; self := self st |}
    (Frame.take_rows (scored (weights (self st)) d) (selection (weights (self st)) d top_n)).
Proof.
  intros Hr Hd. exists (length (frames st) + 3). split.
  - now apply select_stocks_returns.
  - apply returned_frame.
Qed.

(** ** Tables used as instances *)

Definition table_of (ids : list Z) (names : list string)
  (yield nav age buildings ltv roe cap assets : Series.t) : DataFrame :=
  {| index := ids;
     columns := [("投資法人名"%string, ObjCol names);
                 (Col.distribution_yield, NumCol yield);
                 (Col.nav_ratio, NumCol nav);
                 (Col.market_cap, NumCol cap);
                 (Col.asset_size, NumCol assets);
                 (Col.buildings, NumCol buildings);
                 (Col.average_age, NumCol age);
                 (Col.roe, NumCol roe);
                 (Col.ltv, NumCol ltv)] |}.

Definition store_of (d : DataFrame) (w : ScoringWeights) : store :=
  {| frames := [d]; self := {| weights := w |} |}.

(** Two entities, A better than B on every metric. *)
Definition two_entities : DataFrame :=
  table_of [8951; 8952]%Z ["A"; "B"]%string
    [0.05; 0.03]%float [1.0; 1.2]%float [5; 15]%float [10; 5]%float
    [0.4; 0.6]%float [0.08; 0.04]%float [1e11; 5e10]%float [2e11; 1e11]%float.

(** The same, with the same number of buildings in both. *)
Definition same_buildings : DataFrame :=
  table_of [8951; 8952]%Z ["A"; "B"]%string
    [0.05; 0.03]%float [1.0; 1.2]%float [5; 15]%float [10; 10]%float
    [0.4; 0.6]%float [0.08; 0.04]%float [1e11; 5e10]%float [2e11; 1e11]%float.

(** Three entities, the first two with the same figures. *)
Definition two_alike : DataFrame :=
  table_of [8951; 8952; 8953]%Z ["A"; "B"; "C"]%string
    [0.05; 0.05; 0.03]%float [1.0; 1.0; 1.2]%float [5; 5; 15]%float [10; 10; 5]%float
    [0.4; 0.4; 0.6]%float [0.08; 0.08; 0.04]%float [1e11; 1e11; 5e10]%float
    [2e11; 2e11; 1e11]%float.

(** One entity. *)
Definition one_entity : DataFrame :=
  table_of [8951]%Z ["A"]%string
    [0.05]%float [1.0]%float [5]%float [10]%float
    [0.4]%float [0.08]%float [1e11]%float [2e11]%float.

(** No entity. *)
Definition no_entity : DataFrame := table_of [] [] [] [] [] [] [] [] [] [].


Definition negative_nav : DataFrame :=
  table_of [8951; 8952]%Z ["A"; "B"]%string
    [0.05; 0.03]%float [-1; -2]%float [5; 15]%float [10; 5]%float
    [0.4; 0.6]%float [0.08; 0.04]%float [1e11; 5e10]%float [2e11; 1e11]%float.

(** ** C1 *)



(** ** C2 *)

(** A column whose ROE figures are so far apart that their difference is not
    a binary64 number, and one with a missing figure. *)
Definition wide_roe : DataFrame :=
  table_of [8951; 8952]%Z ["A"; "B"]%string
    [0.05; 0.03]%float [1.0; 1.2]%float [5; 15]%float [10; 5]%float
    [0.4; 0.6]%float [-1e308; 1e308]%float [1e11; 5e10]%float [2e11; 1e11]%float.

Definition missing_roe : DataFrame :=
  table_of [8951; 8952; 8953]%Z ["A"; "B"; "C"]%string
    [0.05; 0.03; 0.04]%float [1.0; 1.2; 1.1]%float [5; 15; 10]%float [10; 5; 7]%float
    [0.4; 0.6; 0.5]%float [0.08; 0.04; nan]%float [1e11; 5e10; 7e10]%float
    [2e11; 1e11; 1e11]%float.

Definition two_distinct (s : Series.t) : Prop :=
  exists a b, In a s /\ In b s /\ PrimFloat.eqb a b = false.

(** C2, as the code has it. For a column of finite values, at least two of
    them distinct, whose range [max - min] is finite too, [normalize_column]
    returns [(value - min) / (max - min)] for every row, with minimum and
    maximum over the whole column; every output is in [[0, 1]], a row holding
    the maximum scores 1.0 and a row holding the minimum scores 0.0. *)
Theorem normalized_in_unit_interval st df d column s ascending :
  nth_error (frames st) df = Some d -> Frame.getnum d column = Ok s ->
  Forall (fun x => is_finite x = true) s ->
  two_distinct s ->
  is_finite (Series.max s - Series.min s) = true ->
  exists out,
    normalize_column df column ascending st = Ok (out, st) /\
    length out = length s /\
    forall i, i < length s ->
      let x := nth i s nan in
      let y := nth i out nan in
      y = ((x - Series.min s) / (Series.max s - Series.min s))%float /\
      PrimFloat.leb 0 y = true /\ PrimFloat.leb y 1 = true /\
      (PrimFloat.eqb x (Series.max s) = true -> PrimFloat.eqb y 1 = true) /\
      (PrimFloat.eqb x (Series.min s) = true -> PrimFloat.eqb y 0 = true).
Proof.
  intros Hr Hget Hfin (a & b & Ha & Hb & Hab) Hrange.
  destruct st as [fs sf]. simpl in Hr.
  assert (E : {| frames := fs; self := sf |} = Run.ext fs sf [])
    by (unfold Run.ext; now rewrite app_nil_r).
  assert (Hr' : nth_error (fs ++ []) df = Some d) by (now rewrite app_nil_r).
  exists (normalized s). rewrite E.
  split; [exact (Run.normalize_column_at fs sf [] df d column ascending s Hr' Hget)|].
  split; [apply SeriesFacts.normalized_length|].
  intros i Hi x y.
  assert (Ey : y = ((x - Series.min s) / (Series.max s - Series.min s))%float).
  { unfold y, normalized, Series.div_scalar, Series.sub_scalar. rewrite map_map.
    now apply (SeriesFacts.nth_map_scalar
      (fun v => ((v - Series.min s) / (Series.max s - Series.min s))%float)). }
  split; [exact Ey|]. rewrite Ey.
  apply (normalized_value s Hfin (distinct_values_range s a b Hfin Ha Hb Hab) Hrange x).
  apply nth_In, Hi.
Qed.

Lemma normalized_in_unit_interval_witness :
  exists out,
    normalize_column 0 Col.roe true (store_of two_entities default_weights)
    = Ok (out, store_of two_entities default_weights) /\
    length out = 2 /\
    forall i, i < 2 ->
      let x := nth i [0.08; 0.04]%float nan in
      let y := nth i out nan in
      y = ((x - Series.min [0.08; 0.04]%float)
           / (Series.max [0.08; 0.04]%float - Series.min [0.08; 0.04]%float))%float /\
      PrimFloat.leb 0 y = true /\ PrimFloat.leb y 1 = true /\
      (PrimFloat.eqb x (Series.max [0.08; 0.04]%float) = true -> PrimFloat.eqb y 1 = true) /\
      (PrimFloat.eqb x (Series.min [0.08; 0.04]%float) = true -> PrimFloat.eqb y 0 = true).
Proof.
  apply (normalized_in_unit_interval
           (store_of two_entities default_weights) 0 two_entities Col.roe
           [0.08; 0.04]%float true);
    [reflexivity|reflexivity|repeat constructor| |reflexivity].
  exists 0.08%float, 0.04%float. simpl. auto.
Defined.

(** Two distinct values whose difference overflows: the row of the maximum
    scores [inf/inf], which is [nan].
    Two distinct values and a missing one: the row of the missing one scores
    [nan]. *)
Lemma normalized_outside_unit_interval :
  (two_distinct (num wide_roe Col.roe) /\
   normalize_column 0 Col.roe true (store_of wide_roe default_weights)
   = Ok ([0; nan]%float, store_of wide_roe default_weights) /\
   nth 1 (num wide_roe Col.roe) nan = Series.max (num wide_roe Col.roe) /\
   PrimFloat.eqb nan 1 = false /\ PrimFloat.leb nan 1 = false) /\
  (two_distinct (num missing_roe Col.roe) /\
   normalize_column 0 Col.roe true (store_of missing_roe default_weights)
   = Ok ([1; 0; nan]%float, store_of missing_roe default_weights) /\
   PrimFloat.leb 0 nan = false /\ PrimFloat.leb nan 1 = false).
Proof.
  split.
  - split; [exists (-1e308)%float, 1e308%float; simpl; auto|].
    split; [vm_compute; reflexivity|]. split; [vm_compute; reflexivity|].
    split; reflexivity.
  - split; [exists 0.08%float, 0.04%float; simpl; auto|].
    split; [vm_compute; reflexivity|]. split; reflexivity.
Qed.

(** ** C5 *)

(** C5. For [top_n >= 1], [select_stocks] returns [min(top_n, row_count)] rows;
    it raises nothing when [top_n] exceeds the row count, and then returns every
    row. *)
Theorem row_count_is_min {K : SortKind} st df d top_n :
  nth_error (frames st) df = Some d -> entity_table d = true -> (1 <= top_n)%Z ->
  exists st' out,
    selects st df top_n st' out /\
    Z.of_nat (n_rows out) = Z.min top_n (Z.of_nat (n_rows d)) /\
    ((Z.of_nat (n_rows d) <= top_n)%Z -> n_rows out = n_rows d).
Proof.
  intros Hr Hd Hn. eexists _, _. split; [exact (selects_entity_table st df d top_n Hr Hd)|].
  rewrite output_rows, selection_length by assumption.
  unfold Frame.slice_stop. destruct (0 <=? top_n)%Z eqn:E; lia.
Qed.

Lemma row_count_is_min_witness :
  exists st' out,
    selects (K := stable_kind) (store_of two_entities default_weights) 0 5 st' out /\
    Z.of_nat (n_rows out) = Z.min 5 (Z.of_nat (n_rows two_entities)) /\
    ((Z.of_nat (n_rows two_entities) <= 5)%Z -> n_rows out = n_rows two_entities).
Proof.
  apply (row_count_is_min (K := stable_kind)
           (store_of two_entities default_weights) 0 two_entities 5);
    [reflexivity|reflexivity|lia].
Defined.

(** ** C8 *)

(** C8. On a table without rows [select_stocks] raises nothing and returns a
    table without rows, whatever the weights and [top_n]. *)
Theorem empty_table_selects_nothing {K : SortKind} st df d top_n :
  nth_error (frames st) df = Some d -> entity_table d = true -> n_rows d = 0 ->
  exists st' out, selects st df top_n st' out /\ n_rows out = 0.
Proof.
  intros Hr Hd H0. eexists _, _. split; [exact (selects_entity_table st df d top_n Hr Hd)|].
  rewrite output_rows, selection_length by assumption.
  pose proof (slice_stop_le (n_rows d) top_n). lia.
Qed.

Lemma empty_table_selects_nothing_witness :
  exists st' out,
    selects (K := stable_kind) (store_of no_entity default_weights) 0 5 st' out /\
    n_rows out = 0.
Proof.
  apply (empty_table_selects_nothing (K := stable_kind)
           (store_of no_entity default_weights) 0 no_entity 5);
    reflexivity.
Defined.

(** ** C9 *)

(** C9. [select_stocks] changes no object that existed before the call: the
    input frame and every other frame are as they were, the weights of the
    selector too, and the frame returned is a new object. *)
Theorem inputs_are_not_mutated {K : SortKind} st df d top_n :
  nth_error (frames st) df = Some d -> entity_table d = true ->
  exists r st' out,
    select_stocks df top_n st = Ok (r, st') /\
    nth_error (frames st') r = Some out /\
    nth_error (frames st') df = Some d /\
    (forall l x, nth_error (frames st) l = Some x -> nth_error (frames st') l = Some x) /\
    self st' = self st /\
    nth_error (frames st) r = None /\ r <> df.
Proof.
  intros Hr Hd. eexists _, _, _.
  split; [exact (select_stocks_returns st df d top_n Hr Hd)|].
  split; [apply returned_frame|]. simpl.
  assert (Hold : forall l x, nth_error (frames st) l = Some x ->
                   nth_error (frames st ++ allocated (weights (self st)) d top_n) l = Some x)
    by (intros l x; apply Run.nth_error_old).
  split; [now apply Hold|]. split; [exact Hold|]. split; [reflexivity|].
  assert (Hlt : df < length (frames st)) by (apply nth_error_Some; congruence).
  split; [apply nth_error_None; lia|lia].
Qed.

Lemma inputs_are_not_mutated_witness :
  exists r st' out,
    select_stocks (K := stable_kind) 0 2 (store_of two_entities default_weights)
    = Ok (r, st') /\
    nth_error (frames st') r = Some out /\
    nth_error (frames st') 0 = Some two_entities /\
    (forall l x, nth_error (frames (store_of two_entities default_weights)) l = Some x ->
                 nth_error (frames st') l = Some x) /\
    self st' = self (store_of two_entities default_weights) /\
    nth_error (frames (store_of two_entities default_weights)) r = None /\ r <> 0.
Proof.
  apply (inputs_are_not_mutated (K := stable_kind)
           (store_of two_entities default_weights) 0 two_entities 2);
    reflexivity.
Defined.

(** ** C6 *)

(** The composite scores of a returned frame, top row first. *)
Definition returned_scores (out : DataFrame) : Series.t := num out Col.total_score.

(** Descending as the claim has it: each score is at least the next one. *)
Definition descending (c : Series.t) : Prop :=
  forall i, S i < length c -> PrimFloat.leb (nth (S i) c nan) (nth i c nan) = true.

(** Descending with the missing scores last. *)
Definition descending_nan_last (c : Series.t) : Prop :=
  forall i, S i < length c -> may_follow (nth i c nan) (nth (S i) c nan).

Lemma returned_scores_take w d sel :
  returned_scores (Frame.take_rows (scored w d) sel) = Frame.take nan (composite_scores w d) sel.
Proof. apply num_take_rows_ok, scored_total. Qed.

(** C6, as the code has it. For every entity table and weights the rows
    returned are in descending order of composite score, the rows whose score
    is [nan] last: in every adjacent pair the second score is [nan], or
    neither is and the first is at least the second. *)
Theorem sorted_by_composite_score {K : SortKind} st df d top_n :
  nth_error (frames st) df = Some d -> entity_table d = true ->
  exists st' out,
    selects st df top_n st' out /\ descending_nan_last (returned_scores out).
Proof.
  intros Hr Hd. eexists _, _. split; [exact (selects_entity_table st df d top_n Hr Hd)|].
  set (w := weights (self st)). rewrite returned_scores_take.
  intros i Hi. rewrite take_length in Hi. rewrite !nth_take by lia.
  apply (pairs_nth (fun p q => may_follow (nth p (composite_scores w d) nan)
                                          (nth q (composite_scores w d) nan)) 0);
    [|lia|assumption].
  apply pairs_firstn, nargsort_descends.
Qed.

Lemma sorted_by_composite_score_witness :
  exists st' out,
    selects (K := stable_kind) (store_of two_entities default_weights) 0 2 st' out /\
    descending_nan_last (returned_scores out).
Proof.
  apply (sorted_by_composite_score (K := stable_kind)
           (store_of two_entities default_weights) 0 two_entities 2);
    reflexivity.
Defined.

(** Two rows with the same number of buildings: that column normalizes to
    [0/0], every composite score is [nan], and [nan >= nan] is false. *)
Lemma not_descending_when_degenerate :
  exists st' out,
    selects (K := stable_kind) (store_of same_buildings default_weights) 0 2 st' out /\
    n_rows out = 2 /\ ~ descending (returned_scores out).
Proof.
  eexists _, _.
  split; [exact (selects_entity_table (K := stable_kind)
                   (store_of same_buildings default_weights) 0 same_buildings 2
                   eq_refl eq_refl)|].
  split; [reflexivity|].
  intros H. specialize (H 0). vm_compute in H.
  specialize (H (le_n 2)). discriminate H.
Qed.

(** ** C4 *)










(** ** C10 *)

(** C10. [normalize_column] does not look at [ascending]; the distribution-yield
    score, which passes [ascending=False], is the plain normalization
    [(value - min) / (max - min)] of its column. *)
Theorem ascending_is_ignored :
  (forall df column, normalize_column df column true = normalize_column df column false) /\
  (forall st df d,
      nth_error (frames st) df = Some d -> entity_table d = true ->
      let s := num d Col.distribution_yield in
      exists out,
        calculate_distribution_yield_score df st = Ok (out, st) /\
        normalize_column df Col.distribution_yield true st = Ok (out, st) /\
        length out = n_rows d /\
        forall i, i < n_rows d ->
          nth i out nan = ((nth i s nan - Series.min s) / (Series.max s - Series.min s))%float).
Proof.
  split; [reflexivity|].
  intros [fs sf] df d Hr Hd s. simpl in Hr.
  assert (E : {| frames := fs; self := sf |} = Run.ext fs sf [])
    by (unfold Run.ext; now rewrite app_nil_r).
  assert (Hr' : nth_error (fs ++ []) df = Some d) by (now rewrite app_nil_r).
  destruct (FrameFacts.entity_numeric d Col.distribution_yield Hd) as [Hget Hlen];
    [simpl; tauto|].
  exists (normalized s). rewrite E.
  split; [exact (Run.distribution_yield_at fs sf [] df d Hr' Hd)|].
  split; [exact (Run.normalize_column_at fs sf [] df d _ true _ Hr' Hget)|].
  split; [unfold s; now rewrite SeriesFacts.normalized_length|].
  intros i Hi. unfold normalized, Series.div_scalar, Series.sub_scalar.
  rewrite map_map. apply (SeriesFacts.nth_map_scalar
    (fun x => ((x - Series.min s) / (Series.max s - Series.min s))%float)).
  unfold s. now rewrite Hlen.
Qed.

Lemma ascending_is_ignored_witness :
  exists out,
    calculate_distribution_yield_score 0
      (store_of two_entities default_weights)
    = Ok (out, store_of two_entities default_weights) /\
    normalize_column 0 Col.distribution_yield true (store_of two_entities default_weights)
    = Ok (out, store_of two_entities default_weights) /\
    length out = 2 /\
    forall i, i < 2 ->
      nth i out nan
      = ((nth i [0.05; 0.03]%float nan - Series.min [0.05; 0.03]%float)
         / (Series.max [0.05; 0.03]%float - Series.min [0.05; 0.03]%float))%float.
Proof.
  apply (proj2 ascending_is_ignored
           (store_of two_entities default_weights) 0 two_entities);
    reflexivity.
Defined.

(** ** C3

    The claim about the NAV-ratio score is stated after the bounds of that
    score, with the further properties. *)

(** ** C7 *)

(** C7. When the maximum of a column equals its minimum, as in a table of one
    row, [normalize_column] raises nothing and returns, for every row, a value
    that is not finite: [0/0], which is [nan]. *)
Theorem degenerate_column_is_not_finite st df d column s ascending :
  nth_error (frames st) df = Some d -> Frame.getnum d column = Ok s ->
  PrimFloat.eqb (Series.max s) (Series.min s) = true ->
  exists out,
    normalize_column df column ascending st = Ok (out, st) /\
    length out = length s /\
    Forall (fun y => is_nan y = true /\ is_finite y = false) out.
Proof.
  intros Hr Hget Hdeg. destruct st as [fs sf]. simpl in Hr.
  assert (E : {| frames := fs; self := sf |} = Run.ext fs sf [])
    by (unfold Run.ext; now rewrite app_nil_r).
  assert (Hr' : nth_error (fs ++ []) df = Some d) by (now rewrite app_nil_r).
  exists (normalized s). rewrite E.
  split; [exact (Run.normalize_column_at fs sf [] df d column ascending s Hr' Hget)|].
  split; [apply SeriesFacts.normalized_length|].
  eapply Forall_impl; [|apply degenerate_normalized, Hdeg].
  intros y Hy. split; [assumption|]. unfold is_finite. now rewrite Hy.
Qed.

Lemma degenerate_column_is_not_finite_witness :
  exists out,
    normalize_column 0 Col.roe true (store_of one_entity default_weights)
    = Ok (out, store_of one_entity default_weights) /\
    length out = 1 /\
    Forall (fun y => is_nan y = true /\ is_finite y = false) out.
Proof.
  apply (degenerate_column_is_not_finite
           (store_of one_entity default_weights) 0 one_entity Col.roe [0.08]%float true);
    reflexivity.
Defined.

(** * Further properties of the selector *)

(** ** The rows returned *)

Lemma slice_stop_nonneg len n :
  (0 <= n)%Z -> Frame.slice_stop len n = Nat.min (Z.to_nat n) len.
Proof.
  intros Hn. unfold Frame.slice_stop. destruct (Z.leb_spec 0 n); [reflexivity|lia].
Qed.

Lemma slice_stop_all len n : (Z.of_nat len <= n)%Z -> Frame.slice_stop len n = len.
Proof.
  intros Hn. unfold Frame.slice_stop. destruct (Z.leb_spec 0 n); lia.
Qed.

Lemma selection_all {K : SortKind} w d n :
  entity_table d = true -> (Z.of_nat (n_rows d) <= n)%Z -> selection w d n = ranking w d.
Proof.
  intros Hd Hn. unfold selection. rewrite slice_stop_all by assumption.
  rewrite <- (ranking_length w d Hd). apply firstn_all.
Qed.

Lemma selection_nodup {K : SortKind} w d n : NoDup (selection w d n).
Proof.
  unfold selection, ranking.
  pose proof (nargsort_nodup (composite_scores w d)) as H.
  rewrite <- (firstn_skipn (Frame.slice_stop (n_rows d) n)) in H.
  now apply NoDup_app_remove_r in H.
Qed.

Lemma head_take_rows d sel n :
  Frame.head (Frame.take_rows d sel) n
  = Frame.take_rows d (firstn (Frame.slice_stop (length sel) n) sel).
Proof.
  unfold Frame.head. cbn [index Frame.take_rows]. rewrite take_length.
  apply take_rows_take_rows, slice_stop_le.
Qed.

(** X1. [select_stocks] never returns more rows than the table has; with
    [top_n = 0] it returns no row, and with a negative [top_n] it returns
    [max(0, rows + top_n)] rows ([head(top_n)] is [iloc[:top_n]], which
    leaves out the last [-top_n] rows). *)
Theorem row_count_for_every_top_n {K : SortKind} st df d top_n :
  nth_error (frames st) df = Some d -> entity_table d = true ->
  exists st' out,
    selects st df top_n st' out /\
    n_rows out <= n_rows d /\
    (top_n = 0%Z -> n_rows out = 0) /\
    ((top_n < 0)%Z -> Z.of_nat (n_rows out) = Z.max 0 (Z.of_nat (n_rows d) + top_n)).
Proof.
  intros Hr Hd. eexists _, _. split; [exact (selects_entity_table st df d top_n Hr Hd)|].
  rewrite output_rows, selection_length by assumption.
  split; [apply slice_stop_le|].
  unfold Frame.slice_stop. split; intros H.
  - subst top_n. reflexivity.
  - destruct (Z.leb_spec 0 top_n); lia.
Qed.

Lemma row_count_for_every_top_n_witness :
  (exists st' out,
     selects (K := stable_kind) (store_of two_alike default_weights) 0 0 st' out /\
     n_rows out = 0) /\
  (exists st' out,
     selects (K := stable_kind) (store_of two_alike default_weights) 0 (-1) st' out /\
     n_rows out = 2) /\
  (exists st' out,
     selects (K := stable_kind) (store_of two_alike default_weights) 0 (-7) st' out /\
     n_rows out = 0).
Proof.
  split; [|split].
  - destruct (row_count_for_every_top_n (K := stable_kind)
                (store_of two_alike default_weights) 0 two_alike 0 eq_refl eq_refl)
      as (st' & out & H & _ & H0 & _).
    exists st', out. split; [exact H|]. apply H0. reflexivity.
  - destruct (row_count_for_every_top_n (K := stable_kind)
                (store_of two_alike default_weights) 0 two_alike (-1) eq_refl eq_refl)
      as (st' & out & H & _ & _ & Hneg).
    exists st', out. split; [exact H|].
    specialize (Hneg ltac:(lia)). unfold n_rows in Hneg at 2. simpl in Hneg. lia.
  - destruct (row_count_for_every_top_n (K := stable_kind)
                (store_of two_alike default_weights) 0 two_alike (-7) eq_refl eq_refl)
      as (st' & out & H & _ & _ & Hneg).
    exists st', out. split; [exact H|].
    specialize (Hneg ltac:(lia)). unfold n_rows in Hneg at 2. simpl in Hneg. lia.
Defined.

(** X2. The ranking does not depend on [top_n]: for [0 <= n <= m], and for
    every [n] when [m] is at least the number of rows, the frame returned for
    [n] is the first [n] rows ([head(n)]) of the frame returned for [m]. *)
Theorem smaller_top_n_is_a_prefix {K : SortKind} st df d n m :
  nth_error (frames st) df = Some d -> entity_table d = true ->
  (0 <= n <= m)%Z \/ (Z.of_nat (n_rows d) <= m)%Z ->
  exists st_n out_n st_m out_m,
    selects st df n st_n out_n /\ selects st df m st_m out_m /\
    out_n = Frame.head out_m n.
Proof.
  intros Hr Hd Hnm. eexists _, _, _, _.
  split; [exact (selects_entity_table st df d n Hr Hd)|].
  split; [exact (selects_entity_table st df d m Hr Hd)|].
  set (w := weights (self st)).
  rewrite head_take_rows. f_equal.
  rewrite selection_length by assumption.
  destruct Hnm as [Hnm|Hm].
  - unfold selection. rewrite firstn_firstn. f_equal.
    rewrite !slice_stop_nonneg by lia. lia.
  - rewrite (selection_all w d m Hd Hm), (slice_stop_all (n_rows d) m Hm). reflexivity.
Qed.

Lemma smaller_top_n_is_a_prefix_witness :
  exists st_n out_n st_m out_m,
    selects (K := stable_kind) (store_of two_alike default_weights) 0 1 st_n out_n /\
    selects (K := stable_kind) (store_of two_alike default_weights) 0 2 st_m out_m /\
    out_n = Frame.head out_m 1.
Proof.
  apply (smaller_top_n_is_a_prefix (K := stable_kind)
           (store_of two_alike default_weights) 0 two_alike 1 2);
    [reflexivity|reflexivity|left; lia].
Defined.

(** ** The columns returned *)

Definition column_names (d : DataFrame) : list string := map fst (columns d).

(** The columns [select_stocks] adds, in the order it adds them to [result]. *)
Definition score_columns : list string :=
  [Col.total_score; Col.distribution_yield_score; Col.nav_ratio_score;
   Col.portfolio_quality_score; Col.financial_health_score; Col.market_position_score].

Lemma existsb_eqb_in k l : existsb (String.eqb k) l = true <-> In k l.
Proof.
  rewrite existsb_exists. split.
  - intros (x & Hx & E). apply String.eqb_eq in E. now subst.
  - intros H. exists k. split; [assumption|apply String.eqb_refl].
Qed.

Lemma assign_names_new cols key c :
  ~ In key (map fst cols) -> map fst (Frame.assign cols key c) = map fst cols ++ [key].
Proof.
  induction cols as [|[k c'] cols IH]; simpl; intros H; [reflexivity|].
  destruct (String.eqb_spec k key) as [->|Hk]; [tauto|]. simpl. f_equal. apply IH. tauto.
Qed.

Lemma assign_names_old cols key c :
  In key (map fst cols) -> map fst (Frame.assign cols key c) = map fst cols.
Proof.
  induction cols as [|[k c'] cols IH]; simpl; intros H; [tauto|].
  destruct (String.eqb_spec k key) as [->|Hk]; [reflexivity|]. simpl. f_equal. apply IH.
  destruct H; [contradiction|assumption].
Qed.

Lemma take_rows_names d sel : column_names (Frame.take_rows d sel) = column_names d.
Proof.
  unfold column_names, Frame.take_rows. simpl. rewrite map_map. reflexivity.
Qed.

Lemma with_column_names_new d key s :
  ~ In key (column_names d) -> column_names (with_column d key s) = column_names d ++ [key].
Proof. apply assign_names_new. Qed.

Lemma with_column_names_old d key s :
  In key (column_names d) -> column_names (with_column d key s) = column_names d.
Proof. apply assign_names_old. Qed.

Ltac apart :=
  let Hin := fresh "Hin" in
  let E := fresh "E" in
  intros Hin; cbn [In] in Hin;
  repeat (destruct Hin as [E|Hin]; [vm_compute in E; discriminate E|]);
  exact Hin.

Lemma scored_names_new w d :
  (forall key, In key score_columns -> ~ In key (column_names d)) ->
  column_names (scored w d) = column_names d ++ score_columns.
Proof.
  intros H. unfold scored.
  assert (Hnew : forall e key s l,
            column_names e = column_names d ++ l -> In key score_columns -> ~ In key l ->
            column_names (with_column e key s) = column_names d ++ (l ++ [key])).
  { intros e key s l He Hk Hl. rewrite with_column_names_new, He, app_assoc; [reflexivity|].
    rewrite He. intros Hin. apply in_app_or in Hin as [Hin|Hin]; [|tauto].
    exact (H key Hk Hin). }
  apply (Hnew _ _ _ [Col.total_score; Col.distribution_yield_score; Col.nav_ratio_score;
                     Col.portfolio_quality_score; Col.financial_health_score]);
    [|simpl; tauto|apart].
  apply (Hnew _ _ _ [Col.total_score; Col.distribution_yield_score; Col.nav_ratio_score;
                     Col.portfolio_quality_score]);
    [|simpl; tauto|apart].
  apply (Hnew _ _ _ [Col.total_score; Col.distribution_yield_score; Col.nav_ratio_score]);
    [|simpl; tauto|apart].
  apply (Hnew _ _ _ [Col.total_score; Col.distribution_yield_score]); [|simpl; tauto|apart].
  apply (Hnew _ _ _ [Col.total_score]); [|simpl; tauto|apart].
  apply (Hnew _ _ _ []); [now rewrite app_nil_r|simpl; tauto|apart].
Qed.

Lemma scored_names_old w d :
  (forall key, In key score_columns -> In key (column_names d)) ->
  column_names (scored w d) = column_names d.
Proof.
  intros H. unfold scored.
  assert (Hold : forall e key s,
            column_names e = column_names d -> In key score_columns ->
            column_names (with_column e key s) = column_names d).
  { intros e key s He Hk. rewrite with_column_names_old, He; [reflexivity|].
    rewrite He. now apply H. }
  repeat (apply Hold; [|simpl; tauto]). reflexivity.
Qed.

(** X3. When the input has none of the six score columns, the frame returned
    has the columns of the input, in their order, followed by the composite
    score and then the five sub-scores in the order they were computed. *)
Theorem scores_are_appended_to_the_columns {K : SortKind} st df d top_n :
  nth_error (frames st) df = Some d -> entity_table d = true ->
  (forall key, In key score_columns -> ~ In key (column_names d)) ->
  exists st' out,
    selects st df top_n st' out /\
    column_names out = column_names d ++ score_columns.
Proof.
  intros Hr Hd Hnew. eexists _, _.
  split; [exact (selects_entity_table st df d top_n Hr Hd)|].
  rewrite take_rows_names. now apply scored_names_new.
Qed.

Lemma scores_are_appended_to_the_columns_witness :
  exists st' out,
    selects (K := stable_kind) (store_of two_entities default_weights) 0 5 st' out /\
    column_names out = column_names two_entities ++ score_columns.
Proof.
  apply (scores_are_appended_to_the_columns (K := stable_kind)
           (store_of two_entities default_weights) 0 two_entities 5);
    [reflexivity|reflexivity|].
  intros key Hk. unfold column_names, two_entities, table_of. cbn [columns map fst].
  unfold score_columns in Hk. cbn [In] in Hk.
  repeat (destruct Hk as [<-|Hk]; [apart|]). destruct Hk.
Defined.

(** ** The rows returned are rows of the input *)

Lemma lookup_scored w d key :
  ~ In key score_columns ->
  Frame.lookup (columns (scored w d)) key = Frame.lookup (columns d) key.
Proof.
  intros Hk. unfold scored, with_column. cbn [columns].
  rewrite !FrameFacts.lookup_assign.
  repeat match goal with
  | |- context [String.eqb ?a key] =>
      destruct (String.eqb_spec a key) as [E|_];
      [exfalso; apply Hk; rewrite <- E; simpl; tauto|]
  end.
  reflexivity.
Qed.

(** X4. Every row returned is a row of the input: there are positions [sel]
    of the input, all within the table and no two the same, such that the
    frame returned has the labels at [sel] and, in every column that is not a
    score column, the input's values at [sel]. *)
Theorem returned_rows_are_input_rows {K : SortKind} st df d top_n :
  nth_error (frames st) df = Some d -> entity_table d = true ->
  exists st' out sel,
    selects st df top_n st' out /\
    NoDup sel /\ (forall p, In p sel -> p < n_rows d) /\
    index out = Frame.take 0%Z (index d) sel /\
    forall key, ~ In key score_columns ->
      Frame.lookup (columns out) key
      = option_map (fun c => Frame.take_column c sel) (Frame.lookup (columns d) key).
Proof.
  intros Hr Hd. eexists _, _, (selection (weights (self st)) d top_n).
  split; [exact (selects_entity_table st df d top_n Hr Hd)|].
  split; [apply selection_nodup|].
  split; [intros p; now apply selection_in|].
  split; [reflexivity|].
  intros key Hk. cbn [columns Frame.take_rows].
  rewrite FrameFacts.lookup_take_rows. now rewrite lookup_scored.
Qed.

Lemma returned_rows_are_input_rows_witness :
  exists st' out sel,
    selects (K := stable_kind) (store_of two_alike default_weights) 0 2 st' out /\
    NoDup sel /\ (forall p, In p sel -> p < n_rows two_alike) /\
    index out = Frame.take 0%Z (index two_alike) sel /\
    forall key, ~ In key score_columns ->
      Frame.lookup (columns out) key
      = option_map (fun c => Frame.take_column c sel) (Frame.lookup (columns two_alike) key).
Proof.
  apply (returned_rows_are_input_rows (K := stable_kind)
           (store_of two_alike default_weights) 0 two_alike 2);
    reflexivity.
Defined.

Lemma take_all {A} (x : A) l : Frame.take x l (seq 0 (length l)) = l.
Proof. rewrite take_seq by lia. apply firstn_all. Qed.

(** X5. When [top_n] is at least the number of rows, every row of the input
    is returned exactly once: the labels returned are a permutation of the
    labels of the input. *)
Theorem every_row_is_returned_once {K : SortKind} st df d top_n :
  nth_error (frames st) df = Some d -> entity_table d = true ->
  (Z.of_nat (n_rows d) <= top_n)%Z ->
  exists st' out,
    selects st df top_n st' out /\ Permutation (index out) (index d).
Proof.
  intros Hr Hd Hn. eexists _, _.
  split; [exact (selects_entity_table st df d top_n Hr Hd)|].
  set (w := weights (self st)). cbn [index Frame.take_rows].
  rewrite (selection_all w d top_n Hd Hn). unfold ranking, Frame.take.
  rewrite (Permutation_map _ (nargsort_perm (composite_scores w d))).
  rewrite (Run.composite_scores_length d Hd w).
  change (Permutation (Frame.take 0%Z (index d) (seq 0 (length (index d)))) (index d)).
  now rewrite take_all.
Qed.

Lemma every_row_is_returned_once_witness :
  exists st' out,
    selects (K := stable_kind) (store_of two_alike default_weights) 0 20 st' out /\
    Permutation (index out) (index two_alike).
Proof.
  apply (every_row_is_returned_once (K := stable_kind)
           (store_of two_alike default_weights) 0 two_alike 20);
    [reflexivity|reflexivity|].
  unfold n_rows. simpl. lia.
Defined.

Lemma store_ext st : st = Run.ext (frames st) (self st) [].
Proof. destruct st as [fs sf]. unfold Run.ext. simpl. now rewrite app_nil_r. Qed.

Lemma frame_ext st df d :
  nth_error (frames st) df = Some d -> nth_error (frames st ++ []) df = Some d.
Proof. now rewrite app_nil_r. Qed.

(** X6. Each row returned carries the sub-scores computed for it: the five
    score columns of the frame returned hold, at the row that came from
    position [p] of the input, the values at [p] of what the five
    calculators return on the input. *)
Theorem scores_follow_their_rows {K : SortKind} st df d top_n :
  nth_error (frames st) df = Some d -> entity_table d = true ->
  exists st' out sel ys ns qs hs ps,
    selects st df top_n st' out /\
    index out = Frame.take 0%Z (index d) sel /\
    calculate_distribution_yield_score df st = Ok (ys, st) /\
    calculate_nav_ratio_score df st = Ok (ns, st) /\
    calculate_portfolio_quality_score df st = Ok (qs, st) /\
    calculate_financial_health_score df st = Ok (hs, st) /\
    calculate_market_position_score df st = Ok (ps, st) /\
    num out Col.distribution_yield_score = Frame.take nan ys sel /\
    num out Col.nav_ratio_score = Frame.take nan ns sel /\
    num out Col.portfolio_quality_score = Frame.take nan qs sel /\
    num out Col.financial_health_score = Frame.take nan hs sel /\
    num out Col.market_position_score = Frame.take nan ps sel.
Proof.
  intros Hr Hd.
  exists {| frames := frames st ++ allocated (weights (self st)) d top_n; self := self st |},
         (Frame.take_rows (scored (weights (self st)) d) (selection (weights (self st)) d top_n)),
         (selection (weights (self st)) d top_n),
         (yield_scores d), (nav_ratio_scores d), (quality_scores d), (health_scores d),
         (position_scores d).
  split; [exact (selects_entity_table st df d top_n Hr Hd)|].
  split; [reflexivity|].
  pose proof (frame_ext st df d Hr) as Hr'.
  rewrite (store_ext st) at 1 2 3 4 5 6 7 8 9 10.
  split; [exact (Run.distribution_yield_at _ _ [] df d Hr' Hd)|].
  split; [exact (Run.nav_ratio_at _ _ [] df d Hr' Hd)|].
  split; [exact (Run.portfolio_quality_at _ _ [] df d Hr' Hd)|].
  split; [exact (Run.financial_health_at _ _ [] df d Hr' Hd)|].
  split; [exact (Run.market_position_at _ _ [] df d Hr' Hd)|].
  set (w := weights (self st)).
  split; [apply num_take_rows_ok, scored_yield|].
  split; [apply num_take_rows_ok, scored_nav|].
  split; [apply num_take_rows_ok, scored_quality|].
  split; [apply num_take_rows_ok, scored_health|].
  apply num_take_rows_ok, scored_position.
Qed.

Lemma scores_follow_their_rows_witness :
  exists st' out sel ys ns qs hs ps,
    selects (K := stable_kind) (store_of two_entities default_weights) 0 1 st' out /\
    index out = Frame.take 0%Z (index two_entities) sel /\
    calculate_distribution_yield_score 0 (store_of two_entities default_weights)
    = Ok (ys, store_of two_entities default_weights) /\
    calculate_nav_ratio_score 0 (store_of two_entities default_weights)
    = Ok (ns, store_of two_entities default_weights) /\
    calculate_portfolio_quality_score 0 (store_of two_entities default_weights)
    = Ok (qs, store_of two_entities default_weights) /\
    calculate_financial_health_score 0 (store_of two_entities default_weights)
    = Ok (hs, store_of two_entities default_weights) /\
    calculate_market_position_score 0 (store_of two_entities default_weights)
    = Ok (ps, store_of two_entities default_weights) /\
    num out Col.distribution_yield_score = Frame.take nan ys sel /\
    num out Col.nav_ratio_score = Frame.take nan ns sel /\
    num out Col.portfolio_quality_score = Frame.take nan qs sel /\
    num out Col.financial_health_score = Frame.take nan hs sel /\
    num out Col.market_position_score = Frame.take nan ps sel.
Proof.
  apply (scores_follow_their_rows (K := stable_kind)
           (store_of two_entities default_weights) 0 two_entities 1);
    reflexivity.
Defined.

(** X7. The rows returned are the best ones: in the full ranking, of which the
    frame returned is the head, every row left out scores no better than
    every row returned (its score is [nan], or neither is [nan] and it is at
    most the other). *)
Theorem rows_left_out_score_no_better {K : SortKind} st df d top_n :
  nth_error (frames st) df = Some d -> entity_table d = true ->
  exists st1 out st2 all,
    selects st df top_n st1 out /\
    selects st df (Z.of_nat (n_rows d)) st2 all /\
    Permutation (index all) (index d) /\
    out = Frame.head all top_n /\
    forall i j, i < n_rows out -> n_rows out <= j < n_rows all ->
      may_follow (nth i (returned_scores all) nan) (nth j (returned_scores all) nan).
Proof.
  intros Hr Hd. eexists _, _, _, _.
  split; [exact (selects_entity_table st df d top_n Hr Hd)|].
  split; [exact (selects_entity_table st df d (Z.of_nat (n_rows d)) Hr Hd)|].
  set (w := weights (self st)).
  assert (Hall : selection w d (Z.of_nat (n_rows d)) = ranking w d)
    by (apply selection_all; [assumption|lia]).
  split; [|split].
  - rewrite Hall. cbn [index Frame.take_rows]. unfold ranking, Frame.take.
    rewrite (Permutation_map _ (nargsort_perm (composite_scores w d))).
    rewrite (Run.composite_scores_length d Hd w).
    change (Permutation (Frame.take 0%Z (index d) (seq 0 (length (index d)))) (index d)).
    now rewrite take_all.
  - rewrite Hall, head_take_rows, (ranking_length w d Hd). reflexivity.
  - rewrite !output_rows, (selection_length w d Hd (Z.of_nat (n_rows d))),
      slice_stop_all by lia.
    rewrite Hall. intros i j Hi Hj. rewrite returned_scores_take.
    rewrite <- (ranking_length w d Hd) in Hj.
    unfold selection in Hi, Hj. rewrite length_firstn in Hi, Hj.
    rewrite !nth_take by lia.
    apply (pairs_nth (fun p q => may_follow (nth p (composite_scores w d) nan)
                                            (nth q (composite_scores w d) nan)) 0);
      [apply nargsort_descends|lia|lia].
Qed.

Lemma rows_left_out_score_no_better_witness :
  exists st1 out st2 all,
    selects (K := stable_kind) (store_of two_entities default_weights) 0 1 st1 out /\
    selects (K := stable_kind) (store_of two_entities default_weights) 0
      (Z.of_nat (n_rows two_entities)) st2 all /\
    Permutation (index all) (index two_entities) /\
    out = Frame.head all 1 /\
    forall i j, i < n_rows out -> n_rows out <= j < n_rows all ->
      may_follow (nth i (returned_scores all) nan) (nth j (returned_scores all) nan).
Proof.
  apply (rows_left_out_score_no_better (K := stable_kind)
           (store_of two_entities default_weights) 0 two_entities 1);
    reflexivity.
Defined.

(** ** A column without a range

    When one of the seven normalized columns has its maximum equal to its
    minimum, the missing value that normalization produces reaches every
    composite score, and sorting by a column of missing values keeps the
    rows where they were. *)

Definition all_nan (s : Series.t) : Prop := Forall (fun y => is_nan y = true) s.

(** The columns that go through [normalize_column]. *)
Definition normalized_columns : list string :=
  [Col.distribution_yield; Col.average_age; Col.buildings; Col.ltv; Col.roe;
   Col.market_cap; Col.asset_size].

Module NanFacts.

Lemma add_nan_l x y : is_nan x = true -> is_nan (x + y) = true.
Proof.
  intros H. apply F64.is_nan_spec in H. apply F64.is_nan_spec.
  now rewrite add_spec, H.
Qed.

Lemma add_nan_r x y : is_nan y = true -> is_nan (x + y) = true.
Proof.
  intros H. apply F64.is_nan_spec in H. apply F64.is_nan_spec.
  rewrite add_spec, H. now destruct (Prim2SF x).
Qed.

Lemma mul_nan_l x y : is_nan x = true -> is_nan (x * y) = true.
Proof.
  intros H. apply F64.is_nan_spec in H. apply F64.is_nan_spec.
  now rewrite mul_spec, H.
Qed.

Lemma sub_nan_r x y : is_nan y = true -> is_nan (x - y) = true.
Proof.
  intros H. apply F64.is_nan_spec in H. apply F64.is_nan_spec.
  rewrite sub_spec, H. now destruct (Prim2SF x).
Qed.

Lemma div_nan_l x y : is_nan x = true -> is_nan (x / y) = true.
Proof.
  intros H. apply F64.is_nan_spec in H. apply F64.is_nan_spec.
  now rewrite div_spec, H.
Qed.

Lemma all_nan_map (f : float -> float) s :
  (forall x, is_nan x = true -> is_nan (f x) = true) -> all_nan s -> all_nan (map f s).
Proof.
  intros Hf Hs. apply Forall_map. eapply Forall_impl; [|exact Hs]. exact Hf.
Qed.

Lemma all_nan_add_l s1 s2 : all_nan s1 -> all_nan (Series.add s1 s2).
Proof.
  intros H. revert s2. induction H as [|x s1 Hx Hs IH]; intros [|y s2]; simpl;
    try constructor; [now apply add_nan_l|apply IH].
Qed.

Lemma all_nan_add_r s1 s2 : all_nan s2 -> all_nan (Series.add s1 s2).
Proof.
  intros H. revert s1. induction H as [|y s2 Hy Hs IH]; intros [|x s1]; simpl;
    try constructor; [now apply add_nan_r|apply IH].
Qed.

Lemma all_nan_mul s w : all_nan s -> all_nan (Series.mul_scalar s w).
Proof. apply all_nan_map. intros x. apply mul_nan_l. Qed.

Lemma all_nan_halved s : all_nan s -> all_nan (Series.div_scalar s 2).
Proof. apply all_nan_map. intros x. apply div_nan_l. Qed.

Lemma all_nan_rsub s : all_nan s -> all_nan (Series.rsub_scalar 1 s).
Proof. apply all_nan_map. intros x. apply sub_nan_r. Qed.

Lemma lower_higher_nan s1 s2 :
  all_nan (normalized s1) \/ all_nan (normalized s2) ->
  all_nan (lower_better_higher_better s1 s2).
Proof.
  intros [H|H]; apply all_nan_halved;
    [apply all_nan_add_l, all_nan_rsub, H|apply all_nan_add_r, H].
Qed.

Lemma both_higher_nan s1 s2 :
  all_nan (normalized s1) \/ all_nan (normalized s2) ->
  all_nan (both_higher_better s1 s2).
Proof.
  intros [H|H]; apply all_nan_halved; [apply all_nan_add_l, H|apply all_nan_add_r, H].
Qed.

Lemma weighted_sum_nan w s1 s2 s3 s4 s5 :
  all_nan s1 \/ all_nan s2 \/ all_nan s3 \/ all_nan s4 \/ all_nan s5 ->
  all_nan (weighted_sum w s1 s2 s3 s4 s5).
Proof.
  unfold weighted_sum.
  intros [H|[H|[H|[H|H]]]];
    repeat first [ apply all_nan_mul, H
                 | apply all_nan_add_r, all_nan_mul, H
                 | apply all_nan_add_l ].
Qed.

End NanFacts.

Lemma degenerate_composite w d key :
  In key normalized_columns ->
  PrimFloat.eqb (Series.max (num d key)) (Series.min (num d key)) = true ->
  all_nan (composite_scores w d).
Proof.
  intros Hk Hdeg. apply degenerate_normalized in Hdeg.
  apply NanFacts.weighted_sum_nan.
  unfold normalized_columns in Hk. cbn [In] in Hk.
  destruct Hk as [<-|[<-|[<-|[<-|[<-|[<-|[<-|[]]]]]]]].
  - left. exact Hdeg.
  - right; right; left. apply NanFacts.lower_higher_nan. now left.
  - right; right; left. apply NanFacts.lower_higher_nan. now right.
  - right; right; right; left. apply NanFacts.lower_higher_nan. now left.
  - right; right; right; left. apply NanFacts.lower_higher_nan. now right.
  - right; right; right; right. apply NanFacts.both_higher_nan. now left.
  - right; right; right; right. apply NanFacts.both_higher_nan. now right.
Qed.

Lemma filter_all {A} (p : A -> bool) l : (forall x, In x l -> p x = true) -> filter p l = l.
Proof.
  induction l as [|x l IH]; intros H; simpl; [reflexivity|].
  rewrite (H x) by (simpl; auto). f_equal. apply IH. intros y Hy. apply H. simpl. auto.
Qed.

Lemma filter_none {A} (p : A -> bool) l : (forall x, In x l -> p x = false) -> filter p l = [].
Proof.
  induction l as [|x l IH]; intros H; simpl; [reflexivity|].
  rewrite (H x) by (simpl; auto). apply IH. intros y Hy. apply H. simpl. auto.
Qed.

Lemma firstn_seq_min k s n : firstn k (seq s n) = seq s (Nat.min k n).
Proof.
  revert s n. induction k as [|k IH]; intros s [|n]; simpl; try reflexivity.
  now rewrite IH.
Qed.

(** Sorting by a column of missing values is the identity. *)
Lemma nargsort_all_nan {K : SortKind} items :
  all_nan items -> Frame.nargsort items false = seq 0 (length items).
Proof.
  intros H. unfold all_nan in H. rewrite Forall_forall in H.
  rewrite nargsort_descending.
  assert (Hd : Series.dropna items = []).
  { unfold Series.dropna. apply filter_none. intros x Hx. now rewrite (H x Hx). }
  assert (Hat : forall i, In i (seq 0 (length items)) -> is_nan (nth i items nan) = true).
  { intros i Hi. apply in_seq in Hi. apply H, nth_In. lia. }
  assert (Hn : non_nan_positions items = []).
  { unfold non_nan_positions. apply filter_none. intros i Hi. now rewrite (Hat i Hi). }
  assert (Hp : nan_positions items = seq 0 (length items)).
  { unfold nan_positions. now apply filter_all. }
  rewrite Hd, Hn, Hp. cbn [rev].
  pose proof (argsort_perm []) as Hperm. cbn [length seq] in Hperm.
  apply Permutation_sym, Permutation_nil in Hperm. rewrite Hperm. reflexivity.
Qed.

(** X8. When one of the seven normalized columns has its maximum equal to its
    minimum, as in a table of one row without missing values, every composite
    score returned is [nan] and the rows returned are the first rows of the
    input, in input order, whatever the sorting algorithm and the other
    columns. *)
Theorem column_without_range_keeps_input_order {K : SortKind} st df d top_n key :
  nth_error (frames st) df = Some d -> entity_table d = true ->
  In key normalized_columns ->
  PrimFloat.eqb (Series.max (num d key)) (Series.min (num d key)) = true ->
  exists st' out,
    selects st df top_n st' out /\
    Forall (fun y => is_nan y = true) (returned_scores out) /\
    index out = firstn (n_rows out) (index d) /\
    forall k, ~ In k score_columns ->
      Frame.lookup (columns out) k
      = option_map (fun c => Frame.take_column c (seq 0 (n_rows out)))
                   (Frame.lookup (columns d) k).
Proof.
  intros Hr Hd Hk Hdeg. eexists _, _.
  split; [exact (selects_entity_table st df d top_n Hr Hd)|].
  set (w := weights (self st)).
  pose proof (degenerate_composite w d key Hk Hdeg) as Hnan.
  assert (Hsel : selection w d top_n = seq 0 (Frame.slice_stop (n_rows d) top_n)).
  { unfold selection, ranking. rewrite (nargsort_all_nan _ Hnan).
    rewrite (Run.composite_scores_length d Hd w), firstn_seq_min.
    f_equal. pose proof (slice_stop_le (n_rows d) top_n). lia. }
  rewrite output_rows, (selection_length w d Hd top_n).
  split; [|split].
  - rewrite returned_scores_take. unfold Frame.take. apply Forall_map, Forall_forall.
    intros p Hp. apply (selection_in w d Hd) in Hp.
    unfold all_nan in Hnan. rewrite Forall_forall in Hnan. apply Hnan, nth_In.
    now rewrite (Run.composite_scores_length d Hd w).
  - cbn [index Frame.take_rows]. rewrite Hsel. apply take_seq, slice_stop_le.
  - intros k Hk'. cbn [columns Frame.take_rows].
    rewrite FrameFacts.lookup_take_rows, lookup_scored, Hsel by assumption. reflexivity.
Qed.

Lemma column_without_range_keeps_input_order_witness :
  exists st' out,
    selects (K := stable_kind) (store_of same_buildings default_weights) 0 2 st' out /\
    Forall (fun y => is_nan y = true) (returned_scores out) /\
    index out = firstn (n_rows out) (index same_buildings) /\
    forall k, ~ In k score_columns ->
      Frame.lookup (columns out) k
      = option_map (fun c => Frame.take_column c (seq 0 (n_rows out)))
                   (Frame.lookup (columns same_buildings) k).
Proof.
  apply (column_without_range_keeps_input_order (K := stable_kind)
           (store_of same_buildings default_weights) 0 same_buildings 2 Col.buildings);
    [reflexivity|reflexivity|simpl; tauto|reflexivity].
Defined.

(** ** Columns that cannot be read

    What a calculator returns, or raises, is a function of the frame it reads:
    the columns are read in the order of the source text and the first one
    that is missing, or is not numeric, decides the exception. *)

Definition try_normalized (d : DataFrame) (key : string) : result Series.t :=
  match Frame.getnum d key with
  | Ok v => Ok (normalized v)
  | Raise e => Raise e
  end.

Definition try_nav_scores (d : DataFrame) : result Series.t :=
  match Frame.getnum d Col.nav_ratio with
  | Ok v => Ok (nav_scores v)
  | Raise e => Raise e
  end.

Definition try_both (d : DataFrame) (key1 key2 : string)
  (f : Series.t -> Series.t -> Series.t) : result Series.t :=
  match Frame.getnum d key1 with
  | Raise e => Raise e
  | Ok v1 => match Frame.getnum d key2 with
             | Raise e => Raise e
             | Ok v2 => Ok (f v1 v2)
             end
  end.

Lemma bind_raise {A B} {m : M A} (k : A -> M B) {st e} :
  m st = Raise e -> bind m k st = Raise e.
Proof. unfold bind. now intros ->. Qed.

Lemma bind_lift {A B} {m : M A} (k : A -> M B) {r st} :
  m st = lift r st ->
  bind m k st = match r with Ok a => k a st | Raise e => Raise e end.
Proof. unfold bind, lift. intros ->. now destruct r. Qed.

Section Reads.
Variables (fs : list DataFrame) (sf : JREITSelector).
Variables (l : list DataFrame) (r : ref) (d : DataFrame).
Hypothesis Hr : nth_error (fs ++ l) r = Some d.

Lemma getitem_run key :
  Store.getitem r key (Run.ext fs sf l) = lift (Frame.getnum d key) (Run.ext fs sf l).
Proof.
  unfold Store.getitem. now rewrite (bind_ok _ (Run.deref_at fs sf l r d Hr)).
Qed.

Lemma normalize_column_run key asc :
  normalize_column r key asc (Run.ext fs sf l) = lift (try_normalized d key) (Run.ext fs sf l).
Proof.
  unfold normalize_column, try_normalized.
  rewrite (bind_lift _ (getitem_run key)).
  destruct (Frame.getnum d key) as [v|e] eqn:E; [|reflexivity].
  do 3 (rewrite (bind_lift _ (getitem_run key)), E). reflexivity.
Qed.

Lemma distribution_yield_run :
  calculate_distribution_yield_score r (Run.ext fs sf l)
  = lift (try_normalized d Col.distribution_yield) (Run.ext fs sf l).
Proof. apply normalize_column_run. Qed.

Lemma nav_ratio_run :
  calculate_nav_ratio_score r (Run.ext fs sf l) = lift (try_nav_scores d) (Run.ext fs sf l).
Proof.
  unfold calculate_nav_ratio_score, try_nav_scores.
  rewrite (bind_lift _ (getitem_run Col.nav_ratio)).
  destruct (Frame.getnum d Col.nav_ratio) as [v|e]; reflexivity.
Qed.

Lemma pair_run key1 key2 asc1 asc2 (g : Series.t -> Series.t) :
  bind (normalize_column r key1 asc1) (fun n =>
    bind (normalize_column r key2 asc2) (fun s2 =>
      ret (Series.div_scalar (Series.add (g n) s2) 2))) (Run.ext fs sf l)
  = lift (try_both d key1 key2
            (fun v1 v2 => Series.div_scalar (Series.add (g (normalized v1)) (normalized v2)) 2))
         (Run.ext fs sf l).
Proof.
  unfold try_both.
  rewrite (bind_lift _ (normalize_column_run key1 asc1)). unfold try_normalized.
  destruct (Frame.getnum d key1) as [v1|e]; [|reflexivity].
  rewrite (bind_lift _ (normalize_column_run key2 asc2)). unfold try_normalized.
  destruct (Frame.getnum d key2) as [v2|e]; reflexivity.
Qed.

Lemma portfolio_quality_run :
  calculate_portfolio_quality_score r (Run.ext fs sf l)
  = lift (try_both d Col.average_age Col.buildings lower_better_higher_better)
         (Run.ext fs sf l).
Proof. apply (pair_run _ _ _ _ (Series.rsub_scalar 1)). Qed.

Lemma financial_health_run :
  calculate_financial_health_score r (Run.ext fs sf l)
  = lift (try_both d Col.ltv Col.roe lower_better_higher_better) (Run.ext fs sf l).
Proof. apply (pair_run _ _ _ _ (Series.rsub_scalar 1)). Qed.

Lemma market_position_run :
  calculate_market_position_score r (Run.ext fs sf l)
  = lift (try_both d Col.market_cap Col.asset_size both_higher_better) (Run.ext fs sf l).
Proof. apply (pair_run _ _ _ _ (fun s => s)). Qed.

End Reads.

(** A computation that reads the store and leaves it as it was. *)
Definition reads_only {A} (m : M A) : Prop :=
  forall st a st', m st = Ok (a, st') -> st' = st.

Lemma reads_only_ret {A} (a : A) : reads_only (ret a).
Proof. intros st b st' H. unfold ret in H. congruence. Qed.

Lemma reads_only_bind {A B} (m : M A) (k : A -> M B) :
  reads_only m -> (forall a, reads_only (k a)) -> reads_only (bind m k).
Proof.
  intros Hm Hk st b st' H. unfold bind in H.
  destruct (m st) as [[a st1]|e] eqn:E; [|discriminate].
  apply Hm in E. subst st1. now apply Hk in H.
Qed.

Lemma reads_only_getitem df key : reads_only (Store.getitem df key).
Proof.
  intros st a st' H. unfold Store.getitem, bind, Store.deref, lift in H.
  destruct (nth_error (frames st) df); [|discriminate].
  destruct (Frame.getnum d key); congruence.
Qed.

Lemma reads_only_normalize df column ascending :
  reads_only (normalize_column df column ascending).
Proof.
  unfold normalize_column.
  repeat (apply reads_only_bind; [apply reads_only_getitem|intros ?]).
  apply reads_only_ret.
Qed.

(** X9. [normalize_column] and the five calculators only read: whenever one
    of them returns, every frame of the store and the selector are as they
    were before the call. *)
Theorem calculators_only_read df :
  (forall column ascending, reads_only (normalize_column df column ascending)) /\
  reads_only (calculate_distribution_yield_score df) /\
  reads_only (calculate_nav_ratio_score df) /\
  reads_only (calculate_portfolio_quality_score df) /\
  reads_only (calculate_financial_health_score df) /\
  reads_only (calculate_market_position_score df).
Proof.
  split; [intros; apply reads_only_normalize|].
  split; [apply reads_only_normalize|].
  split; [apply reads_only_bind; [apply reads_only_getitem|intros; apply reads_only_ret]|].
  repeat split;
    (apply reads_only_bind; [apply reads_only_normalize|intros ?];
     apply reads_only_bind; [apply reads_only_normalize|intros ?];
     apply reads_only_ret).
Qed.

(** ** Exceptions *)

Lemma getnum_missing d key :
  Frame.lookup (columns d) key = None -> Frame.getnum d key = Raise (KeyError key).
Proof. unfold Frame.getnum, Frame.getitem. now intros ->. Qed.

Lemma getnum_strings d key v :
  Frame.lookup (columns d) key = Some (ObjCol v) -> v <> [] ->
  Frame.getnum d key = Raise TypeError.
Proof.
  unfold Frame.getnum, Frame.getitem. intros -> Hv. destruct v; [contradiction|reflexivity].
Qed.

(** X10. [normalize_column] raises [KeyError] naming the column when the frame
    has no such column, and [TypeError] when the column holds strings (and
    has a row). *)
Theorem normalize_column_raises st df d column ascending :
  nth_error (frames st) df = Some d ->
  (Frame.lookup (columns d) column = None ->
   normalize_column df column ascending st = Raise (KeyError column)) /\
  (forall v, Frame.lookup (columns d) column = Some (ObjCol v) -> v <> [] ->
   normalize_column df column ascending st = Raise TypeError).
Proof.
  intros Hr. pose proof (frame_ext st df d Hr) as Hr'.
  rewrite (store_ext st), (normalize_column_run _ _ [] df d Hr').
  unfold try_normalized. split.
  - intros H. now rewrite (getnum_missing d column H).
  - intros v H Hv. now rewrite (getnum_strings d column v H Hv).
Qed.

Lemma normalize_column_raises_witness :
  normalize_column 0 "PER"%string true (store_of two_entities default_weights)
  = Raise (KeyError "PER"%string) /\
  normalize_column 0 "投資法人名"%string true (store_of two_entities default_weights)
  = Raise TypeError.
Proof.
  split.
  - apply (proj1 (normalize_column_raises (store_of two_entities default_weights) 0
                    two_entities "PER"%string true eq_refl)).
    reflexivity.
  - apply (proj2 (normalize_column_raises (store_of two_entities default_weights) 0
                    two_entities "投資法人名"%string true eq_refl)
                 ["A"; "B"]%string); [reflexivity|discriminate].
Defined.

Lemma required_split (P : string -> Prop) pre key post :
  required_columns = pre ++ key :: post -> Forall P pre ->
  key = Col.distribution_yield \/
  (key = Col.nav_ratio /\ P Col.distribution_yield) \/
  (key = Col.average_age /\ P Col.distribution_yield /\ P Col.nav_ratio) \/
  (key = Col.buildings /\ P Col.distribution_yield /\ P Col.nav_ratio /\ P Col.average_age) \/
  (key = Col.ltv /\ P Col.distribution_yield /\ P Col.nav_ratio /\ P Col.average_age /\
   P Col.buildings) \/
  (key = Col.roe /\ P Col.distribution_yield /\ P Col.nav_ratio /\ P Col.average_age /\
   P Col.buildings /\ P Col.ltv) \/
  (key = Col.market_cap /\ P Col.distribution_yield /\ P Col.nav_ratio /\ P Col.average_age /\
   P Col.buildings /\ P Col.ltv /\ P Col.roe) \/
  (key = Col.asset_size /\ P Col.distribution_yield /\ P Col.nav_ratio /\ P Col.average_age /\
   P Col.buildings /\ P Col.ltv /\ P Col.roe /\ P Col.market_cap).
Proof.
  unfold required_columns. intros E H.
  destruct pre as [|k1 pre]; cbn [app] in E; injection E as <- E; [tauto|].
  inversion H as [|? ? H1 H']; subst; clear H. right.
  destruct pre as [|k2 pre]; cbn [app] in E; injection E as <- E; [tauto|].
  inversion H' as [|? ? H2 H]; subst; clear H'. right.
  destruct pre as [|k3 pre]; cbn [app] in E; injection E as <- E; [tauto|].
  inversion H as [|? ? H3 H']; subst; clear H. right.
  destruct pre as [|k4 pre]; cbn [app] in E; injection E as <- E; [tauto|].
  inversion H' as [|? ? H4 H]; subst; clear H'. right.
  destruct pre as [|k5 pre]; cbn [app] in E; injection E as <- E; [tauto|].
  inversion H as [|? ? H5 H']; subst; clear H. right.
  destruct pre as [|k6 pre]; cbn [app] in E; injection E as <- E; [tauto|].
  inversion H' as [|? ? H6 H]; subst; clear H'. right.
  destruct pre as [|k7 pre]; cbn [app] in E; injection E as <- E; [tauto|].
  inversion H as [|? ? H7 H']; subst; clear H. right.
  destruct pre as [|k8 pre]; cbn [app] in E; injection E as <- E; [tauto|].
  destruct pre; discriminate E.
Qed.

Lemma has_numeric_read d key :
  has_numeric d key = true ->
  Frame.getnum d key = Ok (num d key) /\ length (num d key) = length (index d).
Proof. apply FrameFacts.has_numeric_getnum. Qed.

Ltac series_length :=
  unfold n_rows; cbn [index with_column];
  rewrite ?SeriesFacts.normalized_length, ?SeriesFacts.nav_scores_length,
          ?SeriesFacts.lower_higher_length, ?SeriesFacts.both_higher_length;
  repeat match goal with H : length (num _ _) = _ |- _ => rewrite H end;
  try apply Nat.min_id; reflexivity.

Ltac known_columns :=
  repeat match goal with H : Frame.getnum _ _ = _ |- _ => rewrite H end;
  cbv beta iota.

Ltac assigned :=
  match goal with
  | |- bind (Store.setitem (length ?fs + 0) ?key ?s) _ (Run.ext ?fs ?sf [?e]) = _ =>
      let L := fresh "L" in
      assert (L : length s = n_rows e) by series_length;
      rewrite (bind_ok _ (Run.setitem_at fs sf [e] 0 e key s eq_refl L)); clear L;
      cbn [length app Store.replace_nth Nat.add]
  end.

Section Raises.
Context {K : SortKind}.
Variables (fs : list DataFrame) (sf : JREITSelector) (r : ref) (d : DataFrame).
Hypothesis Hr : nth_error fs r = Some d.

Lemma select_stocks_raises top_n pre key post e :
  required_columns = pre ++ key :: post ->
  Forall (fun k => has_numeric d k = true) pre ->
  Frame.getnum d key = Raise e ->
  select_stocks r top_n (Run.ext fs sf []) = Raise e.
Proof.
  intros Hsplit Hpre Hkey.
  pose proof (fun l => Run.nth_error_old fs l r d Hr) as Hr'.
  unfold select_stocks.
  rewrite (bind_ok _ (Run.new_frame_at fs sf [] r d (Hr' []))).
  cbn [length app Nat.add].
  rewrite (bind_lift _ (distribution_yield_run fs sf _ r d (Hr' _))). unfold try_normalized.
  destruct (required_split _ pre key post Hsplit Hpre)
    as [->|[(-> & Py)|[(-> & Py & Pn)|[(-> & Py & Pn & Pa)|[(-> & Py & Pn & Pa & Pb)|
       [(-> & Py & Pn & Pa & Pb & Pl)|[(-> & Py & Pn & Pa & Pb & Pl & Pr)|
        (-> & Py & Pn & Pa & Pb & Pl & Pr & Pc)]]]]]]];
    repeat match goal with
    | P : has_numeric d _ = true |- _ => apply has_numeric_read in P; destruct P
    end;
    known_columns; try reflexivity;
    assigned;
    rewrite (bind_lift _ (nav_ratio_run fs sf _ r d (Hr' _))); unfold try_nav_scores;
    known_columns; try reflexivity;
    assigned;
    rewrite (bind_lift _ (portfolio_quality_run fs sf _ r d (Hr' _))); unfold try_both;
    known_columns; try reflexivity;
    assigned;
    rewrite (bind_lift _ (financial_health_run fs sf _ r d (Hr' _))); unfold try_both;
    known_columns; try reflexivity;
    assigned;
    rewrite (bind_lift _ (market_position_run fs sf _ r d (Hr' _))); unfold try_both;
    known_columns; reflexivity.
Qed.
End Raises.

(** X11. [select_stocks] reads the eight metric columns in the order of
    [required_columns]; at the first of them that is missing it raises
    [KeyError] naming it, and at the first of them that holds strings it
    raises [TypeError], the columns before it being numeric. *)
Theorem first_unreadable_column_raises {K : SortKind} st df d top_n pre key post :
  nth_error (frames st) df = Some d ->
  required_columns = pre ++ key :: post ->
  Forall (fun k => has_numeric d k = true) pre ->
  (Frame.lookup (columns d) key = None ->
   select_stocks df top_n st = Raise (KeyError key)) /\
  (forall v, Frame.lookup (columns d) key = Some (ObjCol v) -> v <> [] ->
   select_stocks df top_n st = Raise TypeError).
Proof.
  intros Hr Hsplit Hpre. rewrite (store_ext st). split.
  - intros H. apply (select_stocks_raises _ _ df d Hr top_n pre key post _ Hsplit Hpre).
    now apply getnum_missing.
  - intros v H Hv. apply (select_stocks_raises _ _ df d Hr top_n pre key post _ Hsplit Hpre).
    now apply getnum_strings with (v := v).
Qed.

(** ** Instances with a column that cannot be read *)

(** [df.drop(columns=[key])] *)
Definition drop_column (d : DataFrame) (key : string) : DataFrame :=
  {| index := index d;
     columns := filter (fun kc => negb (String.eqb (fst kc) key)) (columns d) |}.

(** The table [two_entities] without its ROE column, and with the ROE figures
    left as the text of the source page. *)
Definition without_roe : DataFrame := drop_column two_entities Col.roe.

Definition roe_as_text : DataFrame :=
  {| index := index two_entities;
     columns := Frame.assign (columns two_entities) Col.roe (ObjCol ["8.0%"; "4.0%"]%string) |}.

Lemma first_unreadable_column_raises_witness :
  select_stocks (K := stable_kind) 0 5 (store_of without_roe default_weights)
  = Raise (KeyError Col.roe) /\
  select_stocks (K := stable_kind) 0 5 (store_of roe_as_text default_weights)
  = Raise TypeError.
Proof.
  split.
  - apply (proj1 (first_unreadable_column_raises (K := stable_kind)
                    (store_of without_roe default_weights) 0 without_roe 5
                    [Col.distribution_yield; Col.nav_ratio; Col.average_age; Col.buildings;
                     Col.ltv]
                    Col.roe [Col.market_cap; Col.asset_size] eq_refl eq_refl
                    ltac:(repeat (constructor; [reflexivity|]); constructor))).
    reflexivity.
  - apply (proj2 (first_unreadable_column_raises (K := stable_kind)
                    (store_of roe_as_text default_weights) 0 roe_as_text 5
                    [Col.distribution_yield; Col.nav_ratio; Col.average_age; Col.buildings;
                     Col.ltv]
                    Col.roe [Col.market_cap; Col.asset_size] eq_refl eq_refl
                    ltac:(repeat (constructor; [reflexivity|]); constructor))
                 ["8.0%"; "4.0%"]%string); [reflexivity|discriminate].
Defined.

(** ** Normalization of a column with missing values *)

Lemma dropna_idempotent s : Series.dropna (Series.dropna s) = Series.dropna s.
Proof.
  unfold Series.dropna. apply filter_all. intros x Hx.
  now apply filter_In in Hx as [_ Hx].
Qed.

Lemma min_dropna s : Series.min (Series.dropna s) = Series.min s.
Proof. unfold Series.min. now rewrite dropna_idempotent. Qed.

Lemma max_dropna s : Series.max (Series.dropna s) = Series.max s.
Proof. unfold Series.max. now rewrite dropna_idempotent. Qed.

Lemma present_finite x : is_nan x = false -> is_infinity x = false -> is_finite x = true.
Proof. unfold is_finite. now intros -> ->. Qed.

(** X12. In a column with missing values whose present values are finite, two
    of them distinct, and whose range is finite, [normalize_column] returns
    [nan] for the rows whose value is missing and a value in [[0, 1]] for
    every other row, 1 at the maximum and 0 at the minimum, minimum and
    maximum being those of the present values. *)
Theorem missing_values_stay_missing st df d column s ascending :
  nth_error (frames st) df = Some d -> Frame.getnum d column = Ok s ->
  Forall (fun x => is_infinity x = false) s ->
  two_distinct (Series.dropna s) ->
  is_finite (Series.max s - Series.min s) = true ->
  exists out,
    normalize_column df column ascending st = Ok (out, st) /\
    length out = length s /\
    forall i, i < length s ->
      let x := nth i s nan in
      let y := nth i out nan in
      (is_nan x = true -> is_nan y = true) /\
      (is_nan x = false ->
       PrimFloat.leb 0 y = true /\ PrimFloat.leb y 1 = true /\
       (PrimFloat.eqb x (Series.max s) = true -> PrimFloat.eqb y 1 = true) /\
       (PrimFloat.eqb x (Series.min s) = true -> PrimFloat.eqb y 0 = true)).
Proof.
  intros Hr Hget Hinf (a & b & Ha & Hb & Hab) Hrange.
  pose proof (frame_ext st df d Hr) as Hr'.
  exists (normalized s). rewrite (store_ext st) at 1 2.
  split; [exact (Run.normalize_column_at _ _ [] df d column ascending s Hr' Hget)|].
  split; [apply SeriesFacts.normalized_length|].
  intros i Hi x y.
  assert (Ey : y = ((x - Series.min s) / (Series.max s - Series.min s))%float).
  { unfold y, normalized, Series.div_scalar, Series.sub_scalar. rewrite map_map.
    now apply (SeriesFacts.nth_map_scalar
      (fun v => ((v - Series.min s) / (Series.max s - Series.min s))%float)). }
  rewrite Ey. split; [apply nan_quotient_nan|]. intros Hx.
  assert (Hfin : Forall (fun v => is_finite v = true) (Series.dropna s)).
  { apply Forall_forall. intros v Hv. apply filter_In in Hv as [Hv Hp].
    apply negb_true_iff in Hp. rewrite Forall_forall in Hinf.
    apply present_finite; auto. }
  assert (Hin : In x (Series.dropna s)) by (apply in_dropna; [now apply nth_In|exact Hx]).
  rewrite <- (min_dropna s), <- (max_dropna s) in *.
  apply (normalized_value (Series.dropna s) Hfin
           (distinct_values_range _ a b Hfin Ha Hb Hab) Hrange x Hin).
Qed.

Lemma missing_values_stay_missing_witness :
  exists out,
    normalize_column 0 Col.roe true (store_of missing_roe default_weights)
    = Ok (out, store_of missing_roe default_weights) /\
    length out = 3 /\
    forall i, i < 3 ->
      let x := nth i [0.08; 0.04; nan]%float nan in
      let y := nth i out nan in
      (is_nan x = true -> is_nan y = true) /\
      (is_nan x = false ->
       PrimFloat.leb 0 y = true /\ PrimFloat.leb y 1 = true /\
       (PrimFloat.eqb x (Series.max [0.08; 0.04; nan]%float) = true ->
        PrimFloat.eqb y 1 = true) /\
       (PrimFloat.eqb x (Series.min [0.08; 0.04; nan]%float) = true ->
        PrimFloat.eqb y 0 = true)).
Proof.
  apply (missing_values_stay_missing
           (store_of missing_roe default_weights) 0 missing_roe Col.roe
           [0.08; 0.04; nan]%float true);
    [reflexivity|reflexivity|repeat constructor| |reflexivity].
  exists 0.08%float, 0.04%float. simpl. auto.
Defined.

(** ** The frame returned is an entity table *)

Lemma distinct_nodup l : distinct l = true <-> NoDup l.
Proof.
  induction l as [|k l IH]; simpl.
  - split; [constructor|reflexivity].
  - rewrite andb_true_iff, negb_true_iff, IH. split.
    + intros [Hk Hl]. constructor; [|assumption].
      intros Hin. apply existsb_eqb_in in Hin. congruence.
    + intros H. inversion H as [|? ? Hk Hl]; subst. split; [|assumption].
      destruct (existsb (String.eqb k) l) eqn:E; [|reflexivity].
      apply existsb_eqb_in in E. contradiction.
Qed.

Lemma assign_names_nodup cols key c :
  NoDup (map fst cols) -> NoDup (map fst (Frame.assign cols key c)).
Proof.
  intros H. destruct (in_dec string_dec key (map fst cols)) as [Hin|Hnew].
  - now rewrite assign_names_old.
  - rewrite assign_names_new by assumption.
    apply NoDup_app; [assumption|repeat constructor; auto|].
    intros x Hx [<-|[]]. contradiction.
Qed.

Lemma assign_lengths cols key c n :
  column_length c = n ->
  forallb (fun kc => Nat.eqb (column_length (snd kc)) n) cols = true ->
  forallb (fun kc => Nat.eqb (column_length (snd kc)) n) (Frame.assign cols key c) = true.
Proof.
  intros Hc. induction cols as [|[k c'] cols IH]; simpl.
  - intros _. now rewrite Hc, Nat.eqb_refl.
  - rewrite andb_true_iff. intros [H1 H2].
    destruct (String.eqb k key); simpl; rewrite ?Hc, ?Nat.eqb_refl, ?H1; simpl; auto.
Qed.

Lemma with_column_well_formed d key s :
  length s = n_rows d -> well_formed d = true -> well_formed (with_column d key s) = true.
Proof.
  unfold well_formed. rewrite !andb_true_iff, !distinct_nodup.
  intros Hs [Hn Hl]. split.
  - apply assign_names_nodup, Hn.
  - apply (assign_lengths (columns d) key (NumCol s) (n_rows d)); assumption.
Qed.

Lemma with_column_has_numeric d key s key' :
  length s = n_rows d ->
  has_numeric d key' = true -> has_numeric (with_column d key s) key' = true.
Proof.
  intros Hs. unfold has_numeric, with_column. cbn [columns].
  rewrite FrameFacts.lookup_assign.
  destruct (String.eqb key key'); [|tauto].
  intros _. unfold n_rows in *. cbn [index]. now apply Nat.eqb_eq.
Qed.

Lemma with_column_has_it d key s :
  length s = n_rows d -> has_numeric (with_column d key s) key = true.
Proof.
  intros Hs. unfold has_numeric, with_column. cbn [columns].
  rewrite FrameFacts.lookup_assign, String.eqb_refl.
  unfold n_rows in *. cbn [index]. now apply Nat.eqb_eq.
Qed.

Lemma take_column_length c sel : column_length (Frame.take_column c sel) = length sel.
Proof. destruct c; simpl; apply take_length. Qed.

Lemma take_rows_well_formed d sel :
  well_formed d = true -> well_formed (Frame.take_rows d sel) = true.
Proof.
  unfold well_formed. rewrite !andb_true_iff. intros [Hn _]. split.
  - fold (column_names (Frame.take_rows d sel)). now rewrite take_rows_names.
  - apply forallb_forall. intros kc Hkc. cbn [columns Frame.take_rows] in Hkc.
    apply in_map_iff in Hkc as (kc' & <- & _). cbn [snd].
    rewrite take_column_length. unfold n_rows. cbn [index Frame.take_rows].
    rewrite take_length. apply Nat.eqb_refl.
Qed.

Lemma take_rows_has_numeric d sel key :
  has_numeric d key = true -> has_numeric (Frame.take_rows d sel) key = true.
Proof.
  unfold has_numeric. cbn [columns Frame.take_rows]. rewrite FrameFacts.lookup_take_rows.
  destruct (Frame.lookup (columns d) key) as [[v|v]|]; try discriminate.
  intros _. cbn [option_map Frame.take_column]. unfold n_rows. cbn [index Frame.take_rows].
  rewrite !take_length. apply Nat.eqb_refl.
Qed.

Section ScoredTable.
Variables (w : ScoringWeights) (d : DataFrame).
Hypothesis Hd : entity_table d = true.

Let L1 := Run.yield_scores_length d Hd.
Let L2 := Run.nav_ratio_scores_length d Hd.
Let L3 := Run.quality_scores_length d Hd.
Let L4 := Run.health_scores_length d Hd.
Let L5 := Run.position_scores_length d Hd.
Let L6 := Run.composite_scores_length d Hd w.

Lemma scored_well_formed : well_formed (scored w d) = true.
Proof.
  unfold scored.
  repeat (apply with_column_well_formed; [assumption|]).
  pose proof Hd as H. unfold entity_table in H. now apply andb_true_iff in H.
Qed.

Lemma scored_has_numeric key :
  In key required_columns \/ In key score_columns -> has_numeric (scored w d) key = true.
Proof.
  unfold scored. intros [Hk|Hk].
  - repeat (apply with_column_has_numeric; [assumption|]).
    pose proof Hd as H. unfold entity_table in H. apply andb_true_iff in H as [_ H].
    rewrite forallb_forall in H. auto.
  - unfold score_columns in Hk. cbn [In] in Hk.
    destruct Hk as [<-|[<-|[<-|[<-|[<-|[<-|[]]]]]]];
      repeat first [ apply with_column_has_it; assumption
                   | apply with_column_has_numeric; [assumption|] ].
Qed.
End ScoredTable.

Lemma take_scored_entity_table w d sel :
  entity_table d = true ->
  entity_table (Frame.take_rows (scored w d) sel) = true /\
  forallb (has_numeric (Frame.take_rows (scored w d) sel)) score_columns = true.
Proof.
  intros Hd. split.
  - unfold entity_table. apply andb_true_iff. split.
    + apply take_rows_well_formed, scored_well_formed, Hd.
    + apply forallb_forall. intros key Hk.
      apply take_rows_has_numeric, scored_has_numeric; auto.
  - apply forallb_forall. intros key Hk.
    apply take_rows_has_numeric, scored_has_numeric; auto.
Qed.

(** X13. The frame returned is again an entity table: its columns are named
    apart and hold one value per row, the eight metric columns are there and
    numeric, and so are the six score columns. *)
Theorem returned_frame_is_an_entity_table {K : SortKind} st df d top_n :
  nth_error (frames st) df = Some d -> entity_table d = true ->
  exists st' out,
    selects st df top_n st' out /\
    entity_table out = true /\
    forallb (has_numeric out) score_columns = true.
Proof.
  intros Hr Hd. eexists _, _.
  split; [exact (selects_entity_table st df d top_n Hr Hd)|].
  now apply take_scored_entity_table.
Qed.

Lemma returned_frame_is_an_entity_table_witness :
  exists st' out,
    selects (K := stable_kind) (store_of two_entities default_weights) 0 1 st' out /\
    entity_table out = true /\
    forallb (has_numeric out) score_columns = true.
Proof.
  apply (returned_frame_is_an_entity_table (K := stable_kind)
           (store_of two_entities default_weights) 0 two_entities 1);
    reflexivity.
Defined.

Lemma has_numeric_named d key : has_numeric d key = true -> In key (column_names d).
Proof.
  unfold has_numeric, column_names.
  induction (columns d) as [|[k c] cols IH]; simpl; [discriminate|].
  destruct (String.eqb_spec k key) as [->|_]; auto.
Qed.

(** X14. [select_stocks] can be run on the frame it returned: the second run
    raises nothing, replaces the six score columns where they stand, so that
    the columns are those of the first result in the same order, and returns
    no more rows than it was given. *)
Theorem second_run_keeps_the_columns {K : SortKind} st df d n m :
  nth_error (frames st) df = Some d -> entity_table d = true ->
  exists r1 st1 out1 st2 out2,
    select_stocks df n st = Ok (r1, st1) /\
    nth_error (frames st1) r1 = Some out1 /\
    selects st1 r1 m st2 out2 /\
    column_names out2 = column_names out1 /\
    n_rows out2 <= n_rows out1.
Proof.
  intros Hr Hd.
  destruct (selects_entity_table st df d n Hr Hd) as (r1 & Hrun & Hout).
  destruct (take_scored_entity_table (weights (self st)) d
              (selection (weights (self st)) d n) Hd) as [Hent Hscores].
  eexists r1, _, _, _, _.
  split; [exact Hrun|]. split; [exact Hout|].
  split; [exact (selects_entity_table _ r1 _ m Hout Hent)|].
  split.
  - rewrite take_rows_names. apply scored_names_old. intros key Hk.
    rewrite forallb_forall in Hscores. now apply has_numeric_named, Hscores.
  - rewrite output_rows, selection_length by assumption. apply slice_stop_le.
Qed.

Lemma second_run_keeps_the_columns_witness :
  exists r1 st1 out1 st2 out2,
    select_stocks (K := stable_kind) 0 2 (store_of two_alike default_weights) = Ok (r1, st1) /\
    nth_error (frames st1) r1 = Some out1 /\
    selects (K := stable_kind) st1 r1 1 st2 out2 /\
    column_names out2 = column_names out1 /\
    n_rows out2 <= n_rows out1.
Proof.
  apply (second_run_keeps_the_columns (K := stable_kind)
           (store_of two_alike default_weights) 0 two_alike 2 1);
    reflexivity.
Defined.

(** ** Sums and complements of values between 0 and 1 *)

Module Unit64.
Import Binary64.
Local Open Scope Z_scope.

(** A binary64 number between 0 and 1. *)
Definition unit_value (x : float) : Prop :=
  number x /\ 0 <= ival (Prim2SF x) <= pow2 1074.

Lemma rnd_one : rnd (pow2 1074) = pow2 1074.
Proof. exact (rnd_canonical 4503599627370496 (-52) eq_refl). Qed.

Lemma rnd_two : rnd (2 * pow2 1074) = 2 * pow2 1074.
Proof. exact (rnd_canonical 4503599627370496 (-51) eq_refl). Qed.

Lemma ival_two : ival (Prim2SF 2) = 2 * pow2 1074.
Proof. reflexivity. Qed.

Lemma number_two : number 2.
Proof. reflexivity. Qed.

Lemma rounds_to_small r s v :
  rounds_to r s v -> v < pow2 2098 -> is_number r = true /\ ival r = cond_Zopp s v.
Proof.
  intros [[-> Hinf]|(m & e & -> & He & Hv)] Hlt; [lia|].
  split; [reflexivity|]. unfold ival. now rewrite Hv.
Qed.

Lemma unit_bound : 2 * pow2 1074 < pow2 2098.
Proof.
  rewrite <- (pow2_succ 1074) by lia. apply pow2_lt. lia.
Qed.

Lemma between_zero_one y :
  PrimFloat.leb 0 y = true -> PrimFloat.leb y 1 = true -> unit_value y.
Proof.
  intros H0 H1.
  assert (Hn : number y).
  { unfold number. rewrite leb_spec in H0, H1. unfold SFleb in *.
    change (Prim2SF 0) with (S754_zero false) in H0.
    change (Prim2SF 1) with (S754_finite false 4503599627370496 (-52)) in H1.
    destruct (Prim2SF y) as [s|s| |s m e]; try reflexivity.
    - destruct s; simpl in *; discriminate.
    - discriminate. }
  pose proof (proj1 (leb_ival 0 y number_zero Hn) H0) as A.
  pose proof (proj1 (leb_ival y 1 Hn number_one) H1) as B.
  rewrite ival_zero in A. rewrite ival_one in B.
  split; [exact Hn|]. split; assumption.
Qed.

Lemma unit_value_between y :
  unit_value y -> PrimFloat.leb 0 y = true /\ PrimFloat.leb y 1 = true.
Proof.
  intros [Hn Hb]. split.
  - apply (leb_ival 0 y number_zero Hn). rewrite ival_zero. lia.
  - apply (leb_ival y 1 Hn number_one). rewrite ival_one. lia.
Qed.

(** [1 - x] *)
Lemma complement x : unit_value x -> unit_value (1 - x).
Proof.
  intros [Hn Hb]. unfold unit_value, number in *. rewrite sub_spec.
  destruct (SFsub_rounds (Prim2SF 1) (Prim2SF x)) as [[E [s Hs]]|[Hlt Hr]];
    auto using Prim2SF_valid; try (rewrite ival_one; lia).
  - rewrite Hs. split; [reflexivity|]. change (ival (S754_zero s)) with 0.
    pose proof (pow2_pos 1074). lia.
  - rewrite ival_one in *.
    pose proof (rnd_mono (pow2 1074 - ival (Prim2SF x)) (pow2 1074) ltac:(lia)) as Hm.
    rewrite rnd_one in Hm.
    pose proof (rnd_pos (pow2 1074 - ival (Prim2SF x)) ltac:(lia)) as Hp.
    pose proof unit_bound.
    destruct (rounds_to_small _ _ _ Hr ltac:(lia)) as [Hnum Hv].
    split; [exact Hnum|]. rewrite Hv. unfold cond_Zopp. lia.
Qed.

Lemma SFadd_rounds x y :
  valid_binary x = true -> valid_binary y = true ->
  is_number x = true -> is_number y = true ->
  0 <= ival x -> 0 <= ival y ->
  (ival x + ival y = 0 /\ exists s, SF64add x y = S754_zero s) \/
  (0 < ival x + ival y /\ rounds_to (SF64add x y) false (rnd (ival x + ival y))).
Proof.
  unfold SF64add.
  destruct x as [sx|sx| |sx mx ex], y as [sy|sy| |sy my ey]; try discriminate;
    intros Vx Vy _ _ Hx Hy; simpl in Vx, Vy.
  - left. split; [reflexivity|]. destruct sx, sy; simpl; eauto.
  - right. pose proof (proj1 (bounded_spec my ey) Vy) as (He & _).
    pose proof (ival_finite_pos my ey ltac:(lia)) as Hp.
    destruct sy; unfold ival, cond_Zopp in *; [lia|].
    split; [lia|]. right. exists my, ey. split; [reflexivity|]. split; [lia|].
    rewrite Z.add_0_l. symmetry. now apply rnd_canonical.
  - right. pose proof (proj1 (bounded_spec mx ex) Vx) as (He & _).
    pose proof (ival_finite_pos mx ex ltac:(lia)) as Hp.
    destruct sx; unfold ival, cond_Zopp in *; [lia|].
    split; [lia|]. right. exists mx, ex. split; [reflexivity|]. split; [lia|].
    rewrite Z.add_0_r. symmetry. now apply rnd_canonical.
  - pose proof (proj1 (bounded_spec mx ex) Vx) as (Hex & _).
    pose proof (proj1 (bounded_spec my ey) Vy) as (Hey & _).
    pose proof (ival_finite_pos mx ex ltac:(lia)) as Px.
    pose proof (ival_finite_pos my ey ltac:(lia)) as Py.
    assert (sx = false) by (destruct sx; [unfold ival, cond_Zopp in Hx; lia|reflexivity]).
    assert (sy = false) by (destruct sy; [unfold ival, cond_Zopp in Hy; lia|reflexivity]).
    subst sx sy.
    unfold SFadd. cbv zeta.
    destruct (shl_align_value mx ex (Z.min ex ey)) as [Hvx _]; [lia|].
    destruct (shl_align_value my ey (Z.min ex ey)) as [Hvy _]; [lia|].
    rewrite Hvx, Hvy. set (ez := Z.min ex ey) in *.
    unfold cond_Zopp.
    set (M := Zpos mx * pow2 (ex - ez) + Zpos my * pow2 (ey - ez)).
    assert (HM : M * pow2 (ez + 1074)
                 = ival (S754_finite false mx ex) + ival (S754_finite false my ey)).
    { unfold M, ival, cond_Zopp. rewrite Z.mul_add_distr_r, <- !Z.mul_assoc.
      rewrite <- !pow2_add by (unfold ez; lia).
      replace (ex - ez + (ez + 1074)) with (ex + 1074) by lia.
      replace (ey - ez + (ez + 1074)) with (ey + 1074) by lia. reflexivity. }
    pose proof (pow2_pos (ez + 1074) ltac:(unfold ez; lia)) as Hp.
    unfold ival, cond_Zopp in *.
    destruct M as [|p|p].
    + exfalso. lia.
    + right. split; [lia|]. rewrite <- HM. simpl binary_normalize.
      apply binary_round_spec. unfold ez. lia.
    + exfalso. nia.
Qed.

(** [a + b] *)
Lemma sum a b :
  unit_value a -> unit_value b ->
  number (a + b)%float /\ 0 <= ival (Prim2SF (a + b)) <= 2 * pow2 1074.
Proof.
  intros [Na Ba] [Nb Bb]. unfold number in *. rewrite add_spec.
  destruct (SFadd_rounds (Prim2SF a) (Prim2SF b)) as [[E [s Hs]]|[Hlt Hr]];
    auto using Prim2SF_valid; try lia.
  - rewrite Hs. split; [reflexivity|]. change (ival (S754_zero s)) with 0.
    pose proof (pow2_pos 1074). lia.
  - pose proof (rnd_mono (ival (Prim2SF a) + ival (Prim2SF b)) (2 * pow2 1074)
                  ltac:(lia)) as Hm.
    rewrite rnd_two in Hm.
    pose proof (rnd_pos (ival (Prim2SF a) + ival (Prim2SF b)) ltac:(lia)) as Hp.
    pose proof unit_bound.
    destruct (rounds_to_small _ _ _ Hr ltac:(lia)) as [Hnum Hv].
    split; [exact Hnum|]. rewrite Hv. unfold cond_Zopp. lia.
Qed.

(** [s / 2] *)
Lemma half s :
  number s -> 0 <= ival (Prim2SF s) <= 2 * pow2 1074 -> unit_value (s / 2).
Proof.
  intros Hn Hb. pose proof (pow2_pos 1074).
  destruct (div_unit s 2 Hn number_two) as (Nq & Bq & _); rewrite ?ival_two; try lia.
  split; assumption.
Qed.

Lemma mean a b : unit_value a -> unit_value b -> unit_value ((a + b) / 2).
Proof.
  intros Ha Hb. destruct (sum a b Ha Hb) as [Hn Hs]. now apply half.
Qed.

End Unit64.

(** ** The scores that average two normalized columns *)

(** A column of finite values, two of them apart, whose range is finite. *)
Definition has_range (s : Series.t) : Prop :=
  Forall (fun x => is_finite x = true) s /\
  two_distinct s /\
  is_finite (Series.max s - Series.min s) = true.

Definition in_unit_interval (y : float) : Prop :=
  PrimFloat.leb 0 y = true /\ PrimFloat.leb y 1 = true.

Lemma forall_add (P Q R : float -> Prop) s1 s2 :
  (forall x y, P x -> Q y -> R (x + y)%float) ->
  Forall P s1 -> Forall Q s2 -> Forall R (Series.add s1 s2).
Proof.
  intros H H1. revert s2. induction H1 as [|x s1 Hx Hs IH]; intros s2 H2; [constructor|].
  destruct H2 as [|y s2 Hy H2]; simpl; constructor; auto.
Qed.

Lemma normalized_unit s : has_range s -> Forall Unit64.unit_value (normalized s).
Proof.
  intros (Hfin & (a & b & Ha & Hb & Hab) & Hrange).
  unfold normalized, Series.div_scalar, Series.sub_scalar. rewrite map_map.
  apply Forall_map, Forall_forall. intros x Hx.
  destruct (normalized_value s Hfin (distinct_values_range s a b Hfin Ha Hb Hab) Hrange x Hx)
    as (H0 & H1 & _).
  now apply Unit64.between_zero_one.
Qed.

Lemma lower_higher_unit s1 s2 :
  has_range s1 -> has_range s2 ->
  Forall in_unit_interval (lower_better_higher_better s1 s2).
Proof.
  intros H1 H2. apply normalized_unit in H1, H2.
  unfold lower_better_higher_better, Series.div_scalar, Series.rsub_scalar.
  apply Forall_map.
  apply (forall_add Unit64.unit_value Unit64.unit_value); [| |exact H2].
  - intros x y Hx Hy. now apply Unit64.unit_value_between, Unit64.mean.
  - apply Forall_map. eapply Forall_impl; [|exact H1]. apply Unit64.complement.
Qed.

Lemma both_higher_unit s1 s2 :
  has_range s1 -> has_range s2 ->
  Forall in_unit_interval (both_higher_better s1 s2).
Proof.
  intros H1 H2. apply normalized_unit in H1, H2.
  unfold both_higher_better, Series.div_scalar.
  apply Forall_map.
  apply (forall_add Unit64.unit_value Unit64.unit_value); [|exact H1|exact H2].
  intros x y Hx Hy. now apply Unit64.unit_value_between, Unit64.mean.
Qed.

(** X15. When the columns of building age and of building count hold finite
    values, two of them distinct, over a finite range, every portfolio
    quality score is in [[0, 1]]. *)
Theorem portfolio_quality_in_unit_interval st df d :
  nth_error (frames st) df = Some d -> entity_table d = true ->
  has_range (num d Col.average_age) -> has_range (num d Col.buildings) ->
  exists out,
    calculate_portfolio_quality_score df st = Ok (out, st) /\
    length out = n_rows d /\
    Forall in_unit_interval out.
Proof.
  intros Hr Hd H1 H2. exists (quality_scores d).
  rewrite (store_ext st) at 1 2.
  split; [exact (Run.portfolio_quality_at _ _ [] df d (frame_ext st df d Hr) Hd)|].
  split; [now apply Run.quality_scores_length|].
  now apply lower_higher_unit.
Qed.

Lemma two_entities_range key :
  In key normalized_columns -> has_range (num two_entities key).
Proof.
  intros Hk. unfold normalized_columns in Hk. cbn [In] in Hk.
  destruct Hk as [<-|[<-|[<-|[<-|[<-|[<-|[<-|[]]]]]]]];
    (split; [repeat constructor|split; [|reflexivity]]);
    match goal with
    | |- two_distinct (num two_entities ?k) =>
        let v := eval vm_compute in (num two_entities k) in
        match v with
        | [?a; ?b] => exists a, b; vm_compute; auto
        end
    end.
Qed.

Lemma portfolio_quality_in_unit_interval_witness :
  exists out,
    calculate_portfolio_quality_score 0 (store_of two_entities default_weights)
    = Ok (out, store_of two_entities default_weights) /\
    length out = n_rows two_entities /\
    Forall in_unit_interval out.
Proof.
  apply (portfolio_quality_in_unit_interval
           (store_of two_entities default_weights) 0 two_entities);
    [reflexivity|reflexivity| |]; apply two_entities_range; simpl; tauto.
Defined.

(** X16. When the columns of LTV and of ROE hold finite values, two of them
    distinct, over a finite range, every financial health score is in
    [[0, 1]]. *)
Theorem financial_health_in_unit_interval st df d :
  nth_error (frames st) df = Some d -> entity_table d = true ->
  has_range (num d Col.ltv) -> has_range (num d Col.roe) ->
  exists out,
    calculate_financial_health_score df st = Ok (out, st) /\
    length out = n_rows d /\
    Forall in_unit_interval out.
Proof.
  intros Hr Hd H1 H2. exists (health_scores d).
  rewrite (store_ext st) at 1 2.
  split; [exact (Run.financial_health_at _ _ [] df d (frame_ext st df d Hr) Hd)|].
  split; [now apply Run.health_scores_length|].
  now apply lower_higher_unit.
Qed.

Lemma financial_health_in_unit_interval_witness :
  exists out,
    calculate_financial_health_score 0 (store_of two_entities default_weights)
    = Ok (out, store_of two_entities default_weights) /\
    length out = n_rows two_entities /\
    Forall in_unit_interval out.
Proof.
  apply (financial_health_in_unit_interval
           (store_of two_entities default_weights) 0 two_entities);
    [reflexivity|reflexivity| |]; apply two_entities_range; simpl; tauto.
Defined.

(** X17. When the columns of market capitalization and of asset size hold
    finite values, two of them distinct, over a finite range, every market
    position score is in [[0, 1]]. *)
Theorem market_position_in_unit_interval st df d :
  nth_error (frames st) df = Some d -> entity_table d = true ->
  has_range (num d Col.market_cap) -> has_range (num d Col.asset_size) ->
  exists out,
    calculate_market_position_score df st = Ok (out, st) /\
    length out = n_rows d /\
    Forall in_unit_interval out.
Proof.
  intros Hr Hd H1 H2. exists (position_scores d).
  rewrite (store_ext st) at 1 2.
  split; [exact (Run.market_position_at _ _ [] df d (frame_ext st df d Hr) Hd)|].
  split; [now apply Run.position_scores_length|].
  now apply both_higher_unit.
Qed.

Lemma market_position_in_unit_interval_witness :
  exists out,
    calculate_market_position_score 0 (store_of two_entities default_weights)
    = Ok (out, store_of two_entities default_weights) /\
    length out = n_rows two_entities /\
    Forall in_unit_interval out.
Proof.
  apply (market_position_in_unit_interval
           (store_of two_entities default_weights) 0 two_entities);
    [reflexivity|reflexivity| |]; apply two_entities_range; simpl; tauto.
Defined.

(** ** The NAV-ratio score, for NAV ratios whose maximum is positive *)

Module Nav64.
Import Binary64.
Local Open Scope Z_scope.

(** Zero, a positive number or [+infinity]. *)
Definition nonneg (r : spec_float) : Prop :=
  (exists s, r = S754_zero s) \/
  (exists m e, r = S754_finite false m e) \/
  r = S754_infinity false.

(** The difference of two numbers, whatever their order. *)
Lemma SFsub_signed x y :
  valid_binary x = true -> valid_binary y = true ->
  is_number x = true -> is_number y = true ->
  (ival x = ival y /\ exists s, SF64sub x y = S754_zero s) \/
  (ival y < ival x /\ rounds_to (SF64sub x y) false (rnd (ival x - ival y))) \/
  (ival x < ival y /\ rounds_to (SF64sub x y) true (rnd (ival y - ival x))).
Proof.
  intros Vx Vy Nx Ny.
  destruct (Z_le_gt_dec (ival y) (ival x)) as [Hle|Hgt].
  { destruct (SFsub_rounds x y Vx Vy Nx Ny Hle) as [H|H]; auto. }
  right. right. split; [lia|]. unfold SF64sub.
  destruct x as [sx|sx| |sx mx ex], y as [sy|sy| |sy my ey];
    try discriminate Nx; try discriminate Ny; cbn [valid_binary] in Vx, Vy.
  - cbn [ival] in Hgt. lia.
  - pose proof (proj1 (bounded_spec my ey) Vy) as (He & _).
    pose proof (ival_finite_pos my ey ltac:(lia)) as Hp.
    destruct sy; unfold ival, cond_Zopp in *; [lia|].
    right. exists my, ey. split; [reflexivity|]. split; [lia|].
    rewrite Z.sub_0_r. symmetry. now apply rnd_canonical.
  - pose proof (proj1 (bounded_spec mx ex) Vx) as (He & _).
    pose proof (ival_finite_pos mx ex ltac:(lia)) as Hp.
    destruct sx; unfold ival, cond_Zopp in *; [|lia].
    right. exists mx, ex. split; [reflexivity|]. split; [lia|].
    rewrite Z.sub_0_l, Z.opp_involutive. symmetry. now apply rnd_canonical.
  - pose proof (proj1 (bounded_spec mx ex) Vx) as (Hex & _).
    pose proof (proj1 (bounded_spec my ey) Vy) as (Hey & _).
    unfold SFsub. cbv zeta.
    destruct (shl_align_value mx ex (Z.min ex ey)) as [Hx _]; [lia|].
    destruct (shl_align_value my ey (Z.min ex ey)) as [Hy _]; [lia|].
    rewrite Hx, Hy. set (ez := Z.min ex ey) in *.
    set (M := cond_Zopp sx (Zpos mx * pow2 (ex - ez)) - cond_Zopp sy (Zpos my * pow2 (ey - ez))).
    assert (HM : M * pow2 (ez + 1074)
                 = ival (S754_finite sx mx ex) - ival (S754_finite sy my ey)).
    { unfold M, ival. rewrite Z.mul_sub_distr_r, !cond_Zopp_mul, <- !Z.mul_assoc.
      rewrite <- !pow2_add by (unfold ez; lia).
      replace (ex - ez + (ez + 1074)) with (ex + 1074) by lia.
      replace (ey - ez + (ez + 1074)) with (ey + 1074) by lia. reflexivity. }
    pose proof (pow2_pos (ez + 1074) ltac:(unfold ez; lia)) as Hp.
    destruct M as [|p|p].
    + exfalso. lia.
    + exfalso. nia.
    + replace (ival (S754_finite sy my ey) - ival (S754_finite sx mx ex))
        with (Zpos p * pow2 (ez + 1074)) by lia.
      cbn [binary_normalize]. apply binary_round_spec. unfold ez. lia.
Qed.

Lemma SFsub_not_nan x y :
  valid_binary x = true -> valid_binary y = true ->
  is_number x = true -> is_number y = true -> SF64sub x y <> S754_nan.
Proof.
  intros Vx Vy Nx Ny.
  destruct (SFsub_signed x y Vx Vy Nx Ny) as [[_ [s ->]]|[[_ H]|[_ H]]];
    [discriminate|now apply rounds_to_not_nan in H..].
Qed.

Lemma SFabs_nonneg r : r <> S754_nan -> nonneg (SFabs r).
Proof.
  destruct r as [s|s| |s m e]; intros H; unfold nonneg; cbn [SFabs]; eauto.
  congruence.
Qed.

(** Rounding a truncated value that is not negative keeps the sign. *)
Lemma round_aux_sign s q e l :
  0 <= q ->
  (binary_round_aux prec emax s q e l = S754_zero s) \/
  (exists m e', binary_round_aux prec emax s q e l = S754_finite s m e') \/
  binary_round_aux prec emax s q e l = S754_infinity s.
Proof.
  intros Hq. rewrite binary_round_aux_unfold. cbv zeta.
  change (shr_fexp prec emax q e l)
    with (shr (shr_record_of_loc q l) e (fexp prec emax (digits q + e) - e)).
  remember (fexp prec emax (digits q + e)) as F1 eqn:EF1.
  destruct (shr_m_spec (shr_record_of_loc q l) e (F1 - e)) as [Hm1 He1];
    [rewrite shr_record_of_loc_m; lia|].
  rewrite shr_record_of_loc_m in Hm1.
  set (rec1 := fst (shr (shr_record_of_loc q l) e (F1 - e))) in *.
  set (e1 := snd (shr (shr_record_of_loc q l) e (F1 - e))) in *.
  pose proof (round_nearest_even_bounds (shr_m rec1) (loc_of_shr_record rec1)) as B1.
  set (m1 := round_nearest_even (shr_m rec1) (loc_of_shr_record rec1)) in *.
  assert (Hj1 : 0 < pow2 (Z.max (F1 - e) 0)) by (apply pow2_pos; lia).
  assert (H1 : 0 <= shr_m rec1) by (rewrite Hm1; apply Z.div_pos; lia).
  assert (Hm1' : 0 <= m1) by lia.
  rewrite shr_fexp_exact.
  remember (fexp prec emax (digits m1 + e1)) as F2 eqn:EF2.
  destruct (shr_m_spec (exact m1) e1 (F2 - e1)) as [Hm2 _]; [cbn [shr_m exact]; lia|].
  cbn [shr_m exact] in Hm2. rewrite Hm2.
  assert (Hj2 : 0 < pow2 (Z.max (F2 - e1) 0)) by (apply pow2_pos; lia).
  assert (H2 : 0 <= m1 / pow2 (Z.max (F2 - e1) 0)) by (apply Z.div_pos; lia).
  destruct (m1 / pow2 (Z.max (F2 - e1) 0)) as [|p|p].
  - now left.
  - right. destruct (_ <=? _); eauto.
  - lia.
Qed.

Lemma div_core_nonneg mn en md ed :
  let '(q, e, l) := SFdiv_core_binary prec emax (Zpos mn) en (Zpos md) ed in 0 <= q.
Proof.
  unfold SFdiv_core_binary.
  set (F := fexp prec emax (Zdigits2 (Zpos mn) + en - (Zdigits2 (Zpos md) + ed))).
  set (e' := Z.min F (en - ed)).
  set (sh := en - ed - e').
  assert (Hm' : 0 <= match sh with
                     | Zpos _ => Z.shiftl (Zpos mn) sh
                     | Z0 => Zpos mn
                     | Zneg _ => 0
                     end).
  { destruct sh as [|p|p]; try lia. apply Z.shiftl_nonneg. lia. }
  set (m' := match sh with
             | Zpos _ => Z.shiftl (Zpos mn) sh
             | Z0 => Zpos mn
             | Zneg _ => 0
             end) in *.
  pose proof (Z.div_pos m' (Zpos md) Hm' ltac:(lia)) as Hdiv.
  unfold Z.div in Hdiv. destruct (Z.div_eucl m' (Zpos md)) as [q r]. exact Hdiv.
Qed.

(** A quotient of a value that is not negative by a positive number. *)
Lemma SFdiv_nonneg a md ed :
  nonneg a -> nonneg (SF64div a (S754_finite false md ed)).
Proof.
  unfold SF64div.
  intros [[s ->]|[(mn & en & ->)| ->]]; cbn [SFdiv xorb].
  - left. eauto.
  - pose proof (div_core_nonneg mn en md ed) as H.
    destruct (SFdiv_core_binary prec emax (Zpos mn) en (Zpos md) ed) as [[q e] l].
    destruct (round_aux_sign false q e l H) as [E|[(m & e' & E)|E]]; rewrite E; unfold nonneg;
      eauto.
  - right; right; reflexivity.
Qed.

Lemma one_finite : Prim2SF 1 = S754_finite false 4503599627370496 (-52).
Proof. reflexivity. Qed.

(** [1 - q] is at most 1 when [q] is not negative. *)
Lemma complement_at_most_one q :
  nonneg (Prim2SF q) -> PrimFloat.leb (1 - q) 1 = true.
Proof.
  intros Hq. pose proof (Prim2SF_valid q) as Vq.
  pose proof (Prim2SF_valid (1 - q)) as Vr.
  rewrite leb_spec. rewrite sub_spec in *. unfold SFleb.
  destruct Hq as [[s E]|[(m & e & E)|E]]; rewrite E in *.
  - rewrite one_finite. destruct s; reflexivity.
  - destruct (SFsub_signed (Prim2SF 1) (S754_finite false m e) (Prim2SF_valid 1) Vq
                eq_refl eq_refl) as [[_ [s Hs]]|[[Hlt Hr]|[Hlt Hr]]].
    + rewrite Hs, one_finite. destruct s; reflexivity.
    + rewrite ival_one in Hlt, Hr.
      cbn [valid_binary] in Vq. pose proof (proj1 (bounded_spec m e) Vq) as (He & _).
      pose proof (ival_finite_pos m e ltac:(lia)) as Hp.
      assert (Hv : 0 < pow2 1074 - ival (S754_finite false m e) <= pow2 1074)
        by (unfold ival, cond_Zopp in *; lia).
      pose proof (rnd_mono _ (pow2 1074) Hv) as Hm. rewrite Unit64.rnd_one in Hm.
      pose proof Unit64.unit_bound.
      destruct (Unit64.rounds_to_small _ _ _ Hr ltac:(lia)) as [Hnum Hval].
      rewrite SFcompare_ival by (auto using Prim2SF_valid).
      rewrite Hval, ival_one. unfold cond_Zopp.
      destruct (Z.compare_spec (rnd (pow2 1074 - ival (S754_finite false m e))) (pow2 1074));
        try reflexivity. lia.
    + destruct Hr as [[-> _]|(m' & e' & -> & _)]; rewrite one_finite; reflexivity.
  - rewrite one_finite. reflexivity.
Qed.

End Nav64.

Lemma eqb_one x : PrimFloat.eqb x 1 = true -> Prim2SF x = Prim2SF 1.
Proof.
  intros H. apply eqb_compare in H. rewrite Nav64.one_finite in *.
  destruct (Prim2SF x) as [s|s| |s m e]; try discriminate H.
  - destruct s; discriminate H.
  - now apply SFcompare_finite_eq in H as (-> & -> & ->).
Qed.

(** The score of one NAV ratio [x], the maximum being [hi]. *)
Lemma nav_score_value x hi :
  is_finite x = true -> is_finite hi = true -> PrimFloat.ltb 0 hi = true ->
  let y := (1 - abs (x - 1) / hi)%float in
  PrimFloat.leb y 1 = true /\ (PrimFloat.eqb x 1 = true -> PrimFloat.eqb y 1 = true).
Proof.
  intros Hx Hhi Hpos y.
  apply Binary64.is_finite_number in Hx, Hhi.
  assert (Hp : (0 < Binary64.ival (Prim2SF hi))%Z).
  { rewrite <- Binary64.ival_zero.
    now apply (Binary64.ltb_ival 0 hi Binary64.number_zero Hhi). }
  destruct (Binary64.positive_number _ Hhi Hp) as (md & ed & Ehi).
  split.
  - apply Nav64.complement_at_most_one.
    rewrite div_spec, abs_spec, sub_spec, Ehi.
    apply Nav64.SFdiv_nonneg, Nav64.SFabs_nonneg, Nav64.SFsub_not_nan;
      auto using Prim2SF_valid.
  - intros E. apply eqb_one in E.
    rewrite eqb_spec. unfold y. rewrite sub_spec, div_spec, abs_spec, sub_spec, E, Ehi.
    rewrite Nav64.one_finite.
    change (SF64sub (S754_finite false 4503599627370496 (-52))
                    (S754_finite false 4503599627370496 (-52)))
      with (S754_zero false).
    reflexivity.
Qed.

(** X18. When the NAV ratios are finite and their maximum is positive, every
    NAV-ratio score is at most 1, and a row whose NAV ratio is exactly 1.0
    scores exactly 1.0. *)
Theorem nav_ratio_score_is_at_most_one st df d :
  nth_error (frames st) df = Some d -> entity_table d = true ->
  Forall (fun x => is_finite x = true) (num d Col.nav_ratio) ->
  PrimFloat.ltb 0 (Series.max (num d Col.nav_ratio)) = true ->
  exists out,
    calculate_nav_ratio_score df st = Ok (out, st) /\
    length out = n_rows d /\
    forall i, i < n_rows d ->
      PrimFloat.leb (nth i out nan) 1 = true /\
      (PrimFloat.eqb (nth i (num d Col.nav_ratio) nan) 1 = true ->
       PrimFloat.eqb (nth i out nan) 1 = true).
Proof.
  intros Hr Hd Hfin Hpos. set (s := num d Col.nav_ratio) in *.
  destruct (FrameFacts.entity_numeric d Col.nav_ratio Hd) as [Hget Hlen]; [simpl; tauto|].
  fold s in Hget, Hlen.
  exists (nav_scores s). rewrite (store_ext st) at 1 2.
  split; [exact (Run.nav_ratio_at _ _ [] df d (frame_ext st df d Hr) Hd)|].
  split; [now rewrite SeriesFacts.nav_scores_length|].
  intros i Hi. rewrite <- Hlen in Hi.
  assert (E : nth i (nav_scores s) nan
              = (1 - abs (nth i s nan - 1) / Series.max s)%float).
  { unfold nav_scores, Series.rsub_scalar, Series.div_scalar, Series.abs, Series.sub_scalar.
    rewrite !map_map.
    now apply (SeriesFacts.nth_map_scalar (fun x => (1 - abs (x - 1) / Series.max s)%float)). }
  rewrite E. rewrite Forall_forall in Hfin.
  assert (Hin : In (nth i s nan) s) by now apply nth_In.
  apply nav_score_value; [now apply Hfin| |exact Hpos].
  apply Hfin. apply (max_in s (nth i s nan) Hin).
  apply is_finite_present. now apply Hfin.
Qed.

Lemma nav_ratio_score_is_at_most_one_witness :
  exists out,
    calculate_nav_ratio_score 0 (store_of two_entities default_weights)
    = Ok (out, store_of two_entities default_weights) /\
    length out = n_rows two_entities /\
    forall i, i < n_rows two_entities ->
      PrimFloat.leb (nth i out nan) 1 = true /\
      (PrimFloat.eqb (nth i (num two_entities Col.nav_ratio) nan) 1 = true ->
       PrimFloat.eqb (nth i out nan) 1 = true).
Proof.
  apply (nav_ratio_score_is_at_most_one
           (store_of two_entities default_weights) 0 two_entities);
    [reflexivity|reflexivity|repeat constructor|reflexivity].
Defined.

(** ** C3 *)











(** A score above 1 takes a NAV ratio below zero, which the data model has
    not: with the ratios -1 and -2 the largest is -1 and the scores are 3
    and 4. *)
Lemma negative_nav_scores :
  calculate_nav_ratio_score 0 (store_of negative_nav default_weights)
  = Ok ([3; 4]%float, store_of negative_nav default_weights).
Proof. reflexivity. Qed.


(** * [j_reit_finder/data.py]: the asset types

    [get_data] replaces the asset-type code of each REIT by its name with
    [price.loc[:, "運用資産"].map(lambda x: assert_dict[x])].  The codes are
    taken as integers, as the keys of [assert_dict] are; [d[x]] raises
    [KeyError(x)] for a key that is not in the dictionary, and [Series.map]
    applies the function to the values in order. *)

Module Data.

Inductive raised : Type := KeyError (key : Z).

Definition assert_dict : list (Z * string) :=
  [(1%Z, "事業所主体型"%string);
   (2%Z, "住居主体型"%string);
   (3%Z, "商業施設主体型"%string);
   (4%Z, "ホテル主体型"%string);
   (5%Z, "物流施設主体型"%string);
   (7%Z, "総合型"%string);
   (8%Z, "複合型"%string);
   (9%Z, "ヘルスケア施設主体型"%string)].

(** [d[x]] *)
Fixpoint getitem (d : list (Z * string)) (x : Z) : raised + string :=
  match d with
  | [] => inl (KeyError x)
  | (k, v) :: rest => if Z.eqb k x then inr v else getitem rest x
  end.

(** [s.map(f)] *)
Fixpoint map_values (f : Z -> raised + string) (s : list Z) : raised + list string :=
  match s with
  | [] => inr []
  | x :: rest =>
      match f x with
      | inl e => inl e
      | inr v => match map_values f rest with
                 | inl e => inl e
                 | inr vs => inr (v :: vs)
                 end
      end
  end.

(** [price.loc[:, "運用資産"].map(lambda x: assert_dict[x])] *)
Definition asset_types (codes : list Z) : raised + list string :=
  map_values (fun x => getitem assert_dict x) codes.

(** The codes that have a name. *)
Definition known (x : Z) : Prop := (1 <= x <= 9)%Z /\ x <> 6%Z.

Lemma getitem_known x : known x -> exists v, getitem assert_dict x = inr v.
Proof.
  intros [Hx H6].
  assert (H : (x = 1 \/ x = 2 \/ x = 3 \/ x = 4 \/ x = 5 \/ x = 7 \/ x = 8 \/ x = 9)%Z) by lia.
  destruct H as [->|[->|[->|[->|[->|[->|[->| ->]]]]]]]; eexists; reflexivity.
Qed.

Lemma getitem_unknown x : ~ known x -> getitem assert_dict x = inl (KeyError x).
Proof.
  intros H. unfold known in H. unfold assert_dict. cbn [getitem].
  repeat match goal with
  | |- context [Z.eqb ?k x] => destruct (Z.eqb_spec k x); [exfalso; lia|]
  end.
  reflexivity.
Qed.

Lemma known_dec x : {known x} + {~ known x}.
Proof.
  unfold known. destruct (Z_le_dec 1 x), (Z_le_dec x 9), (Z.eq_dec x 6); try (right; lia).
  left. lia.
Qed.

Lemma getitem_injective x y v :
  getitem assert_dict x = inr v -> getitem assert_dict y = inr v -> x = y.
Proof.
  intros Hx Hy.
  destruct (known_dec x) as [Kx|Kx]; [|rewrite (getitem_unknown x Kx) in Hx; discriminate].
  destruct (known_dec y) as [Ky|Ky]; [|rewrite (getitem_unknown y Ky) in Hy; discriminate].
  destruct Kx as [Hx1 Hx6], Ky as [Hy1 Hy6].
  assert (Ex : (x = 1 \/ x = 2 \/ x = 3 \/ x = 4 \/ x = 5 \/ x = 7 \/ x = 8 \/ x = 9)%Z) by lia.
  assert (Ey : (y = 1 \/ y = 2 \/ y = 3 \/ y = 4 \/ y = 5 \/ y = 7 \/ y = 8 \/ y = 9)%Z) by lia.
  destruct Ex as [->|[->|[->|[->|[->|[->|[->| ->]]]]]]];
    vm_compute in Hx; injection Hx as <-;
    destruct Ey as [->|[->|[->|[->|[->|[->|[->| ->]]]]]]];
    vm_compute in Hy; first [reflexivity|discriminate Hy].
Qed.

Lemma asset_types_known codes :
  Forall known codes ->
  exists names,
    asset_types codes = inr names /\
    Forall2 (fun x name => getitem assert_dict x = inr name) codes names.
Proof.
  induction 1 as [|x codes Hx _ (names & E & L)]; [exists []; split; [reflexivity|constructor]|].
  destruct (getitem_known x Hx) as [v Hv].
  exists (v :: names). unfold asset_types in *. cbn [map_values]. rewrite Hv, E.
  split; [reflexivity|]. now constructor.
Qed.

Lemma asset_types_unknown pre x post :
  Forall known pre -> ~ known x -> asset_types (pre ++ x :: post) = inl (KeyError x).
Proof.
  intros Hpre Hx. induction Hpre as [|y pre Hy _ IH].
  - unfold asset_types. cbn [app map_values]. now rewrite (getitem_unknown x Hx).
  - destruct (getitem_known y Hy) as [v Hv]. unfold asset_types in *.
    cbn [app map_values]. now rewrite Hv, IH.
Qed.

End Data.

(** X19. The asset-type step of [get_data] gives one name per code, in the
    order of the codes and each the name [assert_dict] has for its code,
    when every code is one of 1, 2, 3, 4, 5, 7, 8, 9; at the first other
    code, 6 included, it raises [KeyError] with that code; no two codes have
    the same name; and the eight names are those of the source. *)
Theorem asset_type_codes_with_a_name codes :
  (Forall Data.known codes ->
   exists names,
     Data.asset_types codes = inr names /\
     length names = length codes /\
     Forall2 (fun x name => Data.getitem Data.assert_dict x = inr name) codes names) /\
  (forall pre x post, codes = pre ++ x :: post -> Forall Data.known pre -> ~ Data.known x ->
   Data.asset_types codes = inl (Data.KeyError x)) /\
  (forall x y v, Data.getitem Data.assert_dict x = inr v ->
                 Data.getitem Data.assert_dict y = inr v -> x = y) /\
  Data.asset_types [1; 2; 3; 4; 5; 7; 8; 9]%Z
  = inr ["事業所主体型"; "住居主体型"; "商業施設主体型"; "ホテル主体型"; "物流施設主体型";
         "総合型"; "複合型"; "ヘルスケア施設主体型"]%string.
Proof.
  split; [|split; [|split]].
  - intros H. destruct (Data.asset_types_known codes H) as (names & E & F).
    exists names. split; [exact E|]. split; [|exact F].
    symmetry. exact (Forall2_length F).
  - intros pre x post -> Hpre Hx. now apply Data.asset_types_unknown.
  - apply Data.getitem_injective.
  - reflexivity.
Qed.

Lemma asset_type_codes_with_a_name_witness :
  (exists names,
     Data.asset_types [1; 7; 9]%Z = inr names /\
     length names = 3 /\
     Forall2 (fun x name => Data.getitem Data.assert_dict x = inr name) [1; 7; 9]%Z names) /\
  Data.asset_types [1; 6; 9]%Z = inl (Data.KeyError 6).
Proof.
  split.
  - apply (proj1 (asset_type_codes_with_a_name [1; 7; 9]%Z)).
    repeat constructor; unfold Data.known; lia.
  - apply (proj1 (proj2 (asset_type_codes_with_a_name [1; 6; 9]%Z)) [1%Z] 6%Z [9%Z]);
      [reflexivity|repeat constructor; unfold Data.known; lia|unfold Data.known; lia].
Defined.

(** ** A missing sub-score *)

Lemma weighted_nan (y n q h p : float) (w : ScoringWeights) :
  is_nan y = true \/ is_nan n = true \/ is_nan q = true \/ is_nan h = true \/
  is_nan p = true ->
  is_nan (y * distribution_yield w + n * nav_ratio w + q * portfolio_quality w
          + h * financial_health w + p * market_position w) = true.
Proof.
  intros [H|[H|[H|[H|H]]]];
    repeat first [ apply NanFacts.mul_nan_l, H
                 | apply NanFacts.add_nan_r, NanFacts.mul_nan_l, H
                 | apply NanFacts.add_nan_l ].
Qed.

(** X20. A row returned with a sub-score that is [nan] has a composite score
    that is [nan], whatever the weights, a weight of 0 included. *)
Theorem missing_sub_score_makes_the_total_missing {K : SortKind} st df d top_n :
  nth_error (frames st) df = Some d -> entity_table d = true ->
  exists st' out,
    selects st df top_n st' out /\
    forall i, i < n_rows out ->
      is_nan (nth i (num out Col.distribution_yield_score) nan) = true \/
      is_nan (nth i (num out Col.nav_ratio_score) nan) = true \/
      is_nan (nth i (num out Col.portfolio_quality_score) nan) = true \/
      is_nan (nth i (num out Col.financial_health_score) nan) = true \/
      is_nan (nth i (num out Col.market_position_score) nan) = true ->
      is_nan (nth i (num out Col.total_score) nan) = true.
Proof.
  intros Hr Hd. eexists _, _. split; [exact (selects_entity_table st df d top_n Hr Hd)|].
  set (w := weights (self st)). intros i Hi. rewrite output_rows in Hi.
  rewrite (num_take_rows_ok _ _ _ _ (scored_total w d)).
  rewrite (num_take_rows_ok _ _ _ _ (scored_yield w d)).
  rewrite (num_take_rows_ok _ _ _ _ (scored_nav w d)).
  rewrite (num_take_rows_ok _ _ _ _ (scored_quality w d)).
  rewrite (num_take_rows_ok _ _ _ _ (scored_health w d)).
  rewrite (num_take_rows_ok _ _ _ _ (scored_position w d)).
  rewrite !nth_take by assumption.
  rewrite (composite_at w d Hd) by (now apply selection_nth_lt).
  apply weighted_nan.
Qed.

Lemma missing_sub_score_makes_the_total_missing_witness :
  exists st' out,
    selects (K := stable_kind) (store_of missing_roe default_weights) 0 3 st' out /\
    forall i, i < n_rows out ->
      is_nan (nth i (num out Col.distribution_yield_score) nan) = true \/
      is_nan (nth i (num out Col.nav_ratio_score) nan) = true \/
      is_nan (nth i (num out Col.portfolio_quality_score) nan) = true \/
      is_nan (nth i (num out Col.financial_health_score) nan) = true \/
      is_nan (nth i (num out Col.market_position_score) nan) = true ->
      is_nan (nth i (num out Col.total_score) nan) = true.
Proof.
  apply (missing_sub_score_makes_the_total_missing (K := stable_kind)
           (store_of missing_roe default_weights) 0 missing_roe 3);
    reflexivity.
Defined.
